(** * Isolation forest ([isolation_forest.py]): shallow embedding and properties

    Conventions of the embedding.
    - The code is read as Python 3: [/] is true division.
    - Python [int]s are [Z]; list lengths, list positions, node addresses and
      loop depths are [nat].
    - The entries of a dataset are exact rationals [Q]: every Python [int] and
      every finite [float] is one.  Arithmetic on them is exact, so the
      rounding of binary floating point is not part of the model; the
      statements that depend on it say "in exact arithmetic".  An [int] too
      large for a double, on which the conversion to [float] raises
      [OverflowError], is outside the model, and so are infinities and NaN.
    - The results of [log], of [/] on scores and of [**] are real numbers [R]
      ([ln], [Rdiv], [Rpower]).  Where the doubles of the code behave
      otherwise than the real numbers, the module [Binary64] evaluates
      [_get_adjustment] in IEEE binary64.
    - The module [random] is a table of draws indexed by the number of calls
      made so far; the call counter is threaded through the code.
    - [Node] objects live in a per-tree store (a list addressed by position),
      attribute assignment updates the store in place, object creation
      appends to it.
    - A raised exception is the outcome [Raise e].  The two [while] loops run
      on an iteration budget; exhausting it is the outcome [Diverge], which
      the code never produces ([init_no_diverge], [fit_no_diverge],
      [descend_no_diverge]). *)

From Stdlib Require Import ZArith QArith Qreals Reals Psatz List Bool.
From Stdlib Require Import Permutation.
From Stdlib Require SpecFloat.
Import ListNotations.

(** ** Outcomes of Python code *)

Inductive exn : Set :=
| IndexError
| ValueError
| TypeError
| AttributeError
| ZeroDivisionError
| UnboundLocalError.

Inductive outcome (A : Type) : Type :=
| Return (a : A)
| Raise (e : exn)
| Diverge.

Arguments Return {A} a.
Arguments Raise {A} e.
Arguments Diverge {A}.

Definition bind {A B : Type} (c : outcome A) (k : A -> outcome B) : outcome B :=
  match c with
  | Return a => k a
  | Raise e => Raise e
  | Diverge => Diverge
  end.

Declare Scope py_scope.
Delimit Scope py_scope with py.
Notation "x <- c ;; k" := (bind c (fun x => k))
  (at level 61, c at next level, right associativity) : py_scope.
Notation "' p <- c ;; k" := (bind c (fun x => let p := x in k))
  (at level 61, p pattern, c at next level, right associativity) : py_scope.


(** ** The module [random] *)

(** One table per function of the module that the code calls.  The first
    argument is the number of calls made to the module before this one. *)
Record Random : Type := mkRandom {
  sample_draw : nat -> nat -> nat -> list nat; (* sample(range(n), k) *)
  choice_draw : nat -> nat -> nat;             (* choice(range(m)) *)
  random_draw : nat -> Q                       (* random() *)
}.

(** The contract of the library: [sample] returns [k] distinct elements of the
    population, [choice] an element of the sequence, [random] a number in
    [[0, 1)]. *)
Record random_ok (rnd : Random) : Prop := mkRandomOk {
  sample_length : forall t n k, (k <= n)%nat -> length (sample_draw rnd t n k) = k;
  sample_range : forall t n k i, (k <= n)%nat -> In i (sample_draw rnd t n k) -> (i < n)%nat;
  sample_nodup : forall t n k, (k <= n)%nat -> NoDup (sample_draw rnd t n k);
  choice_range : forall t m, (0 < m)%nat -> (choice_draw rnd t m < m)%nat;
  random_range : forall t, (0 <= random_draw rnd t)%Q /\ (random_draw rnd t < 1)%Q
}.

(** [sample(range(n), k)]: [ValueError] unless [0 <= k <= n]. *)
Definition sample (rnd : Random) (t n : nat) (k : Z) : outcome (list nat) :=
  if ((k <? 0) || (Z.of_nat n <? k))%Z then Raise ValueError
  else Return (sample_draw rnd t n (Z.to_nat k)).

(** [choice(range(m))]: [IndexError] on an empty sequence. *)
Definition choice (rnd : Random) (t m : nat) : outcome nat :=
  if (m =? 0)%nat then Raise IndexError else Return (choice_draw rnd t m).

(** ** Numbers, rows and Python sets of numbers *)

Definition Dataset : Type := list (list Q).

Definition Qltb (x y : Q) : bool := negb (Qle_bool y x).

(** [seq[i]] for a non-negative position. *)
Definition getitem {A : Type} (l : list A) (i : nat) : outcome A :=
  match nth_error l i with
  | Some a => Return a
  | None => Raise IndexError
  end.

Definition mem (x : Q) (s : list Q) : bool := existsb (Qeq_bool x) s.

(** [set(values)]: one representative per number, equal numbers are merged. *)
Fixpoint set_of (values : list Q) : list Q :=
  match values with
  | [] => []
  | x :: rest => let s := set_of rest in if mem x s then s else x :: s
  end.

(** [s.remove(x)] for an element of the set. *)
Definition set_remove (x : Q) (s : list Q) : list Q :=
  filter (fun y => negb (Qeq_bool x y)) s.

Definition Qminb (x y : Q) : Q := if Qle_bool x y then x else y.
Definition Qmaxb (x y : Q) : Q := if Qle_bool x y then y else x.

(** [min(s)] and [max(s)]: [ValueError] on an empty set. *)
Definition py_min (s : list Q) : outcome Q :=
  match s with
  | [] => Raise ValueError
  | x :: rest => Return (fold_left Qminb rest x)
  end.

Definition py_max (s : list Q) : outcome Q :=
  match s with
  | [] => Raise ValueError
  | x :: rest => Return (fold_left Qmaxb rest x)
  end.

(** ** [Node] and the store of a tree *)

Record Node : Type := mkNode {
  size : Z;
  split_feature : option nat;
  split_point : option Q;
  left : option nat;
  right : option nat
}.

(** [Node(size)] *)
Definition new_Node (sz : Z) : Node := mkNode sz None None None None.

Definition Store : Type := list Node.

(** Reading the object at address [a].  An address outside the store stands
    for [None]; reading an attribute of it is an [AttributeError]. *)
Definition deref (st : Store) (a : nat) : outcome Node :=
  match nth_error st a with
  | Some nd => Return nd
  | None => Raise AttributeError
  end.

(** Attribute assignment on the object at address [a]. *)
Fixpoint setattr (a : nat) (f : Node -> Node) (st : Store) : Store :=
  match st, a with
  | [], _ => []
  | nd :: st', O => f nd :: st'
  | nd :: st', S a' => nd :: setattr a' f st'
  end.

Definition set_split_feature (v : option nat) (nd : Node) : Node :=
  mkNode (size nd) v (split_point nd) (left nd) (right nd).
Definition set_split_point (v : option Q) (nd : Node) : Node :=
  mkNode (size nd) (split_feature nd) v (left nd) (right nd).
Definition set_left (v : option nat) (nd : Node) : Node :=
  mkNode (size nd) (split_feature nd) (split_point nd) v (right nd).
Definition set_right (v : option nat) (nd : Node) : Node :=
  mkNode (size nd) (split_feature nd) (split_point nd) (left nd) v.

(** Object creation: the new object gets the next free address. *)
Definition alloc (nd : Node) (st : Store) : nat * Store := (length st, st ++ [nd]).

(** ** [IsolationTree] *)

Module IsolationTree.

Record t : Type := mkTree {
  height : nat;
  root : nat;
  nodes : Store
}.

Section TreeCode.

Variable rnd : Random.
Variable X : Dataset.

Open Scope py_scope.

(** [map(lambda i: X[i][split_feature], idx)] *)
Fixpoint column (idx : list nat) (feature : nat) : outcome (list Q) :=
  match idx with
  | [] => Return []
  | i :: rest =>
      row <- getitem X i ;;
      x <- getitem row feature ;;
      xs <- column rest feature ;;
      Return (x :: xs)
  end.

(** [IsolationTree._get_split]; [calls] counts the calls made to [random] so far,
    the result carries the new count. *)
Definition _get_split (calls : nat) (idx : list nat) (feature : nat)
  : outcome (option Q * nat) :=
  values <- column idx feature ;;
  let unique := set_of values in
  if (length unique =? 1)%nat then Return (None, calls)
  else
    lowest <- py_min unique ;;
    let unique := set_remove lowest unique in
    x_min <- py_min unique ;;
    x_max <- py_max unique ;;
    Return (Some (random_draw rnd calls * (x_max - x_min) + x_min)%Q, S calls).

(** The inner [while idx:] loop of [_build_tree]; [pending] lists [idx] in the
    order in which [idx.pop()] yields its elements. *)
Fixpoint split_rows (feature : nat) (point : Q) (pending idx_left idx_right : list nat)
  : outcome (list nat * list nat) :=
  match pending with
  | [] => Return (idx_left, idx_right)
  | i :: rest =>
      row <- getitem X i ;;
      xi <- getitem row feature ;;
      if Qltb xi point
      then split_rows feature point rest (idx_left ++ [i]) idx_right
      else split_rows feature point rest idx_left (idx_right ++ [i])
  end.

(** The state of the [while que ...] loop of [_build_tree]: the store, the
    queue of [(depth, node, idx)], the variable [depth] (unbound before the
    first iteration) and the number of calls made to [random]. *)
Record build_state : Type := mkState {
  st_nodes : Store;
  st_que : list (nat * nat * list nat);
  st_depth : option nat;
  st_calls : nat
}.

(** [que and que[0][0] <= max_depth] *)
Definition loop_test (max_depth : Z) (s : build_state) : bool :=
  match st_que s with
  | [] => false
  | (depth, _, _) :: _ => (Z.of_nat depth <=? max_depth)%Z
  end.

(** One iteration of the loop; [m] is the number of columns of [X[0]]. *)
Definition loop_body (m : nat) (s : build_state) : outcome build_state :=
  match st_que s with
  | [] => Raise IndexError
  | (depth, nd, idx) :: que =>
      feature <- choice rnd (st_calls s) m ;;
      let st := setattr nd (set_split_feature (Some feature)) (st_nodes s) in
      ' (point, calls) <- _get_split (S (st_calls s)) idx feature ;;
      let st := setattr nd (set_split_point point) st in
      match point with
      | None => Return (mkState st que (Some depth) calls)
      | Some p =>
          ' (idx_left, idx_right) <- split_rows feature p (rev idx) [] [] ;;
          let (a_left, st) := alloc (new_Node (Z.of_nat (length idx_left))) st in
          let st := setattr nd (set_left (Some a_left)) st in
          let (a_right, st) := alloc (new_Node (Z.of_nat (length idx_right))) st in
          let st := setattr nd (set_right (Some a_right)) st in
          Return (mkState st
                    (que ++ [(S depth, a_left, idx_left); (S depth, a_right, idx_right)])
                    (Some depth) calls)
      end
  end.

Fixpoint loop (budget : nat) (m : nat) (max_depth : Z) (s : build_state)
  : outcome build_state :=
  if loop_test max_depth s then
    match budget with
    | O => Diverge
    | S budget' => s' <- loop_body m s ;; loop budget' m max_depth s'
    end
  else Return s.

(** Every iteration pops an entry of depth at most [max_depth] and pushes at
    most two of the next depth, so [2 ^ (max_depth + 1)] iterations are never
    exceeded ([loop_budget_enough]). *)
Definition loop_budget (max_depth : Z) : nat := 2 ^ S (Z.to_nat max_depth).

(** [IsolationTree._build_tree], called with the store holding the root. *)
Definition _build_tree (calls : nat) (root_addr : nat) (st : Store)
  (n_samples max_depth : Z) : outcome (nat * Store * nat) :=
  row0 <- getitem X 0 ;;
  let m := length row0 in
  let n := length X in
  idx <- sample rnd calls n n_samples ;;
  s <- loop (loop_budget max_depth) m max_depth
         (mkState st [(0%nat, root_addr, idx)] None (S calls)) ;;
  match st_depth s with
  | None => Raise UnboundLocalError
  | Some depth => Return (depth, st_nodes s, st_calls s)
  end.

(** [IsolationTree.__init__] *)
Definition __init__ (calls : nat) (n_samples max_depth : Z)
  : outcome (t * nat) :=
  let n := length X in
  let n_samples := if (n_samples >? Z.of_nat n)%Z then Z.of_nat n else n_samples in
  let (root_addr, st) := alloc (new_Node n_samples) [] in
  ' (h, st, calls') <- _build_tree calls root_addr st n_samples max_depth ;;
  Return (mkTree h root_addr st, calls').

End TreeCode.

(** [IsolationTree._predict]: the [while nd.left and nd.right] loop.  The
    store after the call is returned next to the result.  The comparison
    [row[nd.split_feature] < nd.split_point] evaluates its left operand
    first: a [None] feature is no list index ([TypeError]), then the row is
    read ([IndexError]), then the value is compared with the split point
    ([TypeError] when that is [None]). *)
Fixpoint descend (budget : nat) (st : Store) (row : list Q) (nd depth : nat)
  : outcome (nat * Z) * Store :=
  match deref st nd with
  | Return node =>
      match left node, right node with
      | Some l, Some r =>
          match budget with
          | O => (Diverge, st)
          | S budget' =>
              match split_feature node with
              | Some feature =>
                  match getitem row feature with
                  | Return x =>
                      match split_point node with
                      | Some point =>
                          if Qltb x point
                          then descend budget' st row l (S depth)
                          else descend budget' st row r (S depth)
                      | None => (Raise TypeError, st)
                      end
                  | Raise e => (Raise e, st)
                  | Diverge => (Diverge, st)
                  end
              | None => (Raise TypeError, st)
              end
          end
      | _, _ => (Return (depth, size node), st)
      end
  | Raise e => (Raise e, st)
  | Diverge => (Diverge, st)
  end.

Definition _predict (tree : t) (row : list Q)
  : outcome (nat * Z) * Store :=
  descend (length (nodes tree)) (nodes tree) row (root tree) 0.

End IsolationTree.

(** ** [IsolationForest] *)

Module IsolationForest.

Open Scope py_scope.

(** The attributes after [fit]. *)
Record t : Type := mkForest {
  trees : list IsolationTree.t;
  adjustment : R
}.

(** [_get_adjustment(self, node_size)]; [2 * i / node_size] is an integer
    product followed by a true division. *)
Definition _get_adjustment (node_size : Z) : R :=
  if (node_size >? 2)%Z then
    let i := (node_size - 1)%Z in
    (2 * (ln (IZR i) + 0.5772156649) - IZR (2 * i) / IZR node_size)%R
  else if (node_size =? 2)%Z then 1%R
  else 0%R.

(** [[IsolationTree(X, n_samples, max_depth) for _ in range(n_trees)]] *)
Fixpoint build_trees (rnd : Random) (X : Dataset) (calls : nat)
  (n_samples max_depth : Z) (count : nat) : outcome (list IsolationTree.t * nat) :=
  match count with
  | O => Return ([], calls)
  | S count' =>
      ' (tree, calls1) <- IsolationTree.__init__ rnd X calls n_samples max_depth ;;
      ' (rest, calls2) <- build_trees rnd X calls1 n_samples max_depth count' ;;
      Return (tree :: rest, calls2)
  end.

(** [fit(self, X, n_samples, max_depth, n_trees)] *)
Definition fit (rnd : Random) (X : Dataset) (calls : nat)
  (n_samples max_depth n_trees : Z) : outcome (t * nat) :=
  let adjustment := _get_adjustment n_samples in
  ' (trees, calls') <- build_trees rnd X calls n_samples max_depth (Z.to_nat n_trees) ;;
  Return (mkForest trees adjustment, calls').

(** [a / b] on numbers *)
Definition true_div (a b : R) : outcome R :=
  if Req_EM_T b 0 then Raise ZeroDivisionError else Return (a / b)%R.

(** The [for tree in self.trees] loop of [_predict].  A tree query leaves the
    store of the tree as it was ([descend_store]), so the forest
    keeps its trees. *)
Fixpoint accumulate (trees : list IsolationTree.t) (row : list Q) (score : R)
  : outcome R :=
  match trees with
  | [] => Return score
  | tree :: rest =>
      ' (depth, node_size) <- fst (IsolationTree._predict tree row) ;;
      accumulate rest row (score + (INR depth + _get_adjustment node_size))%R
  end.

(** [_predict(self, row)] *)
Definition _predict (forest : t) (row : list Q) : outcome R :=
  score <- accumulate (trees forest) row 0%R ;;
  let n_trees := length (trees forest) in
  score <- true_div score (INR n_trees) ;;
  quotient <- true_div score (adjustment forest) ;;
  Return (Rpower 2 (- quotient)).

(** [predict(self, X)] *)
Fixpoint predict (forest : t) (X : Dataset) : outcome (list R) :=
  match X with
  | [] => Return []
  | row :: rest =>
      y <- _predict forest row ;;
      ys <- predict forest rest ;;
      Return (y :: ys)
  end.

End IsolationForest.

(** ** [_get_adjustment] in binary64

    The same function, evaluated as CPython does on a platform whose
    [float] is IEEE binary64, for the arguments on which every integer
    involved converts to a double without rounding. *)

Module Binary64.

Definition prec : Z := 53.
Definition emax : Z := 1024.

Definition double : Type := SpecFloat.spec_float.

(** [float(z)]: the nearest double, ties to even; exact up to [2 ^ 53]. *)
Definition of_int (z : Z) : double := SpecFloat.binary_normalize prec emax z 0 false.

Definition add : double -> double -> double := SpecFloat.SFadd prec emax.
Definition sub : double -> double -> double := SpecFloat.SFsub prec emax.
Definition mul : double -> double -> double := SpecFloat.SFmul prec emax.
Definition div : double -> double -> double := SpecFloat.SFdiv prec emax.
Definition ltb : double -> double -> bool := SpecFloat.SFltb.

(** The literal [0.5772156649]: the double nearest to [5772156649 / 10 ^ 10],
    which is the correctly rounded quotient of the two integers. *)
Definition euler : double :=
  Eval vm_compute in div (of_int 5772156649) (of_int 10000000000).

(** [math.log] is the logarithm of the C library and is not computed here.
    The table gives its value at the arguments that the statements use; each
    value is the double nearest to the real logarithm
    ([log_table_nearest]). *)
Definition log_table : list (Z * double) :=
  [ (285942833483840%Z, SpecFloat.S754_finite false 4684702460329438 (-47));
    (285942833483841%Z, SpecFloat.S754_finite false 4684702460329438 (-47)) ].

Fixpoint lookup (table : list (Z * double)) (i : Z) : option double :=
  match table with
  | [] => None
  | (j, l) :: rest => if (i =? j)%Z then Some l else lookup rest i
  end.

(** [log(i)] for an [int] that is in the table. *)
Definition math_log (i : Z) : option double := lookup log_table i.

(** [_get_adjustment(self, node_size)].  In
    [2 * (log(i) + 0.5772156649) - 2 * i / node_size] the factor [2] of the
    first product is converted to a double, [2 * i] is a product of
    integers, and the true division of two integers that are doubles
    themselves is the division of these doubles.  The integers [1] and [0]
    of the other branches are given as the doubles of the same value.  The
    result is [None] where the model does not reach: beyond [2 ^ 53], and
    where [log_table] has no entry. *)
Definition _get_adjustment (node_size : Z) : option double :=
  if (node_size >? 2)%Z then
    let i := (node_size - 1)%Z in
    if (2 * i <=? 2 ^ 53)%Z then
      match math_log i with
      | Some l => Some (sub (mul (of_int 2) (add l euler))
                            (div (of_int (2 * i)) (of_int node_size)))
      | None => None
      end
    else None
  else if (node_size =? 2)%Z then Some (of_int 1)
  else Some (of_int 0).

(** The real number that a finite double stands for. *)
Definition value (x : double) : R :=
  match x with
  | SpecFloat.S754_finite s m e =>
      let z := if s then Z.neg m else Z.pos m in
      if (0 <=? e)%Z then IZR (z * 2 ^ e) else (IZR z / IZR (2 ^ (- e)))%R
  | _ => 0%R
  end.

(** [x] rounds to the double [d]: [d] is a normal number and [x] is less than
    half a unit in the last place away from it. *)
Definition nearest (x : R) (d : double) : Prop :=
  match d with
  | SpecFloat.S754_finite s m e =>
      (2 ^ 52 <= Z.pos m < 2 ^ 53)%Z /\
      (Rabs (x - value d) < value (SpecFloat.S754_finite false 1 e) / 2)%R
  | _ => False
  end.

End Binary64.

(** [k] squarings in fixed point with [p] fraction bits, each rounded down;
    used to bound [exp] from below. *)
Fixpoint square_down (p : Z) (k : nat) (x : Z) : Z :=
  match k with
  | O => x
  | S k' => square_down p k' (x * x / 2 ^ p)
  end.

(** The expected path length as the specification words it, by cases on
    [node_size]. *)
Definition expected_path_length_spec (node_size : Z) (v : R) : Prop :=
  ((node_size > 2)%Z ->
     v = 2 * (ln (IZR node_size - 1) + 0.5772156649)
         - 2 * (IZR node_size - 1) / IZR node_size)%R /\
  (node_size = 2%Z -> v = 1%R) /\
  ((node_size <= 1)%Z -> v = 0%R).

(** ** A concrete generator, used to run the code *)

Definition demo_random : Random :=
  mkRandom (fun _ n k => firstn k (seq 0 n))
           (fun t m => (t mod m)%nat)
           (fun t => (Z.of_nat (t mod 4) # 4)%Q).

(** A dataset of four rows and two columns, and the trees the constructor
    builds on it with the generator above. *)
Definition demo_X : Dataset := [[1;5];[2;5];[3;7];[10;7]]%Q.

Definition demo_tree : IsolationTree.t :=
  Eval vm_compute in
    match IsolationTree.__init__ demo_random demo_X 0 100 10 with
    | Return (tree, _) => tree
    | _ => IsolationTree.mkTree 0 0 []
    end.

Definition shallow_tree : IsolationTree.t :=
  Eval vm_compute in
    match IsolationTree.__init__ demo_random demo_X 0 100 0 with
    | Return (tree, _) => tree
    | _ => IsolationTree.mkTree 0 0 []
    end.

(** ** Vocabulary of the statements *)

(** All values equal as numbers. *)
Definition all_equal (vs : list Q) : Prop :=
  forall x y, In x vs -> In y vs -> (x == y)%Q.

Definition is_least (m : Q) (vs : list Q) : Prop :=
  In m vs /\ forall y, In y vs -> (m <= y)%Q.

Definition is_greatest (m : Q) (vs : list Q) : Prop :=
  In m vs /\ forall y, In y vs -> (y <= m)%Q.

(** The store after the two allocations and the four assignments of an
    iteration that splits the node at [nd]. *)
Definition split_store (nd feature : nat) (point : Q) (n_left n_right : nat)
  (st : Store) : Store :=
  let st := setattr nd (set_split_feature (Some feature)) st in
  let st := setattr nd (set_split_point (Some point)) st in
  let (a_left, st) := alloc (new_Node (Z.of_nat n_left)) st in
  let st := setattr nd (set_left (Some a_left)) st in
  let (a_right, st) := alloc (new_Node (Z.of_nat n_right)) st in
  setattr nd (set_right (Some a_right)) st.

(** The store after the two assignments of an iteration that does not. *)
Definition leaf_store (nd feature : nat) (st : Store) : Store :=
  setattr nd (set_split_point None) (setattr nd (set_split_feature (Some feature)) st).

(** One iteration of the loop of [_build_tree], as a relation between the
    states before and after. *)
Inductive iteration (rnd : Random) (X : Dataset) (m : nat)
  (s s' : IsolationTree.build_state) : Prop :=
| iteration_leaf (depth nd : nat) (idx : list nat) que (feature calls : nat) :
    IsolationTree.st_que s = (depth, nd, idx) :: que ->
    choice rnd (IsolationTree.st_calls s) m = Return feature ->
    IsolationTree._get_split rnd X (S (IsolationTree.st_calls s)) idx feature
    = Return (None, calls) ->
    s' = IsolationTree.mkState
           (leaf_store nd feature (IsolationTree.st_nodes s)) que (Some depth) calls ->
    iteration rnd X m s s'
| iteration_split (depth nd : nat) (idx : list nat) que (feature calls : nat)
    (point : Q) (idx_left idx_right : list nat) :
    IsolationTree.st_que s = (depth, nd, idx) :: que ->
    choice rnd (IsolationTree.st_calls s) m = Return feature ->
    IsolationTree._get_split rnd X (S (IsolationTree.st_calls s)) idx feature
    = Return (Some point, calls) ->
    IsolationTree.split_rows X feature point (rev idx) [] []
    = Return (idx_left, idx_right) ->
    s' = IsolationTree.mkState
           (split_store nd feature point (length idx_left) (length idx_right)
              (IsolationTree.st_nodes s))
           (que ++ [(S depth, length (IsolationTree.st_nodes s), idx_left);
                    (S depth, S (length (IsolationTree.st_nodes s)), idx_right)])
           (Some depth) calls ->
    iteration rnd X m s s'.

(** The iterations an entry of the queue can still cause. *)
Definition weight (max_depth : Z) (entry : nat * nat * list nat) : nat :=
  2 ^ (S (Z.to_nat max_depth) - fst (fst entry)) - 1.

Definition remaining_work (max_depth : Z) (que : list (nat * nat * list nat)) : nat :=
  list_sum (map (weight max_depth) que).

(** The shape of a store under construction: children are set in pairs, a
    child has a larger address than its parent, and [dp] labels each address
    with its distance from the root, where no node deeper than [max_depth]
    has children. *)
Record shaped (max_depth : Z) (dp : nat -> nat) (st : Store) : Prop := mkShaped {
  shaped_pair : forall a node, nth_error st a = Some node ->
    (left node = None <-> right node = None);
  shaped_child : forall a node c, nth_error st a = Some node ->
    left node = Some c \/ right node = Some c ->
    (a < c < length st)%nat /\ dp c = S (dp a) /\ (Z.of_nat (dp a) <= max_depth)%Z
}.

(** The invariant of the loop: the root has label 0, and the queue holds
    distinct childless nodes with their labels. *)
Record build_inv (max_depth : Z) (dp : nat -> nat)
  (s : IsolationTree.build_state) : Prop := mkBuildInv {
  inv_shaped : shaped max_depth dp (IsolationTree.st_nodes s);
  inv_root : dp 0%nat = 0%nat /\ (0 < length (IsolationTree.st_nodes s))%nat;
  inv_que : forall d nd idx, In (d, nd, idx) (IsolationTree.st_que s) ->
    dp nd = d /\
    exists node, nth_error (IsolationTree.st_nodes s) nd = Some node /\
                 left node = None /\ right node = None;
  inv_nodup : NoDup (map (fun entry => snd (fst entry)) (IsolationTree.st_que s))
}.

(** The path of a query as the specification describes it: from the node
    at [nd], reached after [depth] edges, the row arrives at a childless node
    after [d] edges in all, and that node has size [sz]. *)
Inductive reaches (st : Store) (row : list Q) : nat -> nat -> nat -> Z -> Prop :=
| reaches_leaf (nd depth : nat) (node : Node) :
    nth_error st nd = Some node ->
    left node = None -> right node = None ->
    reaches st row nd depth depth (size node)
| reaches_left (nd depth : nat) (node : Node) (l r feature : nat) (point x : Q)
    (d : nat) (sz : Z) :
    nth_error st nd = Some node ->
    left node = Some l -> right node = Some r ->
    split_feature node = Some feature -> split_point node = Some point ->
    nth_error row feature = Some x -> (x < point)%Q ->
    reaches st row l (S depth) d sz ->
    reaches st row nd depth d sz
| reaches_right (nd depth : nat) (node : Node) (l r feature : nat) (point x : Q)
    (d : nat) (sz : Z) :
    nth_error st nd = Some node ->
    left node = Some l -> right node = Some r ->
    split_feature node = Some feature -> split_point node = Some point ->
    nth_error row feature = Some x -> ~ (x < point)%Q ->
    reaches st row r (S depth) d sz ->
    reaches st row nd depth d sz.

(** [X[i][feature]] *)
Definition cell (X : Dataset) (i feature : nat) : outcome Q :=
  bind (getitem X i) (fun row => getitem row feature).

(** Every node but the root holds at least one row. *)
Definition sizes_inv (st : Store) : Prop :=
  forall a node, a <> 0%nat -> nth_error st a = Some node -> (1 <= size node)%Z.

(** Every row has the columns of the first row, of which there are [m]. *)
Definition rows_ok (X : Dataset) (m : nat) : Prop :=
  forall row, In row X -> (m <= length row)%nat.

(** Every entry of the queue lists at least one row of the dataset. *)
Definition que_ok (X : Dataset) (s : IsolationTree.build_state) : Prop :=
  forall d nd idx, In (d, nd, idx) (IsolationTree.st_que s) ->
    idx <> [] /\ forall i, In i idx -> (i < length X)%nat.

(** The subsample size after the clamp of [IsolationTree.__init__]. *)
Definition clamped (X : Dataset) (n_samples : Z) : Z :=
  if (n_samples >? Z.of_nat (length X))%Z then Z.of_nat (length X) else n_samples.

(** A tree returned by the constructor on these arguments. *)
Definition built (rnd : Random) (X : Dataset) (n_samples max_depth : Z)
  (tree : IsolationTree.t) : Prop :=
  exists calls calls',
    IsolationTree.__init__ rnd X calls n_samples max_depth = Return (tree, calls').

(** The size recorded in the root of a tree. *)
Definition root_size (tree : IsolationTree.t) (sz : Z) : Prop :=
  exists node, nth_error (IsolationTree.nodes tree) (IsolationTree.root tree) = Some node /\
               size node = sz.

(** The score of a row as the specification words it, from the pairs
    [(depth_i, leaf_size_i)] returned by the trees. *)
Definition adjusted (result : nat * Z) : R :=
  (INR (fst result) + IsolationForest._get_adjustment (snd result))%R.

Definition mean_score (results : list (nat * Z)) : R :=
  (fold_right Rplus 0 (map adjusted results) / INR (length results))%R.

Definition score_spec (results : list (nat * Z)) (adjustment : R) : R :=
  Rpower 2 (- (mean_score results / adjustment)).

(** [results] lists what each tree of the forest returns for [row]. *)
Definition tree_results (trees : list IsolationTree.t) (row : list Q)
  (results : list (nat * Z)) : Prop :=
  Forall2 (fun tree result => fst (IsolationTree._predict tree row) = Return result)
    trees results.

(** The forest that [fit] returns on [demo_X] for one tree, and the one it
    returns for a subsample size of 1. *)
Definition demo_forest : IsolationForest.t :=
  IsolationForest.mkForest [demo_tree] (IsolationForest._get_adjustment 100).

Definition single_tree : IsolationTree.t :=
  Eval vm_compute in
    match IsolationTree.__init__ demo_random demo_X 0 1 10 with
    | Return (tree, _) => tree
    | _ => IsolationTree.mkTree 0 0 []
    end.

Definition single_forest : IsolationForest.t :=
  IsolationForest.mkForest [single_tree] (IsolationForest._get_adjustment 1).


(** ** Vocabulary of the further properties *)

Definition entry_depth (entry : nat * nat * list nat) : nat := fst (fst entry).

(** The queue of the breadth-first loop holds entries of at most two
    consecutive depths, the shallower ones first. *)
Definition frontier (low : nat) (que : list (nat * nat * list nat)) : Prop :=
  exists j k, map entry_depth que = repeat low j ++ repeat (S low) k.

(** What the loop keeps about the variable [depth]: it is at most the depth
    of every queued entry and at most [max_depth], and no node with children
    is deeper. *)
Record height_inv (max_depth : Z) (dp : nat -> nat)
  (s : IsolationTree.build_state) : Prop := mkHeightInv {
  hi_frontier : exists low,
    frontier low (IsolationTree.st_que s) /\
    forall h, IsolationTree.st_depth s = Some h -> (h <= low)%nat;
  hi_internal : forall a node,
    nth_error (IsolationTree.st_nodes s) a = Some node -> left node <> None ->
    exists h, IsolationTree.st_depth s = Some h /\ (dp a <= h)%nat;
  hi_bound : forall h,
    IsolationTree.st_depth s = Some h -> (Z.of_nat h <= max_depth)%Z
}.

(** The size of a node with children is the sum of the sizes of the two. *)
Definition conserving (st : Store) : Prop :=
  forall a node l r node_l node_r,
    nth_error st a = Some node -> left node = Some l -> right node = Some r ->
    nth_error st l = Some node_l -> nth_error st r = Some node_r ->
    size node = (size node_l + size node_r)%Z.

(** What the loop keeps about sizes: a queued node has the size of its index
    list, and the store is conserving. *)
Record conserve_inv (s : IsolationTree.build_state) : Prop := mkConserveInv {
  ci_que : forall d nd idx, In (d, nd, idx) (IsolationTree.st_que s) ->
    exists node, nth_error (IsolationTree.st_nodes s) nd = Some node /\
                 size node = Z.of_nat (length idx);
  ci_sum : conserving (IsolationTree.st_nodes s)
}.

(** A node with children carries a split point and a split feature among
    the [m] columns. *)
Definition features_ok (m : nat) (st : Store) : Prop :=
  forall a node, nth_error st a = Some node -> left node <> None ->
    exists feature point,
      split_feature node = Some feature /\ (feature < m)%nat /\
      split_point node = Some point.

(** Every row equals [row0], column by column, as numbers. *)
Definition identical_rows (X : Dataset) (row0 : list Q) : Prop :=
  forall row, In row X -> Forall2 Qeq row row0.

(** A dataset of three equal rows and the forest [fit] returns on it for a
    subsample size of 2 and one tree. *)
Definition flat_X : Dataset := [[3;4];[3;4];[3;4]]%Q.

Definition flat_tree : IsolationTree.t :=
  Eval vm_compute in
    match IsolationTree.__init__ demo_random flat_X 0 2 10 with
    | Return (tree, _) => tree
    | _ => IsolationTree.mkTree 0 0 []
    end.

Definition flat_forest : IsolationForest.t :=
  IsolationForest.mkForest [flat_tree] (IsolationForest._get_adjustment 2).

(** The nodes the queued entries can still add to the store: an entry of
    [k] rows at most [2 * k - 2]. *)
Definition que_potential (que : list (nat * nat * list nat)) : Z :=
  fold_right (fun entry acc => (2 * Z.of_nat (length (snd entry)) - 2 + acc)%Z) 0%Z que.

Definition node_budget (n_samples : Z) (s : IsolationTree.build_state) : Prop :=
  (Z.of_nat (length (IsolationTree.st_nodes s)) + que_potential (IsolationTree.st_que s)
   <= 2 * n_samples - 1)%Z /\
  forall entry, In entry (IsolationTree.st_que s) -> (1 <= length (snd entry))%nat.

(** * Properties *)

(** ** The adjustment formula *)

Section AdjustmentFacts.

Open Scope R_scope.

(** *** Elementary bounds on [ln] *)

Lemma ln_lower (y : R) : 0 < y -> 1 - / y <= ln y.
Proof.
  intros Hy.
  pose proof (exp_ineq1_le (- ln y)) as H.
  rewrite exp_Ropp, exp_ln in H by assumption.
  lra.
Qed.

Lemma ln_2_lower : 59 / 100 < ln 2.
Proof.
  set (t := 59 / 400).
  assert (Ht : 1 - t <= exp (- t)) by (pose proof (exp_ineq1_le (- t)); lra).
  assert (Hpos : 0 < exp (- t)) by apply exp_pos.
  assert (H4 : exp (- (59 / 100)) = exp (- t) * exp (- t) * (exp (- t) * exp (- t))).
  { rewrite <- !exp_plus. f_equal. unfold t. lra. }
  assert (Hlow : / 2 < exp (- (59 / 100))).
  { rewrite H4. unfold t in *.
    assert (Hs : 8525 / 10000 <= exp (- (59 / 400))) by lra.
    assert (Hsq : (8525 / 10000) * (8525 / 10000)
                  <= exp (- (59 / 400)) * exp (- (59 / 400))) by nra.
    nra. }
  rewrite exp_Ropp in Hlow.
  assert (He : exp (59 / 100) < 2).
  { assert (Hp : 0 < exp (59 / 100)) by apply exp_pos.
    destruct (Rlt_le_dec (exp (59 / 100)) 2) as [Hlt|Hge]; [exact Hlt|].
    pose proof (Rinv_le_contravar 2 (exp (59 / 100)) ltac:(lra) Hge). lra. }
  apply exp_lt_inv. rewrite exp_ln by lra. exact He.
Qed.

(** *** The three branches *)

Lemma adjustment_gt2 (n : Z) :
  (n > 2)%Z ->
  IsolationForest._get_adjustment n = 2 * (ln (IZR n - 1) + 0.5772156649) - 2 * (IZR n - 1) / IZR n.
Proof.
  intros Hn. unfold IsolationForest._get_adjustment.
  destruct (Z.gtb_spec n 2) as [_|Hle]; [|lia].
  cbv zeta. rewrite mult_IZR, minus_IZR. reflexivity.
Qed.

Lemma adjustment_2 : IsolationForest._get_adjustment 2 = 1.
Proof. reflexivity. Qed.

Lemma adjustment_le1 (n : Z) : (n <= 1)%Z -> IsolationForest._get_adjustment n = 0.
Proof.
  intros Hn. unfold IsolationForest._get_adjustment.
  destruct (Z.gtb_spec n 2) as [Hgt|_]; [lia|].
  destruct (Z.eqb_spec n 2) as [He|_]; [lia|reflexivity].
Qed.

Lemma adjustment_3_lower : 1 < IsolationForest._get_adjustment 3.
Proof.
  rewrite adjustment_gt2 by lia.
  replace (3 - 1) with 2 by lra.
  pose proof ln_2_lower. lra.
Qed.

(** Strict growth on the logarithmic branch. *)
Lemma adjustment_increasing_gt2 (a b : Z) :
  (3 <= a)%Z -> (a < b)%Z -> IsolationForest._get_adjustment a < IsolationForest._get_adjustment b.
Proof.
  intros Ha Hab.
  rewrite !adjustment_gt2 by lia.
  assert (Ha' : 3 <= IZR a) by (apply IZR_le; exact Ha).
  assert (Hab' : IZR a < IZR b) by (apply IZR_lt; exact Hab).
  set (x := IZR a) in *. set (y := IZR b) in *.
  assert (Hq : 0 < (y - 1) / (x - 1)) by (apply Rdiv_lt_0_compat; lra).
  pose proof (ln_lower _ Hq) as Hl.
  assert (Hln : ln ((y - 1) / (x - 1)) = ln (y - 1) - ln (x - 1)).
  { unfold Rdiv. rewrite ln_mult, ln_Rinv; try lra.
    apply Rinv_0_lt_compat; lra. }
  rewrite Hln in Hl.
  assert (Hinv : / ((y - 1) / (x - 1)) = (x - 1) / (y - 1)) by (field; lra).
  rewrite Hinv in Hl.
  assert (Hfrac : (x - 1) / x - (y - 1) / y = / y - / x) by (field; lra).
  assert (Hgap : / x - / y < 1 - (x - 1) / (y - 1)).
  { assert (E1 : / x - / y = (y - x) / (x * y)) by (field; lra).
    assert (E2 : 1 - (x - 1) / (y - 1) = (y - x) / (y - 1)) by (field; lra).
    rewrite E1, E2. unfold Rdiv.
    apply Rmult_lt_compat_l; [lra|].
    apply Rinv_lt_contravar; nra. }
  unfold Rdiv in *. lra.
Qed.

Lemma adjustment_monotone (a b : Z) :
  (2 <= a)%Z -> (a <= b)%Z -> IsolationForest._get_adjustment a <= IsolationForest._get_adjustment b.
Proof.
  intros Ha Hab.
  destruct (Z.eq_dec a b) as [->|Hne]; [lra|].
  destruct (Z.eq_dec a 2) as [->|Ha2].
  - rewrite adjustment_2.
    destruct (Z.eq_dec b 3) as [->|Hb3].
    + pose proof adjustment_3_lower. lra.
    + pose proof adjustment_3_lower.
      pose proof (adjustment_increasing_gt2 3 b ltac:(lia) ltac:(lia)). lra.
  - left. apply adjustment_increasing_gt2; lia.
Qed.

Lemma adjustment_nonneg (n : Z) : 0 <= IsolationForest._get_adjustment n.
Proof.
  destruct (Z_le_gt_dec n 1) as [Hle|Hgt].
  - rewrite adjustment_le1 by assumption. lra.
  - pose proof (adjustment_monotone 2 n ltac:(lia) ltac:(lia)) as H.
    rewrite adjustment_2 in H. lra.
Qed.

Lemma adjustment_ge1 (n : Z) : (2 <= n)%Z -> 1 <= IsolationForest._get_adjustment n.
Proof.
  intros Hn. pose proof (adjustment_monotone 2 n ltac:(lia) Hn) as H.
  rewrite adjustment_2 in H. exact H.
Qed.

(** Strict growth as soon as the larger argument is at least 2. *)
Lemma adjustment_strict (a b : Z) :
  (a < b)%Z -> (2 <= b)%Z -> (1 <= a)%Z -> IsolationForest._get_adjustment a < IsolationForest._get_adjustment b.
Proof.
  intros Hab Hb Ha.
  destruct (Z.eq_dec a 1) as [->|Ha1].
  - rewrite (adjustment_le1 1%Z) by lia.
    pose proof (adjustment_ge1 _ Hb). lra.
  - destruct (Z.eq_dec a 2) as [->|Ha2].
    + rewrite adjustment_2.
      destruct (Z.eq_dec b 3) as [->|Hb3]; [apply adjustment_3_lower|].
      pose proof adjustment_3_lower.
      pose proof (adjustment_increasing_gt2 3 b ltac:(lia) ltac:(lia)). lra.
    + apply adjustment_increasing_gt2; lia.
Qed.

(** C2: for every integer [node_size], [_get_adjustment node_size] is
    [2 * (ln (node_size - 1) + 0.5772156649) - 2 * (node_size - 1) / node_size]
    when [node_size > 2], is [1] when [node_size = 2] and is [0] when
    [node_size <= 1]. *)
Theorem get_adjustment_formula (node_size : Z) :
  expected_path_length_spec node_size (IsolationForest._get_adjustment node_size).
Proof.
  unfold expected_path_length_spec. repeat split.
  - intros Hn. apply adjustment_gt2. exact Hn.
  - intros ->. apply adjustment_2.
  - intros Hn. apply adjustment_le1. exact Hn.
Qed.

(** C8, amended: the expected path length of 1 is 0, that of 2 is 1, and in
    exact real arithmetic (the logarithm, the division and the subtraction
    of the real numbers) it is non-decreasing on the integers from 2
    upwards.  The doubles that the code returns are not monotone. *)
Theorem get_adjustment_monotone :
  IsolationForest._get_adjustment 1 = 0 /\
  IsolationForest._get_adjustment 2 = 1 /\
  forall a b : Z, (2 <= a)%Z -> (a <= b)%Z ->
    IsolationForest._get_adjustment a <= IsolationForest._get_adjustment b.
Proof.
  split; [|split].
  - apply adjustment_le1. lia.
  - apply adjustment_2.
  - intros a b Ha Hab. apply adjustment_monotone; assumption.
Qed.

Lemma get_adjustment_monotone_witness :
  IsolationForest._get_adjustment 2 <= IsolationForest._get_adjustment 100.
Proof.
  apply (proj2 (proj2 get_adjustment_monotone) 2%Z 100%Z); lia.
Defined.

End AdjustmentFacts.

(** ** The adjustment in binary64

    The logarithms of the table are checked against the real logarithm:
    [exp] is bounded from below by [(1 + t / 2 ^ k) ^ (2 ^ k)], computed by
    repeated squaring in fixed point. *)

Section Binary64Facts.

Open Scope R_scope.

(** Squaring [k] times in fixed point with [p] fraction bits, rounding down:
    a lower bound of [exp r] becomes a lower bound of [exp (2 ^ k * r)]. *)
Lemma square_down_exp (p : Z) (k : nat) :
  (0 <= p)%Z ->
  forall x r,
    (0 <= x)%Z -> IZR x / IZR (2 ^ p) <= exp r ->
    IZR (square_down p k x) / IZR (2 ^ p) <= exp (IZR (2 ^ Z.of_nat k) * r).
Proof.
  intros Hp.
  assert (Hpow : (0 < 2 ^ p)%Z) by (apply Z.pow_pos_nonneg; lia).
  assert (HpowR : 0 < IZR (2 ^ p)) by (apply IZR_lt; exact Hpow).
  induction k as [|k IH]; intros x r Hx Hle.
  - simpl. replace (1 * r) with r by lra. exact Hle.
  - cbn [square_down].
    replace (IZR (2 ^ Z.of_nat (S k)) * r) with (IZR (2 ^ Z.of_nat k) * (2 * r)).
    2:{ rewrite Nat2Z.inj_succ, Z.pow_succ_r by lia. rewrite mult_IZR. lra. }
    apply IH.
    + apply Z.div_pos; [nia|exact Hpow].
    + replace (2 * r) with (r + r) by lra. rewrite exp_plus.
      assert (Hq : IZR (x * x / 2 ^ p) * IZR (2 ^ p) <= IZR x * IZR x).
      { rewrite <- !mult_IZR. apply IZR_le.
        rewrite Z.mul_comm. apply Z.mul_div_le. exact Hpow. }
      assert (Hx0 : 0 <= IZR x / IZR (2 ^ p)).
      { apply Rmult_le_pos; [apply IZR_le; exact Hx|].
        apply Rlt_le, Rinv_0_lt_compat. exact HpowR. }
      assert (Hsq : IZR x / IZR (2 ^ p) * (IZR x / IZR (2 ^ p)) <= exp r * exp r).
      { apply Rmult_le_compat; assumption. }
      apply Rle_trans with (2 := Hsq).
      unfold Rdiv.
      apply Rmult_le_reg_r with (r := IZR (2 ^ p) * IZR (2 ^ p)); [nra|].
      field_simplify; [|lra|lra]. nra.
Qed.


(** With 200 fraction bits and 80 squarings, started from [1 + h / 2 ^ 128]. *)
Lemma exp_lower (h : Z) :
  (0 <= 2 ^ 200 + h * 2 ^ 72)%Z ->
  IZR (square_down 200 80 (2 ^ 200 + h * 2 ^ 72)) / IZR (2 ^ 200)
  <= exp (IZR h / IZR (2 ^ 48)).
Proof.
  intros Hx.
  assert (H48 : 0 < IZR (2 ^ 48)) by (apply IZR_lt; reflexivity).
  assert (H72 : 0 < IZR (2 ^ 72)) by (apply IZR_lt; reflexivity).
  assert (H80 : 0 < IZR (2 ^ 80)) by (apply IZR_lt; reflexivity).
  assert (E200 : IZR (2 ^ 200) = IZR (2 ^ 80) * IZR (2 ^ 48) * IZR (2 ^ 72)).
  { rewrite <- !mult_IZR. f_equal. }
  replace (IZR h / IZR (2 ^ 48))
    with (IZR (2 ^ Z.of_nat 80) * (IZR h / (IZR (2 ^ 80) * IZR (2 ^ 48)))).
  2:{ change (2 ^ Z.of_nat 80)%Z with (2 ^ 80)%Z. field. lra. }
  apply square_down_exp; [lia|exact Hx|].
  rewrite plus_IZR, mult_IZR, E200.
  set (a := IZR (2 ^ 80)) in *. set (b := IZR (2 ^ 48)) in *.
  set (c := IZR (2 ^ 72)) in *.
  pose proof (exp_ineq1_le (IZR h / (a * b))) as He.
  replace ((a * b * c + IZR h * c) / (a * b * c)) with (1 + IZR h / (a * b))
    by (field; lra).
  exact He.
Qed.

Lemma inv_lt_div (n v d : R) : 0 < n -> 0 < d -> d < n * v -> / n < v / d.
Proof.
  intros Hn Hd Hlt.
  apply Rmult_lt_reg_r with (r := n * d); [apply Rmult_lt_0_compat; assumption|].
  replace (/ n * (n * d)) with d by (field; lra).
  replace (v / d * (n * d)) with (n * v) by (field; lra).
  exact Hlt.
Qed.

Lemma ln_upper (n h : Z) :
  (0 < n)%Z -> (0 <= 2 ^ 200 + h * 2 ^ 72)%Z ->
  (n * 2 ^ 200 < square_down 200 80 (2 ^ 200 + h * 2 ^ 72))%Z ->
  ln (IZR n) < IZR h / IZR (2 ^ 48).
Proof.
  intros Hn Hx Hlt.
  pose proof (exp_lower h Hx) as He.
  assert (H200 : 0 < IZR (2 ^ 200)) by (apply IZR_lt; reflexivity).
  apply IZR_lt in Hlt.
  set (w := square_down 200 80 (2 ^ 200 + h * 2 ^ 72)) in *. clearbody w.
  rewrite (mult_IZR n (2 ^ 200)) in Hlt.
  set (v := IZR w) in *.
  assert (Hv : IZR n < v / IZR (2 ^ 200)).
  { apply Rmult_lt_reg_r with (r := IZR (2 ^ 200)); [exact H200|].
    unfold Rdiv. rewrite Rmult_assoc, Rinv_l by lra. lra. }
  rewrite <- (ln_exp (IZR h / IZR (2 ^ 48))).
  apply ln_increasing; [apply IZR_lt; exact Hn|lra].
Qed.

Lemma ln_lower_bound (n h : Z) :
  (0 < n)%Z -> (0 <= 2 ^ 200 + - h * 2 ^ 72)%Z ->
  (2 ^ 200 < n * square_down 200 80 (2 ^ 200 + - h * 2 ^ 72))%Z ->
  IZR h / IZR (2 ^ 48) < ln (IZR n).
Proof.
  intros Hn Hx Hlt.
  pose proof (exp_lower (- h) Hx) as He.
  assert (H200 : 0 < IZR (2 ^ 200)) by (apply IZR_lt; reflexivity).
  assert (H48 : 0 < IZR (2 ^ 48)) by (apply IZR_lt; reflexivity).
  assert (HnR : 0 < IZR n) by (apply IZR_lt; exact Hn).
  apply IZR_lt in Hlt.
  set (w := square_down 200 80 (2 ^ 200 + - h * 2 ^ 72)) in *. clearbody w.
  rewrite (mult_IZR n w) in Hlt. rewrite (opp_IZR h) in He.
  set (v := IZR w) in *.
  set (d := IZR (2 ^ 200)) in *. set (c := IZR (2 ^ 48)) in *.
  clearbody v d c.
  replace (- IZR h / c) with (- (IZR h / c)) in He by (field; lra).
  set (lo := IZR h / c) in *.
  assert (Hv : / IZR n < exp (- lo)).
  { apply Rlt_le_trans with (2 := He). apply inv_lt_div; assumption. }
  rewrite exp_Ropp in Hv.
  assert (Hlo : exp lo < IZR n).
  { pose proof (exp_pos lo) as Hp.
    destruct (Rlt_le_dec (exp lo) (IZR n)) as [H|H]; [exact H|].
    pose proof (Rinv_le_contravar (IZR n) (exp lo) HnR H). lra. }
  rewrite <- (ln_exp lo). apply ln_increasing; [apply exp_pos|exact Hlo].
Qed.

Lemma log_table_nearest :
  Forall (fun entry => Binary64.nearest (ln (IZR (fst entry))) (snd entry))
    Binary64.log_table.
Proof.
  assert (Hlo : IZR 9369404920658875 / IZR (2 ^ 48) < ln (IZR 285942833483840)).
  { apply ln_lower_bound; [reflexivity|vm_compute; discriminate|vm_compute; reflexivity]. }
  assert (Hhi : ln (IZR 285942833483841) < IZR 9369404920658877 / IZR (2 ^ 48)).
  { apply ln_upper; [reflexivity|vm_compute; discriminate|vm_compute; reflexivity]. }
  assert (Hmono : ln (IZR 285942833483840) < ln (IZR 285942833483841)).
  { apply ln_increasing; apply IZR_lt; reflexivity. }
  assert (E48 : / IZR (2 ^ 48) = / 2 * / IZR (2 ^ 47)).
  { rewrite <- Rinv_mult. rewrite <- (mult_IZR 2 (2 ^ 47)). reflexivity. }
  assert (Hu : 0 < / IZR (2 ^ 47)).
  { apply Rinv_0_lt_compat, IZR_lt. reflexivity. }
  unfold Rdiv in Hlo, Hhi. rewrite E48 in Hlo, Hhi.
  assert (Hnear : forall x,
            IZR 9369404920658875 * (/ 2 * / IZR (2 ^ 47)) < x ->
            x < IZR 9369404920658877 * (/ 2 * / IZR (2 ^ 47)) ->
            Binary64.nearest x (SpecFloat.S754_finite false 4684702460329438 (-47))).
  { intros x H1 H2.
    change ((2 ^ 52 <= 4684702460329438 < 2 ^ 53)%Z /\
            Rabs (x - IZR 4684702460329438 / IZR (2 ^ 47)) < IZR 1 / IZR (2 ^ 47) / 2).
    split; [split; [apply Z.leb_le|apply Z.ltb_lt]; reflexivity|].
    unfold Rdiv. set (u := / IZR (2 ^ 47)) in *. clearbody u.
    apply Rabs_def1; lra. }
  unfold Binary64.log_table.
  constructor; [|constructor; [|constructor]]; cbn [fst snd]; apply Hnear; lra.
Qed.

(** The literal of the code is the double nearest to its decimal value. *)
Lemma euler_nearest :
  Binary64.nearest (5772156649 / 10000000000) Binary64.euler.
Proof.
  change ((2 ^ 52 <= 5199096506712106 < 2 ^ 53)%Z /\
          Rabs (5772156649 / 10000000000 - IZR 5199096506712106 / IZR (2 ^ 53))
          < IZR 1 / IZR (2 ^ 53) / 2).
  split; [split; [apply Z.leb_le|apply Z.ltb_lt]; reflexivity|].
  replace (IZR (2 ^ 53)) with 9007199254740992 by reflexivity.
  apply Rabs_def1; lra.
Qed.

(** C8 as stated fails of the doubles that the code returns: from
    [node_size = 285942833483841] to [285942833483842] the logarithm rounds
    to the same double, the quotient [2 * i / node_size] grows by one unit
    in the last place, and the adjustment falls. *)
Lemma get_adjustment_double_decreases :
  exists a b : Binary64.double,
    Binary64._get_adjustment 285942833483841 = Some a /\
    Binary64._get_adjustment 285942833483842 = Some b /\
    Binary64.ltb b a = true.
Proof.
  eexists. eexists. split; [|split]; vm_compute; reflexivity.
Qed.

End Binary64Facts.


(** ** Sets of numbers, minimum and maximum *)

Section SetFacts.

Open Scope Q_scope.

Lemma Qltb_lt (x y : Q) : Qltb x y = true <-> x < y.
Proof.
  unfold Qltb. rewrite negb_true_iff.
  split.
  - intros H. apply Qnot_le_lt. intros Hle.
    apply Qle_bool_iff in Hle. congruence.
  - intros H. destruct (Qle_bool y x) eqn:E; [|reflexivity].
    apply Qle_bool_iff in E. exfalso. apply (Qlt_not_le _ _ H E).
Qed.

Lemma Qltb_ge (x y : Q) : Qltb x y = false <-> y <= x.
Proof.
  unfold Qltb. rewrite negb_false_iff. apply Qle_bool_iff.
Qed.

Lemma mem_spec (x : Q) (s : list Q) :
  mem x s = true <-> exists y, In y s /\ x == y.
Proof.
  unfold mem. rewrite existsb_exists.
  split; intros [y [Hy E]]; exists y; split; auto; apply Qeq_bool_iff; exact E.
Qed.

Lemma set_of_sound (vs : list Q) (y : Q) : In y (set_of vs) -> In y vs.
Proof.
  induction vs as [|x vs IH]; simpl; [tauto|].
  destruct (mem x (set_of vs)); simpl; intuition.
Qed.

Lemma set_of_complete (vs : list Q) (x : Q) :
  In x vs -> exists y, In y (set_of vs) /\ x == y.
Proof.
  induction vs as [|v vs IH]; simpl; [tauto|].
  intros [->|Hin].
  - destruct (mem x (set_of vs)) eqn:E.
    + apply mem_spec in E. exact E.
    + exists x. split; [left; reflexivity|reflexivity].
  - destruct (IH Hin) as [y [Hy E]].
    exists y. split; [|exact E].
    destruct (mem v (set_of vs)); simpl; auto.
Qed.

Lemma set_of_nonempty (vs : list Q) : vs <> [] -> set_of vs <> [].
Proof.
  destruct vs as [|x vs]; [congruence|]. intros _ E.
  destruct (set_of_complete (x :: vs) x (or_introl eq_refl)) as [y [Hy _]].
  rewrite E in Hy. exact Hy.
Qed.

Lemma set_of_all_equal (vs : list Q) :
  vs <> [] -> all_equal vs -> length (set_of vs) = 1%nat.
Proof.
  induction vs as [|x vs IH]; [congruence|].
  intros _ Hall. simpl.
  destruct vs as [|v vs]; [reflexivity|].
  assert (Hrest : length (set_of (v :: vs)) = 1%nat).
  { apply IH; [congruence|].
    intros a b Ha Hb. apply Hall; right; assumption. }
  destruct (mem x (set_of (v :: vs))) eqn:E; [exact Hrest|].
  exfalso.
  destruct (set_of_complete (v :: vs) v (or_introl eq_refl)) as [y [Hy Hvy]].
  assert (Hm : mem x (set_of (v :: vs)) = true).
  { apply mem_spec. exists y. split; [exact Hy|].
    rewrite <- Hvy. apply Hall; simpl; auto. }
  congruence.
Qed.

Lemma set_of_singleton (vs : list Q) :
  length (set_of vs) = 1%nat -> all_equal vs.
Proof.
  intros Hlen x y Hx Hy.
  destruct (set_of vs) as [|z [|z' s]] eqn:E; simpl in Hlen; try discriminate.
  destruct (set_of_complete _ _ Hx) as [x' [Hx' Ex]].
  destruct (set_of_complete _ _ Hy) as [y' [Hy' Ey]].
  rewrite E in Hx', Hy'. simpl in Hx', Hy'.
  destruct Hx' as [<-|[]]. destruct Hy' as [<-|[]].
  rewrite Ex, Ey. reflexivity.
Qed.

Lemma Qminb_cases (x y : Q) :
  (Qminb x y = x /\ x <= y) \/ (Qminb x y = y /\ y <= x).
Proof.
  unfold Qminb. destruct (Qle_bool x y) eqn:E.
  - left. split; [reflexivity|]. apply Qle_bool_iff. exact E.
  - right. split; [reflexivity|].
    apply Qlt_le_weak. apply Qnot_le_lt. intros H.
    apply Qle_bool_iff in H. congruence.
Qed.

Lemma Qmaxb_cases (x y : Q) :
  (Qmaxb x y = y /\ x <= y) \/ (Qmaxb x y = x /\ y <= x).
Proof.
  unfold Qmaxb. destruct (Qle_bool x y) eqn:E.
  - left. split; [reflexivity|]. apply Qle_bool_iff. exact E.
  - right. split; [reflexivity|].
    apply Qlt_le_weak. apply Qnot_le_lt. intros H.
    apply Qle_bool_iff in H. congruence.
Qed.

Lemma fold_min_least (rest : list Q) (x : Q) :
  is_least (fold_left Qminb rest x) (x :: rest).
Proof.
  revert x. induction rest as [|y rest IH]; intros x; simpl.
  - split; [left; reflexivity|]. intros z [<-|[]]. apply Qle_refl.
  - destruct (IH (Qminb x y)) as [Hin Hle].
    destruct (Qminb_cases x y) as [[E Hxy]|[E Hyx]]; rewrite E in *.
    + split.
      * destruct Hin as [H|H]; [left; exact H|right; right; exact H].
      * intros z [<-|[<-|Hz]].
        -- apply Hle. left. reflexivity.
        -- apply Qle_trans with x; [apply Hle; left; reflexivity|exact Hxy].
        -- apply Hle. right. exact Hz.
    + split.
      * destruct Hin as [H|H]; [right; left; exact H|right; right; exact H].
      * intros z [<-|[<-|Hz]].
        -- apply Qle_trans with y; [apply Hle; left; reflexivity|exact Hyx].
        -- apply Hle. left. reflexivity.
        -- apply Hle. right. exact Hz.
Qed.

Lemma fold_max_greatest (rest : list Q) (x : Q) :
  is_greatest (fold_left Qmaxb rest x) (x :: rest).
Proof.
  revert x. induction rest as [|y rest IH]; intros x; simpl.
  - split; [left; reflexivity|]. intros z [<-|[]]. apply Qle_refl.
  - destruct (IH (Qmaxb x y)) as [Hin Hle].
    destruct (Qmaxb_cases x y) as [[E Hxy]|[E Hyx]]; rewrite E in *.
    + split.
      * destruct Hin as [H|H]; [right; left; exact H|right; right; exact H].
      * intros z [<-|[<-|Hz]].
        -- apply Qle_trans with y; [exact Hxy|apply Hle; left; reflexivity].
        -- apply Hle. left. reflexivity.
        -- apply Hle. right. exact Hz.
    + split.
      * destruct Hin as [H|H]; [left; exact H|right; right; exact H].
      * intros z [<-|[<-|Hz]].
        -- apply Hle. left. reflexivity.
        -- apply Qle_trans with x; [exact Hyx|apply Hle; left; reflexivity].
        -- apply Hle. right. exact Hz.
Qed.

Lemma py_min_spec (s : list Q) :
  s <> [] -> exists m, py_min s = Return m /\ is_least m s.
Proof.
  destruct s as [|x rest]; [congruence|]. intros _.
  exists (fold_left Qminb rest x). split; [reflexivity|apply fold_min_least].
Qed.

Lemma py_max_spec (s : list Q) :
  s <> [] -> exists m, py_max s = Return m /\ is_greatest m s.
Proof.
  destruct s as [|x rest]; [congruence|]. intros _.
  exists (fold_left Qmaxb rest x). split; [reflexivity|apply fold_max_greatest].
Qed.

Lemma set_remove_In (x y : Q) (s : list Q) :
  In y (set_remove x s) <-> In y s /\ ~ x == y.
Proof.
  unfold set_remove. rewrite filter_In, negb_true_iff.
  split; intros [H1 H2]; split; auto.
  - apply Qeq_bool_neq. exact H2.
  - destruct (Qeq_bool x y) eqn:E; [|reflexivity].
    apply Qeq_bool_iff in E. contradiction.
Qed.

End SetFacts.

(** ** Split-point selection *)

Section GetSplit.

Variable rnd : Random.
Variable X : Dataset.

Open Scope Q_scope.

Lemma least_of_set (vs : list Q) (m : Q) :
  is_least m (set_of vs) -> is_least m vs.
Proof.
  intros [Hin Hle]. split; [apply set_of_sound; exact Hin|].
  intros y Hy. destruct (set_of_complete _ _ Hy) as [y' [Hy' E]].
  rewrite E. apply Hle. exact Hy'.
Qed.

Lemma least_of_remaining (vs : list Q) (lo m : Q) :
  is_least m (set_remove lo (set_of vs)) -> is_least m (set_remove lo vs).
Proof.
  intros [Hin Hle]. apply set_remove_In in Hin. destruct Hin as [Hin Hne].
  split; [apply set_remove_In; split; [apply set_of_sound; exact Hin|exact Hne]|].
  intros y Hy. apply set_remove_In in Hy. destruct Hy as [Hy Hney].
  destruct (set_of_complete _ _ Hy) as [y' [Hy' E]].
  rewrite E. apply Hle. apply set_remove_In. split; [exact Hy'|].
  rewrite <- E. exact Hney.
Qed.

Lemma greatest_of_remaining (vs : list Q) (lo m : Q) :
  is_greatest m (set_remove lo (set_of vs)) -> is_greatest m (set_remove lo vs).
Proof.
  intros [Hin Hle]. apply set_remove_In in Hin. destruct Hin as [Hin Hne].
  split; [apply set_remove_In; split; [apply set_of_sound; exact Hin|exact Hne]|].
  intros y Hy. apply set_remove_In in Hy. destruct Hy as [Hy Hney].
  destruct (set_of_complete _ _ Hy) as [y' [Hy' E]].
  rewrite E. apply Hle. apply set_remove_In. split; [exact Hy'|].
  rewrite <- E. exact Hney.
Qed.

Lemma remaining_nonempty (vs : list Q) (lo : Q) :
  is_least lo (set_of vs) -> ~ all_equal vs -> set_remove lo (set_of vs) <> [].
Proof.
  intros Hlo Hne E. apply Hne. intros x y Hx Hy.
  assert (Hall : forall z, In z vs -> lo == z).
  { intros z Hz. destruct (set_of_complete _ _ Hz) as [z' [Hz' Ez]].
    destruct (Qeq_dec lo z') as [Heq|Hneq].
    - rewrite Ez. exact Heq.
    - exfalso. assert (Hin : In z' (set_remove lo (set_of vs))).
      { apply set_remove_In. split; assumption. }
      rewrite E in Hin. exact Hin. }
  rewrite <- (Hall x Hx), <- (Hall y Hy). reflexivity.
Qed.

Lemma column_length (idx : list nat) (feature : nat) (vs : list Q) :
  IsolationTree.column X idx feature = Return vs -> length vs = length idx.
Proof.
  revert vs. induction idx as [|i idx IH]; simpl; intros vs H.
  - inversion H. reflexivity.
  - destruct (getitem X i) as [row| |]; simpl in H; try discriminate.
    destruct (getitem row feature) as [x| |]; simpl in H; try discriminate.
    destruct (IsolationTree.column X idx feature) as [xs| |]; simpl in H;
      try discriminate.
    inversion H. simpl. f_equal. apply IH. reflexivity.
Qed.

(** One distinct value: no split, and no call to [random]. *)
Lemma get_split_none (calls : nat) (idx : list nat) (feature : nat) (vs : list Q) :
  IsolationTree.column X idx feature = Return vs ->
  vs <> [] -> all_equal vs ->
  IsolationTree._get_split rnd X calls idx feature = Return (None, calls).
Proof.
  intros Hcol Hne Hall. unfold IsolationTree._get_split.
  rewrite Hcol. simpl. rewrite (set_of_all_equal _ Hne Hall). reflexivity.
Qed.

(** Several distinct values: the split point is computed from one draw. *)
Lemma get_split_some (calls : nat) (idx : list nat) (feature : nat) (vs : list Q) :
  IsolationTree.column X idx feature = Return vs ->
  ~ all_equal vs ->
  exists lo lower upper,
    is_least lo vs /\
    is_least lower (set_remove lo vs) /\
    is_greatest upper (set_remove lo vs) /\
    IsolationTree._get_split rnd X calls idx feature
    = Return (Some (random_draw rnd calls * (upper - lower) + lower), S calls).
Proof.
  intros Hcol Hne. unfold IsolationTree._get_split.
  rewrite Hcol. simpl.
  destruct (Nat.eqb_spec (length (set_of vs)) 1) as [Hone|Hmany].
  { exfalso. apply Hne. apply set_of_singleton. exact Hone. }
  assert (Hvs : vs <> []).
  { intros ->. apply Hne. intros x y []. }
  destruct (py_min_spec _ (set_of_nonempty _ Hvs)) as [lo [Elo Hlo]].
  rewrite Elo. simpl.
  pose proof (remaining_nonempty _ _ Hlo Hne) as Hrem.
  destruct (py_min_spec _ Hrem) as [lower [Elower Hlower]].
  destruct (py_max_spec _ Hrem) as [upper [Eupper Hupper]].
  rewrite Elower, Eupper. simpl.
  exists lo, lower, upper. split; [|split; [|split]].
  - apply least_of_set. exact Hlo.
  - apply least_of_remaining. exact Hlower.
  - apply greatest_of_remaining. exact Hupper.
  - reflexivity.
Qed.

(** An empty index list: [min] of an empty set. *)
Lemma get_split_empty (calls : nat) (feature : nat) :
  IsolationTree._get_split rnd X calls [] feature = Raise ValueError.
Proof. reflexivity. Qed.

Lemma all_equal_dec (vs : list Q) : {all_equal vs} + {~ all_equal vs}.
Proof.
  destruct vs as [|v vs]; [left; intros x y []|].
  destruct (forallb (Qeq_bool v) vs) eqn:E.
  - left. rewrite forallb_forall in E.
    assert (H : forall z, In z (v :: vs) -> v == z).
    { intros z [<-|Hz]; [reflexivity|]. apply Qeq_bool_iff. apply E. exact Hz. }
    intros x y Hx Hy. rewrite <- (H x Hx), <- (H y Hy). reflexivity.
  - right. intros Hall.
    assert (Hf : forallb (Qeq_bool v) vs = true).
    { apply forallb_forall. intros z Hz. apply Qeq_bool_iff.
      apply Hall; simpl; auto. }
    congruence.
Qed.

(** The arithmetic of [r * (upper - lower) + lower]. *)
Lemma scaled_draw_bounds (r lower upper : Q) :
  0 <= r -> r < 1 -> lower <= upper ->
  lower <= r * (upper - lower) + lower /\
  r * (upper - lower) + lower <= upper /\
  (lower < upper -> r * (upper - lower) + lower < upper).
Proof.
  intros Hr0 Hr1 Hlu.
  assert (H1 : 0 <= r * (upper - lower)) by (apply Qmult_le_0_compat; lra).
  assert (H2 : 0 <= (1 - r) * (upper - lower)) by (apply Qmult_le_0_compat; lra).
  split; [lra|]. split; [lra|].
  intros Hlt.
  assert (H3 : 0 < (1 - r) * (upper - lower)) by (apply Qmult_lt_0_compat; lra).
  lra.
Qed.

(** The least of the remaining values is above the least value. *)
Lemma lower_above_least (vs : list Q) (lo lower : Q) :
  is_least lo vs -> is_least lower (set_remove lo vs) -> lo < lower.
Proof.
  intros [_ Hlo] [Hin _]. apply set_remove_In in Hin. destruct Hin as [Hin Hne].
  destruct (Qle_lt_or_eq _ _ (Hlo _ Hin)) as [Hlt|Heq]; [exact Hlt|contradiction].
Qed.

Lemma remaining_ordered (vs : list Q) (lo lower upper : Q) :
  is_least lower (set_remove lo vs) -> is_greatest upper (set_remove lo vs) ->
  lower <= upper.
Proof. intros [_ Hle] [Hin _]. apply Hle. exact Hin. Qed.

(** C3, amended: on a non-empty index list whose rows hold the column,
    [_get_split] signals "no split" exactly when the column has one distinct
    value; otherwise it returns [r * (upper - lower) + lower] for the draw [r]
    in [[0, 1)], with [lower] and [upper] the least and greatest of the values
    other than the minimum: a point of the closed interval [[lower, upper]],
    below [upper] when [lower < upper], and above the minimum of the column. *)
Theorem get_split_spec (calls : nat) (idx : list nat) (feature : nat) (vs : list Q) :
  0 <= random_draw rnd calls -> random_draw rnd calls < 1 ->
  IsolationTree.column X idx feature = Return vs -> vs <> [] ->
  (IsolationTree._get_split rnd X calls idx feature = Return (None, calls)
   <-> all_equal vs) /\
  (~ all_equal vs ->
   exists lo lower upper,
     is_least lo vs /\
     is_least lower (set_remove lo vs) /\
     is_greatest upper (set_remove lo vs) /\
     let point := random_draw rnd calls * (upper - lower) + lower in
     IsolationTree._get_split rnd X calls idx feature = Return (Some point, S calls) /\
     lower <= point /\ point <= upper /\ (lower < upper -> point < upper) /\
     (lower == upper -> point == upper) /\
     lo < point).
Proof.
  intros Hr0 Hr1 Hcol Hne. split.
  - split.
    + intros Hnone. destruct (all_equal_dec vs) as [Hall|Hnall]; [exact Hall|].
      destruct (get_split_some calls _ _ _ Hcol Hnall) as (lo & lower & upper & _ & _ & _ & E).
      rewrite E in Hnone. discriminate.
    + intros Hall. apply (get_split_none calls _ _ _ Hcol Hne Hall).
  - intros Hnall.
    destruct (get_split_some calls _ _ _ Hcol Hnall) as (lo & lower & upper & Hlo & Hlower & Hupper & E).
    exists lo, lower, upper.
    pose proof (remaining_ordered _ _ _ _ Hlower Hupper) as Hlu.
    pose proof (lower_above_least _ _ _ Hlo Hlower) as Hlt.
    destruct (scaled_draw_bounds _ _ _ Hr0 Hr1 Hlu) as (B1 & B2 & B3).
    repeat (split; [assumption|]). cbv zeta.
    repeat (split; [assumption|]).
    split; [intros Hlu'; rewrite Hlu'; ring|].
    apply Qlt_le_trans with lower; assumption.
Qed.

End GetSplit.

Lemma get_split_spec_witness :
  (IsolationTree._get_split demo_random [[1];[2];[4]]%Q 1 [0;1;2]%nat 0
   = Return (None, 1%nat) <-> all_equal [1;2;4]%Q) /\
  (~ all_equal [1;2;4]%Q ->
   exists lo lower upper : Q,
     is_least lo [1;2;4]%Q /\
     is_least lower (set_remove lo [1;2;4]%Q) /\
     is_greatest upper (set_remove lo [1;2;4]%Q) /\
     let point := (random_draw demo_random 1 * (upper - lower) + lower)%Q in
     IsolationTree._get_split demo_random [[1];[2];[4]]%Q 1 [0;1;2]%nat 0
     = Return (Some point, 2%nat) /\
     (lower <= point)%Q /\ (point <= upper)%Q /\
     ((lower < upper)%Q -> (point < upper)%Q) /\
     ((lower == upper)%Q -> (point == upper)%Q) /\ (lo < point)%Q).
Proof.
  apply (get_split_spec demo_random [[1];[2];[4]]%Q 1 [0;1;2]%nat 0%nat [1;2;4]%Q).
  - vm_compute. discriminate.
  - vm_compute. reflexivity.
  - reflexivity.
  - discriminate.
Defined.

(** C3 as stated fails in two places.  With two distinct values one value
    remains, [lower = upper], and the point returned is [upper] itself: no
    point of the half-open interval.  With an empty index list the code
    raises [ValueError] where the claim has it return a split point. *)
Lemma get_split_half_open_fails :
  (exists point : Q,
     IsolationTree._get_split demo_random [[1];[2]]%Q 0 [0;1]%nat 0
     = Return (Some point, 1%nat) /\
     py_min (set_remove 1 (set_of [1;2])) = Return 2%Q /\
     py_max (set_remove 1 (set_of [1;2])) = Return 2%Q /\
     ~ (point < 2)%Q) /\
  IsolationTree._get_split demo_random [[1];[2]]%Q 0 [] 0 = Raise ValueError.
Proof.
  split; [|reflexivity].
  eexists. split; [vm_compute; reflexivity|].
  split; [reflexivity|]. split; [reflexivity|].
  vm_compute. discriminate.
Qed.

(** ** The store *)

Section StoreFacts.

Lemma setattr_length (a : nat) (f : Node -> Node) (st : Store) :
  length (setattr a f st) = length st.
Proof.
  revert a. induction st as [|nd st IH]; intros [|a]; simpl; auto.
Qed.

Lemma setattr_same (a : nat) (f : Node -> Node) (st : Store) :
  nth_error (setattr a f st) a = option_map f (nth_error st a).
Proof.
  revert a. induction st as [|nd st IH]; intros [|a]; simpl; auto.
Qed.

Lemma setattr_other (a b : nat) (f : Node -> Node) (st : Store) :
  a <> b -> nth_error (setattr a f st) b = nth_error st b.
Proof.
  revert a b. induction st as [|nd st IH]; intros [|a] [|b] Hne; simpl;
    try reflexivity; try congruence.
  apply IH. congruence.
Qed.

Lemma leaf_store_length (nd feature : nat) (st : Store) :
  length (leaf_store nd feature st) = length st.
Proof. unfold leaf_store. rewrite !setattr_length. reflexivity. Qed.

Lemma leaf_store_same (nd feature : nat) (st : Store) (node : Node) :
  nth_error st nd = Some node ->
  nth_error (leaf_store nd feature st) nd
  = Some (mkNode (size node) (Some feature) None (left node) (right node)).
Proof.
  intros H. unfold leaf_store. rewrite !setattr_same, H. reflexivity.
Qed.

Lemma leaf_store_other (nd feature b : nat) (st : Store) :
  nd <> b -> nth_error (leaf_store nd feature st) b = nth_error st b.
Proof.
  intros H. unfold leaf_store. rewrite !setattr_other by assumption. reflexivity.
Qed.

Lemma split_store_length (nd feature : nat) (point : Q) (nl nr : nat) (st : Store) :
  length (split_store nd feature point nl nr st) = S (S (length st)).
Proof.
  unfold split_store, alloc.
  rewrite !setattr_length, length_app, setattr_length, length_app, !setattr_length.
  simpl. lia.
Qed.

Lemma split_store_same (nd feature : nat) (point : Q) (nl nr : nat) (st : Store)
  (node : Node) :
  nth_error st nd = Some node ->
  nth_error (split_store nd feature point nl nr st) nd
  = Some (mkNode (size node) (Some feature) (Some point)
            (Some (length st)) (Some (S (length st)))).
Proof.
  intros H. unfold split_store, alloc.
  assert (Hlt : (nd < length st)%nat) by (apply nth_error_Some; congruence).
  rewrite setattr_same, nth_error_app1
    by (rewrite setattr_length, length_app, !setattr_length; simpl; lia).
  rewrite setattr_same, nth_error_app1 by (rewrite !setattr_length; lia).
  rewrite !setattr_same, H. simpl.
  rewrite !setattr_length, length_app, !setattr_length. simpl.
  unfold set_right, set_left. simpl. repeat f_equal. lia.
Qed.

Lemma split_store_left (nd feature : nat) (point : Q) (nl nr : nat) (st : Store) :
  (nd < length st)%nat ->
  nth_error (split_store nd feature point nl nr st) (length st)
  = Some (new_Node (Z.of_nat nl)).
Proof.
  intros Hlt. unfold split_store, alloc.
  rewrite setattr_other by lia.
  rewrite nth_error_app1
    by (rewrite setattr_length, length_app, !setattr_length; simpl; lia).
  rewrite setattr_other by lia.
  rewrite nth_error_app2 by (rewrite !setattr_length; lia).
  rewrite !setattr_length, Nat.sub_diag. reflexivity.
Qed.

Lemma split_store_right (nd feature : nat) (point : Q) (nl nr : nat) (st : Store) :
  (nd < length st)%nat ->
  nth_error (split_store nd feature point nl nr st) (S (length st))
  = Some (new_Node (Z.of_nat nr)).
Proof.
  intros Hlt. unfold split_store, alloc.
  rewrite setattr_other by lia.
  rewrite nth_error_app2
    by (rewrite setattr_length, length_app, !setattr_length; simpl; lia).
  rewrite setattr_length, length_app, !setattr_length.
  change (length [new_Node (Z.of_nat nl)]) with 1%nat.
  replace (S (length st) - (length st + 1))%nat with 0%nat by lia. reflexivity.
Qed.

Lemma split_store_other (nd feature : nat) (point : Q) (nl nr : nat) (st : Store)
  (b : nat) :
  nd <> b -> (b < length st)%nat ->
  nth_error (split_store nd feature point nl nr st) b = nth_error st b.
Proof.
  intros Hne Hlt. unfold split_store, alloc.
  rewrite setattr_other by assumption.
  rewrite nth_error_app1
    by (rewrite setattr_length, length_app, !setattr_length; simpl; lia).
  rewrite setattr_other by assumption.
  rewrite nth_error_app1 by (rewrite !setattr_length; lia).
  rewrite !setattr_other by assumption. reflexivity.
Qed.

End StoreFacts.

(** ** The construction loop: iterations and termination *)

Section LoopFacts.

Variable rnd : Random.
Variable X : Dataset.
Variable m : nat.

Lemma loop_body_iteration (s s' : IsolationTree.build_state) :
  IsolationTree.loop_body rnd X m s = Return s' -> iteration rnd X m s s'.
Proof.
  unfold IsolationTree.loop_body. intros H.
  destruct (IsolationTree.st_que s) as [|[[depth nd] idx] que] eqn:Eq; [discriminate|].
  destruct (choice rnd (IsolationTree.st_calls s) m) as [feature| |] eqn:Ec;
    simpl in H; try discriminate.
  destruct (IsolationTree._get_split rnd X (S (IsolationTree.st_calls s)) idx feature)
    as [[[point|] calls]| |] eqn:Es; simpl in H; try discriminate.
  - destruct (IsolationTree.split_rows X feature point (rev idx) [] [])
      as [[idx_left idx_right]| |] eqn:Er; simpl in H; try discriminate.
    inversion H as [Hs']. clear H.
    eapply iteration_split; eauto.
    unfold split_store, alloc.
    rewrite !setattr_length, length_app, !setattr_length.
    change (length [new_Node (Z.of_nat (length idx_left))]) with 1%nat.
    rewrite Nat.add_1_r. reflexivity.
  - inversion H as [Hs']. clear H. eapply iteration_leaf; eauto.
Qed.

Lemma column_no_diverge (idx : list nat) (feature : nat) :
  IsolationTree.column X idx feature <> Diverge.
Proof.
  induction idx as [|i idx IH]; simpl; [discriminate|].
  unfold getitem.
  destruct (nth_error X i) as [row|]; simpl; [|discriminate].
  destruct (nth_error row feature) as [x|]; simpl; [|discriminate].
  destruct (IsolationTree.column X idx feature); simpl; congruence.
Qed.

Lemma get_split_no_diverge (calls : nat) (idx : list nat) (feature : nat) :
  IsolationTree._get_split rnd X calls idx feature <> Diverge.
Proof.
  unfold IsolationTree._get_split.
  pose proof (column_no_diverge idx feature) as Hc.
  destruct (IsolationTree.column X idx feature) as [vs| |]; cbn [bind];
    [|discriminate|congruence].
  destruct (length (set_of vs) =? 1)%nat; [discriminate|].
  destruct (py_min (set_of vs)) as [lo| |] eqn:E1; cbn [bind];
    [|discriminate|destruct (set_of vs); discriminate].
  generalize (set_remove lo (set_of vs)). intros u.
  destruct u as [|y u]; cbn [py_min py_max bind]; discriminate.
Qed.

Lemma split_rows_no_diverge (feature : nat) (point : Q) (pending l r : list nat) :
  IsolationTree.split_rows X feature point pending l r <> Diverge.
Proof.
  revert l r. induction pending as [|i pending IH]; intros l r; simpl; [discriminate|].
  unfold getitem.
  destruct (nth_error X i) as [row|]; simpl; [|discriminate].
  destruct (nth_error row feature) as [x|]; simpl; [|discriminate].
  destruct (Qltb x point); apply IH.
Qed.

Lemma loop_body_no_diverge (s : IsolationTree.build_state) :
  IsolationTree.loop_body rnd X m s <> Diverge.
Proof.
  unfold IsolationTree.loop_body.
  destruct (IsolationTree.st_que s) as [|[[depth nd] idx] que]; [discriminate|].
  unfold choice. destruct (m =? 0)%nat; simpl; [discriminate|].
  pose proof (get_split_no_diverge (S (IsolationTree.st_calls s)) idx
                (choice_draw rnd (IsolationTree.st_calls s) m)) as Hs.
  destruct (IsolationTree._get_split rnd X (S (IsolationTree.st_calls s)) idx
              (choice_draw rnd (IsolationTree.st_calls s) m))
    as [[[point|] calls]| |]; simpl; try discriminate; try congruence.
  pose proof (split_rows_no_diverge (choice_draw rnd (IsolationTree.st_calls s) m)
                point (rev idx) [] []) as Hr.
  destruct (IsolationTree.split_rows X (choice_draw rnd (IsolationTree.st_calls s) m)
              point (rev idx) [] []) as [[idx_left idx_right]| |]; simpl;
    try discriminate; congruence.
Qed.

Lemma loop_test_head (max_depth : Z) (s : IsolationTree.build_state) :
  IsolationTree.loop_test max_depth s = true ->
  exists depth nd idx que,
    IsolationTree.st_que s = (depth, nd, idx) :: que /\
    (Z.of_nat depth <= max_depth)%Z.
Proof.
  unfold IsolationTree.loop_test.
  destruct (IsolationTree.st_que s) as [|[[depth nd] idx] que]; [discriminate|].
  intros H. exists depth, nd, idx, que. split; [reflexivity|].
  apply Z.leb_le. exact H.
Qed.

Lemma remaining_work_app (max_depth : Z) (q1 q2 : list (nat * nat * list nat)) :
  remaining_work max_depth (q1 ++ q2)
  = (remaining_work max_depth q1 + remaining_work max_depth q2)%nat.
Proof. unfold remaining_work. rewrite map_app, list_sum_app. reflexivity. Qed.

Lemma weight_children (max_depth : Z) (depth a b c : nat) (i j k : list nat) :
  (Z.of_nat depth <= max_depth)%Z ->
  (weight max_depth (S depth, a, i) + weight max_depth (S depth, b, j)
   < weight max_depth (depth, c, k))%nat.
Proof.
  intros H. unfold weight. simpl fst.
  assert (Hd : (depth <= Z.to_nat max_depth)%nat) by lia.
  replace (S (Z.to_nat max_depth) - depth)%nat
    with (S (Z.to_nat max_depth - depth))%nat by lia.
  replace (S (Z.to_nat max_depth) - S depth)%nat
    with (Z.to_nat max_depth - depth)%nat by lia.
  rewrite Nat.pow_succ_r'.
  assert (Hp : (1 <= 2 ^ (Z.to_nat max_depth - depth))%nat).
  { apply Nat.neq_0_lt_0. apply Nat.pow_nonzero. lia. }
  lia.
Qed.

Lemma iteration_decreases (max_depth : Z) (s s' : IsolationTree.build_state) :
  IsolationTree.loop_test max_depth s = true ->
  iteration rnd X m s s' ->
  (remaining_work max_depth (IsolationTree.st_que s')
   < remaining_work max_depth (IsolationTree.st_que s))%nat.
Proof.
  intros Ht Hit.
  destruct (loop_test_head _ _ Ht) as (d & a & i & q & Eq & Hd).
  destruct Hit as [depth nd idx que feature calls Hq _ _ ->
                  |depth nd idx que feature calls point il ir Hq _ _ _ ->];
    rewrite Hq in Eq; inversion Eq; subst; rewrite Hq; simpl IsolationTree.st_que.
  - pose proof (weight_children max_depth d 0 0 a i i i Hd) as Hw.
    unfold remaining_work. simpl. unfold weight in *. simpl in *. lia.
  - rewrite remaining_work_app.
    pose proof (weight_children max_depth d
                  (length (IsolationTree.st_nodes s))
                  (S (length (IsolationTree.st_nodes s))) a i i i Hd) as Hw.
    unfold remaining_work. simpl. unfold weight in *. simpl in *. lia.
Qed.

(** The budget is never exhausted. *)
Lemma loop_no_diverge (max_depth : Z) (budget : nat) (s : IsolationTree.build_state) :
  (remaining_work max_depth (IsolationTree.st_que s) <= budget)%nat ->
  IsolationTree.loop rnd X budget m max_depth s <> Diverge.
Proof.
  revert s. induction budget as [|budget IH]; intros s Hw; simpl.
  - destruct (IsolationTree.loop_test max_depth s) eqn:Ht; [|discriminate].
    exfalso.
    destruct (loop_test_head _ _ Ht) as (d & a & i & q & Eq & Hd).
    pose proof (weight_children max_depth d 0 0 a i i i Hd) as Hlt.
    rewrite Eq in Hw. unfold remaining_work in Hw. simpl in Hw. lia.
  - destruct (IsolationTree.loop_test max_depth s) eqn:Ht; [|discriminate].
    pose proof (loop_body_no_diverge s) as Hb.
    destruct (IsolationTree.loop_body rnd X m s) as [s'| |] eqn:Eb; simpl;
      [|discriminate|congruence].
    apply IH.
    pose proof (iteration_decreases _ _ _ Ht (loop_body_iteration _ _ Eb)). lia.
Qed.

(** The budget of [_build_tree] covers the queue it starts with. *)
Lemma loop_budget_enough (max_depth : Z) (st : Store) (root_addr : nat)
  (idx : list nat) (calls : nat) :
  IsolationTree.loop rnd X (IsolationTree.loop_budget max_depth) m max_depth
    (IsolationTree.mkState st [(0%nat, root_addr, idx)] None calls) <> Diverge.
Proof.
  apply loop_no_diverge.
  unfold remaining_work, weight, IsolationTree.loop_budget. simpl. lia.
Qed.

End LoopFacts.

(** ** Rows on either side of a split point *)

Section Rows.

Variable rnd : Random.
Variable X : Dataset.

Lemma column_cons (i : nat) (idx : list nat) (feature : nat) (vs : list Q) :
  IsolationTree.column X (i :: idx) feature = Return vs ->
  exists x xs, cell X i feature = Return x /\
               IsolationTree.column X idx feature = Return xs /\ vs = x :: xs.
Proof.
  simpl. unfold cell.
  destruct (getitem X i) as [row| |]; simpl; try discriminate.
  destruct (getitem row feature) as [x| |]; simpl; try discriminate.
  destruct (IsolationTree.column X idx feature) as [xs| |]; simpl; try discriminate.
  intros H. inversion H. exists x, xs. auto.
Qed.

Lemma column_value (idx : list nat) (feature : nat) (vs : list Q) (v : Q) :
  IsolationTree.column X idx feature = Return vs -> In v vs ->
  exists i, In i idx /\ cell X i feature = Return v.
Proof.
  revert vs. induction idx as [|i idx IH]; intros vs H Hv.
  - inversion H. subst. destruct Hv.
  - destruct (column_cons _ _ _ _ H) as (x & xs & Hx & Hxs & ->).
    destruct Hv as [<-|Hv].
    + exists i. split; [left; reflexivity|exact Hx].
    + destruct (IH xs Hxs Hv) as (j & Hj & Hc). exists j. split; [right; exact Hj|exact Hc].
Qed.

Lemma column_total (idx : list nat) (feature : nat) :
  (forall i, In i idx -> exists x, cell X i feature = Return x) ->
  exists vs, IsolationTree.column X idx feature = Return vs.
Proof.
  induction idx as [|i idx IH]; intros H; [exists []; reflexivity|].
  destruct (H i (or_introl eq_refl)) as (x & Hx).
  destruct IH as (xs & Hxs); [intros j Hj; apply H; right; exact Hj|].
  exists (x :: xs). simpl. unfold cell in Hx.
  destruct (getitem X i) as [row| |]; simpl in *; try discriminate.
  rewrite Hx. simpl. rewrite Hxs. reflexivity.
Qed.

Lemma split_rows_spec (feature : nat) (point : Q) (pending : list nat) :
  forall l r l' r',
    IsolationTree.split_rows X feature point pending l r = Return (l', r') ->
    (forall i, In i l' <->
       In i l \/ (In i pending /\ exists x, cell X i feature = Return x /\ (x < point)%Q)) /\
    (forall i, In i r' <->
       In i r \/ (In i pending /\ exists x, cell X i feature = Return x /\ (point <= x)%Q)).
Proof.
  induction pending as [|j pending IH]; intros l r l' r' H; simpl in H.
  - inversion H. subst. split; intros i; split; auto; intros [Hi|[[] _]]; exact Hi.
  - destruct (getitem X j) as [row| |] eqn:Er; simpl in H; try discriminate.
    destruct (getitem row feature) as [x| |] eqn:Ex; simpl in H; try discriminate.
    assert (Hc : cell X j feature = Return x) by (unfold cell; rewrite Er; exact Ex).
    destruct (Qltb x point) eqn:Ec; destruct (IH _ _ _ _ H) as (HL & HR); clear IH;
      split; intros i; [rewrite HL|rewrite HR|rewrite HL|rewrite HR];
      rewrite ?in_app_iff; simpl; split.
    + intros [[Hi|[<-|[]]]|(Hi & Hx)]; auto.
      right. split; [left; reflexivity|]. exists x. split; [exact Hc|].
      apply Qltb_lt. exact Ec.
    + intros [Hi|([<-|Hi] & Hx)]; auto.
    + intros [Hi|(Hi & Hx)]; auto.
    + intros [Hi|([<-|Hi] & (y & Hy & Hle))]; auto.
      * rewrite Hc in Hy. inversion Hy. subst y.
        apply Qltb_lt in Ec. exfalso. apply (Qlt_not_le _ _ Ec Hle).
      * right. split; [exact Hi|]. exists y. auto.
    + intros [Hi|(Hi & Hx)]; auto.
    + intros [Hi|([<-|Hi] & (y & Hy & Hlt))]; auto.
      * rewrite Hc in Hy. inversion Hy. subst y.
        apply Qltb_ge in Ec. exfalso. apply (Qlt_not_le _ _ Hlt Ec).
      * right. split; [exact Hi|]. exists y. auto.
    + intros [[Hi|[<-|[]]]|(Hi & Hx)]; auto.
      right. split; [left; reflexivity|]. exists x. split; [exact Hc|].
      apply Qltb_ge. exact Ec.
    + intros [Hi|([<-|Hi] & Hx)]; auto.
Qed.

Lemma split_rows_total (feature : nat) (point : Q) (pending : list nat) :
  (forall i, In i pending -> exists x, cell X i feature = Return x) ->
  forall l r, exists l' r',
    IsolationTree.split_rows X feature point pending l r = Return (l', r').
Proof.
  induction pending as [|j pending IH]; intros H l r; simpl.
  - exists l, r. reflexivity.
  - destruct (H j (or_introl eq_refl)) as (x & Hx). unfold cell in Hx.
    destruct (getitem X j) as [row| |]; simpl in *; try discriminate.
    rewrite Hx. simpl.
    destruct (Qltb x point); apply IH; intros i Hi; apply H; right; exact Hi.
Qed.

(** A split point that was found sends the rows of least value to the left
    and the rows of greatest value to the right. *)
Lemma split_sides (calls0 calls : nat) (idx : list nat) (feature : nat) (point : Q)
  (vs : list Q) (idx_left idx_right : list nat) :
  (0 <= random_draw rnd calls0)%Q -> (random_draw rnd calls0 < 1)%Q ->
  IsolationTree._get_split rnd X calls0 idx feature = Return (Some point, calls) ->
  IsolationTree.column X idx feature = Return vs ->
  IsolationTree.split_rows X feature point (rev idx) [] [] = Return (idx_left, idx_right) ->
  (forall i x, In i idx -> cell X i feature = Return x -> is_least x vs ->
     (x < point)%Q /\ In i idx_left) /\
  (forall i x, In i idx -> cell X i feature = Return x -> is_greatest x vs ->
     (point <= x)%Q /\ In i idx_right) /\
  (1 <= length idx_left)%nat /\ (1 <= length idx_right)%nat /\
  (forall i, In i idx_left \/ In i idx_right -> In i idx).
Proof.
  intros Hr0 Hr1 Hsplit Hcol Hrows.
  assert (Hnall : ~ all_equal vs).
  { intros Hall. destruct vs as [|v vs'].
    - destruct idx; [|apply column_length in Hcol; discriminate].
      rewrite get_split_empty in Hsplit. discriminate.
    - rewrite (get_split_none rnd X calls0 _ _ _ Hcol ltac:(discriminate) Hall) in Hsplit.
      discriminate. }
  assert (Hvs : vs <> []) by (intros ->; apply Hnall; intros x y []).
  destruct (get_split_some rnd X calls0 _ _ _ Hcol Hnall)
    as (lo & lower & upper & Hlo & Hlower & Hupper & E).
  pose proof (remaining_ordered _ _ _ _ Hlower Hupper) as Hlu.
  pose proof (lower_above_least _ _ _ Hlo Hlower) as Hlt.
  destruct (scaled_draw_bounds _ _ _ Hr0 Hr1 Hlu) as (B1 & B2 & _).
  rewrite E in Hsplit. injection Hsplit as Hp Hc. subst point. clear E.
  set (point := (random_draw rnd calls0 * (upper - lower) + lower)%Q) in *.
  assert (B4 : (lo < point)%Q) by (apply Qlt_le_trans with lower; assumption).
  destruct (split_rows_spec _ _ _ _ _ _ _ Hrows) as (HL & HR).
  assert (Hleft : forall i x, In i idx -> cell X i feature = Return x ->
                    is_least x vs -> (x < point)%Q /\ In i idx_left).
  { intros i x Hi Hx [Hin Hle].
    assert (Hxp : (x < point)%Q).
    { apply Qle_lt_trans with lo; [apply Hle; apply Hlo|exact B4]. }
    split; [exact Hxp|]. apply HL. right. split; [apply in_rev in Hi; exact Hi|].
    exists x. auto. }
  assert (Hright : forall i x, In i idx -> cell X i feature = Return x ->
                     is_greatest x vs -> (point <= x)%Q /\ In i idx_right).
  { intros i x Hi Hx [Hin Hge].
    assert (Hpx : (point <= x)%Q).
    { apply Qle_trans with upper; [exact B2|]. apply Hge.
      destruct Hupper as [Hu _]. apply set_remove_In in Hu. apply Hu. }
    split; [exact Hpx|]. apply HR. right. split; [apply in_rev in Hi; exact Hi|].
    exists x. auto. }
  split; [exact Hleft|]. split; [exact Hright|].
  destruct Hlo as [Hlo_in Hlo_le].
  destruct (column_value _ _ _ _ Hcol Hlo_in) as (i & Hi & Hci).
  destruct (Hleft i lo Hi Hci (conj Hlo_in Hlo_le)) as (_ & HiL).
  destruct (py_max_spec vs Hvs) as (hi & _ & Hhi_in & Hhi_ge).
  destruct (column_value _ _ _ _ Hcol Hhi_in) as (j & Hj & Hcj).
  destruct (Hright j hi Hj Hcj (conj Hhi_in Hhi_ge)) as (_ & HjR).
  split; [destruct idx_left; [destruct HiL|simpl; lia]|].
  split; [destruct idx_right; [destruct HjR|simpl; lia]|].
  intros k [Hk|Hk].
  - apply HL in Hk. destruct Hk as [[]|(Hk & _)]. apply in_rev. exact Hk.
  - apply HR in Hk. destruct Hk as [[]|(Hk & _)]. apply in_rev. exact Hk.
Qed.

End Rows.

(** ** The shape of the store is an invariant of the loop *)

Section ShapeFacts.

Variable rnd : Random.
Variable X : Dataset.
Variable m : nat.
Variable max_depth : Z.

Lemma nth_error_cases (st : Store) (nd a : nat) (node : Node) (st' : Store) :
  length st' = S (S (length st)) ->
  nth_error st' a = Some node ->
  a = nd \/ a = length st \/ a = S (length st) \/ (a <> nd /\ (a < length st)%nat).
Proof.
  intros Hlen H.
  assert (Ha : (a < length st')%nat) by (apply nth_error_Some; congruence).
  lia.
Qed.

Lemma iteration_preserves (dp : nat -> nat) (s s' : IsolationTree.build_state) :
  build_inv max_depth dp s ->
  IsolationTree.loop_test max_depth s = true ->
  iteration rnd X m s s' ->
  exists dp',
    build_inv max_depth dp' s' /\
    forall a, (a < length (IsolationTree.st_nodes s))%nat -> dp' a = dp a.
Proof.
  intros [[Hpair Hchild] [Hroot Hlen] Hque Hnd] Ht Hit.
  destruct (loop_test_head _ _ Ht) as (d0 & a0 & i0 & q0 & Eq & Hd).
  destruct Hit as [depth nd idx que feature calls Hq _ _ ->
                  |depth nd idx que feature calls point il ir Hq _ _ _ ->];
    rewrite Hq in Eq; inversion Eq; subst d0 a0 i0 q0; clear Eq;
    rewrite Hq in Hque, Hnd;
    destruct (Hque depth nd idx (or_introl eq_refl)) as (Hdp & node & Hnode & Hl & Hr);
    assert (Hlt : (nd < length (IsolationTree.st_nodes s))%nat)
      by (apply nth_error_Some; congruence);
    simpl in Hnd; inversion Hnd as [|? ? Hnotin Hnd']; subst.
  - (* the node stays childless *)
    exists dp. split; [|reflexivity].
    set (st := IsolationTree.st_nodes s) in *. simpl.
    assert (Hget : forall a n', nth_error (leaf_store nd feature st) a = Some n' ->
               exists n, nth_error st a = Some n /\ left n' = left n /\ right n' = right n).
    { intros a n' H. destruct (Nat.eq_dec nd a) as [<-|Hne].
      - rewrite (leaf_store_same _ _ _ _ Hnode) in H. inversion H.
        exists node. auto.
      - rewrite leaf_store_other in H by assumption. exists n'. auto. }
    constructor; simpl.
    + constructor.
      * intros a n' H. destruct (Hget _ _ H) as (n & Hn & -> & ->). eapply Hpair; eauto.
      * intros a n' c H Hc. destruct (Hget _ _ H) as (n & Hn & El & Er).
        rewrite El, Er in Hc. rewrite leaf_store_length. eapply Hchild; eauto.
    + rewrite leaf_store_length. auto.
    + intros d a idx' Hin.
      destruct (Hque d a idx' (or_intror Hin)) as (Hda & n & Hn & Hnl & Hnr).
      split; [exact Hda|].
      assert (Hne : nd <> a).
      { intros <-. apply Hnotin.
        apply (in_map (fun entry => snd (fst entry))) in Hin. exact Hin. }
      exists n. rewrite leaf_store_other by assumption. auto.
    + exact Hnd'.
  - (* the node gets two children *)
    set (st := IsolationTree.st_nodes s) in *.
    set (n := length st) in *.
    set (st' := split_store nd feature point (length il) (length ir) st).
    set (dp' := fun a => if (a =? n)%nat then S (dp nd)
                         else if (a =? S n)%nat then S (dp nd) else dp a).
    assert (Hlen' : length st' = S (S n)) by apply split_store_length.
    assert (Hold : forall a, (a < n)%nat -> dp' a = dp a).
    { intros a Ha. unfold dp'.
      destruct (Nat.eqb_spec a n); [lia|]. destruct (Nat.eqb_spec a (S n)); [lia|].
      reflexivity. }
    assert (Hn1 : dp' n = S (dp nd)) by (unfold dp'; rewrite Nat.eqb_refl; reflexivity).
    assert (Hn2 : dp' (S n) = S (dp nd)).
    { unfold dp'. destruct (Nat.eqb_spec (S n) n); [lia|].
      rewrite Nat.eqb_refl. reflexivity. }
    clearbody dp'. exists dp'.
    split; [|exact Hold].
    assert (Hsame : nth_error st' nd
                    = Some (mkNode (size node) (Some feature) (Some point)
                              (Some n) (Some (S n))))
      by (apply split_store_same; exact Hnode).
    assert (Hleft : nth_error st' n = Some (new_Node (Z.of_nat (length il))))
      by (apply split_store_left; exact Hlt).
    assert (Hright : nth_error st' (S n) = Some (new_Node (Z.of_nat (length ir))))
      by (apply split_store_right; exact Hlt).
    assert (Hother : forall a, a <> nd -> (a < n)%nat -> nth_error st' a = nth_error st a).
    { intros a Hne Ha. apply split_store_other; auto. }
    constructor; simpl; fold st; fold n; fold st'.
    + constructor.
      * intros a n' H.
        destruct (nth_error_cases st nd a n' st' Hlen' H) as [->|[->|[->|[Hne Ha]]]].
        -- rewrite Hsame in H. inversion H. simpl. split; discriminate.
        -- fold n in H. rewrite Hleft in H. inversion H. simpl. tauto.
        -- fold n in H. rewrite Hright in H. inversion H. simpl. tauto.
        -- rewrite Hother in H by assumption. eapply Hpair; eauto.
      * intros a n' c H Hc. rewrite Hlen'.
        destruct (nth_error_cases st nd a n' st' Hlen' H) as [->|[->|[->|[Hne Ha]]]].
        -- rewrite Hsame in H. inversion H. subst n'. simpl in Hc.
           rewrite (Hold nd Hlt).
           assert (Hcn : c = n \/ c = S n) by (destruct Hc as [Hc|Hc]; inversion Hc; auto).
           split; [lia|]. split; [|lia].
           destruct Hcn as [->| ->]; assumption.
        -- fold n in H. rewrite Hleft in H. inversion H. subst n'. simpl in Hc.
           destruct Hc; discriminate.
        -- fold n in H. rewrite Hright in H. inversion H. subst n'. simpl in Hc.
           destruct Hc; discriminate.
        -- rewrite Hother in H by assumption.
           destruct (Hchild a n' c H Hc) as (Hac & Hdc & Hmd).
           rewrite (Hold a Ha), (Hold c) by (fold n in Hac; lia).
           fold n in Hac. split; [lia|]. split; assumption.
    + rewrite Hlen'. rewrite (Hold 0%nat) by (fold n in Hlen; lia). split; [exact Hroot|lia].
    + intros d a idx' Hin. apply in_app_or in Hin. destruct Hin as [Hin|Hin].
      * destruct (Hque d a idx' (or_intror Hin)) as (Hda & n0 & Hn0 & Hnl & Hnr).
        assert (Ha : (a < n)%nat) by (apply nth_error_Some; fold st in Hn0; congruence).
        assert (Hne : a <> nd).
        { intros ->. apply Hnotin.
          apply (in_map (fun entry => snd (fst entry))) in Hin. exact Hin. }
        rewrite (Hold a Ha). split; [exact Hda|].
        exists n0. rewrite Hother by assumption. auto.
      * simpl in Hin. destruct Hin as [Hin|[Hin|[]]]; inversion Hin; subst.
        -- split; [exact Hn1|].
           eexists. split; [exact Hleft|split; reflexivity].
        -- split; [exact Hn2|].
           eexists. split; [exact Hright|split; reflexivity].
    + rewrite map_app. simpl.
      assert (Hbound : forall a, In a (map (fun entry => snd (fst entry)) que) -> (a < n)%nat).
      { intros a Ha. apply in_map_iff in Ha. destruct Ha as ([[d' a'] idx'] & <- & Hin).
        destruct (Hque d' a' idx' (or_intror Hin)) as (_ & n0 & Hn0 & _).
        simpl. apply nth_error_Some. fold st in Hn0. congruence. }
      apply NoDup_app; [exact Hnd'| |].
      * constructor; [simpl; intros [H|[]]; lia|]. constructor; [simpl; tauto|constructor].
      * intros a Ha [<-|[<-|[]]]; apply Hbound in Ha; lia.
Qed.

End ShapeFacts.

(** ** Trees returned by the constructor *)

Section BuiltTrees.

Variable rnd : Random.
Variable X : Dataset.

(** Induction over the iterations of the loop. *)
Lemma loop_induction (I : IsolationTree.build_state -> Prop) (m : nat) (max_depth : Z) :
  (forall s s', I s -> IsolationTree.loop_test max_depth s = true ->
                iteration rnd X m s s' -> I s') ->
  forall budget s s',
    I s -> IsolationTree.loop rnd X budget m max_depth s = Return s' -> I s'.
Proof.
  intros Hstep. induction budget as [|budget IH]; intros s s' Hs H; simpl in H.
  - destruct (IsolationTree.loop_test max_depth s); [discriminate|].
    inversion H. subst. exact Hs.
  - destruct (IsolationTree.loop_test max_depth s) eqn:Ht.
    + destruct (IsolationTree.loop_body rnd X m s) as [s1| |] eqn:Eb;
        simpl in H; try discriminate.
      apply (IH s1 s'); [|exact H].
      apply (Hstep s s1 Hs Ht). apply loop_body_iteration. exact Eb.
    + inversion H. subst. exact Hs.
Qed.

Lemma loop_preserves (m : nat) (max_depth : Z) (budget : nat)
  (s s' : IsolationTree.build_state) :
  (exists dp, build_inv max_depth dp s) ->
  IsolationTree.loop rnd X budget m max_depth s = Return s' ->
  exists dp', build_inv max_depth dp' s'.
Proof.
  apply (loop_induction (fun s => exists dp, build_inv max_depth dp s)).
  intros s0 s1 (dp & Hinv) Ht Hit.
  destruct (iteration_preserves rnd X m max_depth dp s0 s1 Hinv Ht Hit) as (dp1 & H1 & _).
  exists dp1. exact H1.
Qed.

Lemma initial_inv (max_depth : Z) (sz : Z) (idx : list nat) (calls : nat) :
  build_inv max_depth (fun _ => 0%nat)
    (IsolationTree.mkState [new_Node sz] [(0%nat, 0%nat, idx)] None calls).
Proof.
  constructor; simpl.
  - constructor.
    + intros [|a] node H; simpl in H; [inversion H; simpl; tauto|].
      destruct a; discriminate.
    + intros [|a] node c H Hc; simpl in H.
      * inversion H. subst. simpl in Hc. destruct Hc; discriminate.
      * destruct a; discriminate.
  - split; [reflexivity|lia].
  - intros d nd idx' [H|[]]. inversion H. subst. split; [reflexivity|].
    exists (new_Node sz). auto.
  - constructor; [simpl; tauto|constructor].
Qed.

(** The steps of the constructor that a returned tree went through. *)
Lemma init_inversion (calls calls' : nat) (n_samples max_depth : Z)
  (tree : IsolationTree.t) :
  IsolationTree.__init__ rnd X calls n_samples max_depth = Return (tree, calls') ->
  exists row0 idx s,
    getitem X 0 = Return row0 /\
    sample rnd calls (length X)
      (if (n_samples >? Z.of_nat (length X))%Z then Z.of_nat (length X) else n_samples)
    = Return idx /\
    IsolationTree.loop rnd X (IsolationTree.loop_budget max_depth) (length row0) max_depth
      (IsolationTree.mkState
         [new_Node (if (n_samples >? Z.of_nat (length X))%Z
                    then Z.of_nat (length X) else n_samples)]
         [(0%nat, 0%nat, idx)] None (S calls))
    = Return s /\
    IsolationTree.st_depth s = Some (IsolationTree.height tree) /\
    IsolationTree.nodes tree = IsolationTree.st_nodes s /\
    IsolationTree.root tree = 0%nat /\
    calls' = IsolationTree.st_calls s.
Proof.
  unfold IsolationTree.__init__, IsolationTree._build_tree, alloc. simpl.
  set (ns := if (n_samples >? Z.of_nat (length X))%Z
             then Z.of_nat (length X) else n_samples).
  intros H.
  destruct (getitem X 0) as [row0| |]; simpl in H; try discriminate.
  destruct (sample rnd calls (length X) ns) as [idx| |]; simpl in H; try discriminate.
  destruct (IsolationTree.loop rnd X (IsolationTree.loop_budget max_depth)
              (length row0) max_depth
              (IsolationTree.mkState [new_Node ns] [(0%nat, 0%nat, idx)] None (S calls)))
    as [s| |] eqn:El; simpl in H; try discriminate.
  destruct (IsolationTree.st_depth s) as [depth|] eqn:Ed; simpl in H; try discriminate.
  inversion H. subst. simpl.
  exists row0, idx, s. repeat split; auto.
Qed.

(** The constructor returns a tree or raises an exception. *)
Lemma init_no_diverge (calls : nat) (n_samples max_depth : Z) :
  IsolationTree.__init__ rnd X calls n_samples max_depth <> Diverge.
Proof.
  unfold IsolationTree.__init__, IsolationTree._build_tree, alloc. simpl.
  unfold getitem. destruct (nth_error X 0) as [row0|]; cbn [bind]; [|discriminate].
  unfold sample.
  destruct (_ || _)%bool; cbn [bind]; [discriminate|].
  match goal with
  | |- context [IsolationTree.loop ?r ?x ?b ?m ?md ?s0] =>
      pose proof (loop_budget_enough r x m md [new_Node
        (if (n_samples >? Z.of_nat (length X))%Z then Z.of_nat (length X)
         else n_samples)] 0%nat
        (sample_draw rnd calls (length X)
           (Z.to_nat (if (n_samples >? Z.of_nat (length X))%Z
                      then Z.of_nat (length X) else n_samples))) (S calls)) as Hnd;
      destruct (IsolationTree.loop r x b m md s0) as [s| |]
  end; cbn [bind]; [|discriminate|congruence].
  destruct (IsolationTree.st_depth s); discriminate.
Qed.

(** What the constructor returns: a store with the root at address 0 and the
    shape kept by the loop. *)
Lemma init_shaped (calls calls' : nat) (n_samples max_depth : Z)
  (tree : IsolationTree.t) :
  IsolationTree.__init__ rnd X calls n_samples max_depth = Return (tree, calls') ->
  IsolationTree.root tree = 0%nat /\
  exists dp, shaped max_depth dp (IsolationTree.nodes tree) /\
             dp 0%nat = 0%nat /\ (0 < length (IsolationTree.nodes tree))%nat.
Proof.
  intros H.
  destruct (init_inversion _ _ _ _ _ H) as (row0 & idx & s & _ & _ & El & _ & En & Er & _).
  split; [exact Er|].
  destruct (loop_preserves _ _ _ _ _
              (ex_intro _ _ (initial_inv max_depth _ idx (S calls))) El)
    as (dp & [Hsh [Hroot Hlen] _ _]).
  exists dp. rewrite En. auto.
Qed.

End BuiltTrees.

(** ** The query of a tree *)

Section Descend.

Variable st : Store.
Variable row : list Q.

Lemma descend_store (budget : nat) :
  forall nd depth, snd (IsolationTree.descend budget st row nd depth) = st.
Proof.
  induction budget as [|budget IH]; intros nd depth; simpl;
    destruct (deref st nd) as [node| |]; try reflexivity;
    destruct (left node), (right node); try reflexivity.
  destruct (split_feature node) as [feature|]; try reflexivity.
  destruct (getitem row feature) as [x| |]; try reflexivity.
  destruct (split_point node) as [point|]; try reflexivity.
  destruct (Qltb x point); apply IH.
Qed.

Lemma deref_Return (a : nat) (node : Node) :
  deref st a = Return node <-> nth_error st a = Some node.
Proof.
  unfold deref. destruct (nth_error st a); split; intros H; inversion H; reflexivity.
Qed.

Variable max_depth : Z.
Variable dp : nat -> nat.
Hypothesis Hshaped : shaped max_depth dp st.

(** A returned pair comes from a path of the specification. *)
Lemma descend_sound (budget : nat) :
  forall nd depth d sz,
    fst (IsolationTree.descend budget st row nd depth) = Return (d, sz) ->
    reaches st row nd depth d sz.
Proof.
  induction budget as [|budget IH]; intros nd depth d sz; simpl;
    destruct (deref st nd) as [node| |] eqn:En; simpl; try discriminate;
    apply deref_Return in En;
    destruct (left node) as [l|] eqn:El; destruct (right node) as [r|] eqn:Er;
    simpl; try discriminate;
    try (intros H; inversion H; subst; apply reaches_leaf; try assumption;
         apply (shaped_pair _ _ _ Hshaped _ _ En); assumption).
  destruct (split_feature node) as [feature|] eqn:Ef; simpl; try discriminate.
  unfold getitem. destruct (nth_error row feature) as [x|] eqn:Ex; simpl;
    try discriminate.
  destruct (split_point node) as [point|] eqn:Ep; simpl; try discriminate.
  destruct (Qltb x point) eqn:Ec; intros H.
  - eapply reaches_left; eauto. apply Qltb_lt. exact Ec.
  - eapply reaches_right; eauto. intros Hlt. apply Qltb_lt in Hlt. congruence.
Qed.

(** A path of the specification is followed by the loop, which has budget
    enough for it. *)
Lemma descend_complete (nd depth d : nat) (sz : Z) :
  reaches st row nd depth d sz ->
  forall budget, (length st - nd <= budget)%nat ->
    fst (IsolationTree.descend budget st row nd depth) = Return (d, sz).
Proof.
  induction 1 as [nd depth node Hn Hl Hr
                 |nd depth node l r feature point x d sz Hn Hl Hr Hf Hp Hx Hlt _ IH
                 |nd depth node l r feature point x d sz Hn Hl Hr Hf Hp Hx Hlt _ IH];
    intros budget Hb.
  - destruct budget; simpl; apply deref_Return in Hn; rewrite Hn, Hl; reflexivity.
  - destruct (shaped_child _ _ _ Hshaped nd node l Hn (or_introl Hl)) as (Hord & _).
    destruct budget as [|budget]; [lia|]. simpl.
    apply deref_Return in Hn. rewrite Hn, Hl, Hr, Hf.
    unfold getitem. rewrite Hx, Hp.
    apply Qltb_lt in Hlt. rewrite Hlt. apply IH. lia.
  - destruct (shaped_child _ _ _ Hshaped nd node r Hn (or_intror Hr)) as (Hord & _).
    destruct budget as [|budget]; [lia|]. simpl.
    apply deref_Return in Hn. rewrite Hn, Hl, Hr, Hf.
    unfold getitem. rewrite Hx, Hp.
    destruct (Qltb x point) eqn:Ec; [apply Qltb_lt in Ec; contradiction|].
    apply IH. lia.
Qed.

(** The budget of the query is never exhausted. *)
Lemma descend_no_diverge (budget : nat) :
  forall nd depth, (length st - nd <= budget)%nat ->
    fst (IsolationTree.descend budget st row nd depth) <> Diverge.
Proof.
  induction budget as [|budget IH]; intros nd depth Hb; simpl;
    destruct (deref st nd) as [node| |] eqn:En; simpl; try discriminate;
    try (unfold deref in En; destruct (nth_error st nd); discriminate);
    apply deref_Return in En;
    assert (Hlt : (nd < length st)%nat) by (apply nth_error_Some; congruence);
    destruct (left node) as [l|] eqn:El; destruct (right node) as [r|] eqn:Er;
    simpl; try discriminate; try lia.
  destruct (shaped_child _ _ _ Hshaped nd node l En (or_introl El)) as (Hl & _).
  destruct (shaped_child _ _ _ Hshaped nd node r En (or_intror Er)) as (Hr & _).
  destruct (split_feature node) as [feature|]; simpl; try discriminate.
  unfold getitem. destruct (nth_error row feature) as [x|]; simpl; try discriminate.
  destruct (split_point node) as [point|]; simpl; try discriminate.
  destruct (Qltb x point); apply IH; lia.
Qed.

(** The depth counter of the loop is the label of the current node. *)
Lemma descend_depth (budget : nat) :
  forall nd d sz,
    (Z.of_nat (dp nd) <= max_depth + 1)%Z ->
    fst (IsolationTree.descend budget st row nd (dp nd)) = Return (d, sz) ->
    (Z.of_nat d <= max_depth + 1)%Z.
Proof.
  induction budget as [|budget IH]; intros nd d sz Hd; simpl;
    destruct (deref st nd) as [node| |] eqn:En; simpl; try discriminate;
    apply deref_Return in En;
    destruct (left node) as [l|] eqn:El; destruct (right node) as [r|] eqn:Er;
    simpl; try discriminate;
    try (intros H; inversion H; subst; exact Hd).
  destruct (shaped_child _ _ _ Hshaped nd node l En (or_introl El)) as (_ & Hl & Hmd).
  destruct (shaped_child _ _ _ Hshaped nd node r En (or_intror Er)) as (_ & Hr & _).
  destruct (split_feature node) as [feature|]; simpl; try discriminate.
  unfold getitem. destruct (nth_error row feature) as [x|]; simpl; try discriminate.
  destruct (split_point node) as [point|]; simpl; try discriminate.
  destruct (Qltb x point); intros H.
  - rewrite <- Hl in H. apply IH in H; [exact H|]. rewrite Hl. lia.
  - rewrite <- Hr in H. apply IH in H; [exact H|]. rewrite Hr. lia.
Qed.

End Descend.

(** ** Statements about the query *)

(** C4: on a built tree, the query returns [(d, sz)] exactly when the path
    that starts at the root with depth 0, goes left where the row's value at
    [split_feature] is below [split_point] and right otherwise, and adds one
    to the depth per edge, ends after [d] edges at a childless node of size
    [sz]; the loop always ends, and the store of the tree is the same after
    the query. *)
Theorem tree_predict_spec (rnd : Random) (X : Dataset) (calls calls' : nat)
  (n_samples max_depth : Z) (tree : IsolationTree.t) (row : list Q) :
  IsolationTree.__init__ rnd X calls n_samples max_depth = Return (tree, calls') ->
  (forall d sz,
     fst (IsolationTree._predict tree row) = Return (d, sz) <->
     reaches (IsolationTree.nodes tree) row (IsolationTree.root tree) 0 d sz) /\
  fst (IsolationTree._predict tree row) <> Diverge /\
  snd (IsolationTree._predict tree row) = IsolationTree.nodes tree.
Proof.
  intros Hinit.
  destruct (init_shaped _ _ _ _ _ _ _ Hinit) as (Hroot & dp & Hsh & _ & _).
  unfold IsolationTree._predict. split; [|split].
  - intros d sz. split.
    + apply (descend_sound _ _ _ _ Hsh).
    + intros Hr. apply (descend_complete _ _ _ _ Hsh _ _ _ _ Hr). lia.
  - apply (descend_no_diverge _ _ _ _ Hsh). lia.
  - apply descend_store.
Qed.

Lemma tree_predict_spec_witness :
  (forall d sz,
     fst (IsolationTree._predict demo_tree [10;7]%Q) = Return (d, sz) <->
     reaches (IsolationTree.nodes demo_tree) [10;7]%Q (IsolationTree.root demo_tree)
       0 d sz) /\
  fst (IsolationTree._predict demo_tree [10;7]%Q) <> Diverge /\
  snd (IsolationTree._predict demo_tree [10;7]%Q) = IsolationTree.nodes demo_tree.
Proof.
  apply (tree_predict_spec demo_random demo_X 0 8 100 10 demo_tree [10;7]%Q).
  vm_compute. reflexivity.
Defined.

(** C10: on a tree built with [max_depth >= 0], the depth a query returns is
    at most [max_depth + 1]. *)
Theorem tree_predict_depth_bound (rnd : Random) (X : Dataset) (calls calls' : nat)
  (n_samples max_depth : Z) (tree : IsolationTree.t) (row : list Q)
  (d : nat) (sz : Z) :
  (0 <= max_depth)%Z ->
  IsolationTree.__init__ rnd X calls n_samples max_depth = Return (tree, calls') ->
  fst (IsolationTree._predict tree row) = Return (d, sz) ->
  (Z.of_nat d <= max_depth + 1)%Z.
Proof.
  intros Hmd Hinit Hq.
  destruct (init_shaped _ _ _ _ _ _ _ Hinit) as (Hroot & dp & Hsh & Hdp & _).
  unfold IsolationTree._predict in Hq. rewrite Hroot in Hq.
  rewrite <- Hdp in Hq at 2.
  apply (descend_depth _ _ _ _ Hsh _ _ _ _ ltac:(rewrite Hdp; lia) Hq).
Qed.

Lemma tree_predict_depth_bound_witness : (Z.of_nat 1 <= 0 + 1)%Z.
Proof.
  apply (tree_predict_depth_bound demo_random demo_X 0 3 100 0 shallow_tree
           [10;7]%Q 1 2).
  - lia.
  - vm_compute. reflexivity.
  - vm_compute. reflexivity.
Defined.

(** ** The generator used in the examples respects the contract *)

Lemma demo_random_ok : random_ok demo_random.
Proof.
  constructor; unfold demo_random; cbn [sample_draw choice_draw random_draw].
  - intros _ n k Hk. rewrite length_firstn, length_seq. lia.
  - intros _ n k i Hk Hi.
    assert (H : In i (seq 0 n)).
    { rewrite <- (firstn_skipn k (seq 0 n)). apply in_or_app. left. exact Hi. }
    apply in_seq in H. lia.
  - intros _ n k Hk. apply (NoDup_app_remove_r _ (skipn k (seq 0 n))).
    rewrite firstn_skipn. apply seq_NoDup.
  - intros t m Hm. apply Nat.mod_upper_bound. lia.
  - intros t. pose proof (Nat.mod_upper_bound t 4 ltac:(lia)) as H.
    set (r := (t mod 4)%nat) in *. unfold Qle, Qlt. cbn [Qnum Qden]. lia.
Qed.

(** ** Sizes of the children *)

Section ChildSizes.

Variable rnd : Random.
Variable X : Dataset.
Hypothesis Hdraws :
  forall t, (0 <= random_draw rnd t)%Q /\ (random_draw rnd t < 1)%Q.

Lemma get_split_column (calls : nat) (idx : list nat) (feature : nat)
  (r : option Q * nat) :
  IsolationTree._get_split rnd X calls idx feature = Return r ->
  exists vs, IsolationTree.column X idx feature = Return vs.
Proof.
  unfold IsolationTree._get_split.
  destruct (IsolationTree.column X idx feature) as [vs| |]; cbn [bind];
    try discriminate.
  intros _. exists vs. reflexivity.
Qed.

Lemma sizes_preserved (m : nat) (max_depth : Z) (dp : nat -> nat)
  (s s' : IsolationTree.build_state) :
  build_inv max_depth dp s ->
  sizes_inv (IsolationTree.st_nodes s) ->
  iteration rnd X m s s' ->
  sizes_inv (IsolationTree.st_nodes s').
Proof.
  intros [_ _ Hque _] Hsz Hit.
  destruct Hit as [depth nd idx que feature calls Hq _ _ ->
                  |depth nd idx que feature calls point il ir Hq _ Hsplit Hrows ->];
    rewrite Hq in Hque;
    destruct (Hque depth nd idx (or_introl eq_refl)) as (_ & node & Hnode & _);
    assert (Hlt : (nd < length (IsolationTree.st_nodes s))%nat)
      by (apply nth_error_Some; congruence);
    simpl; intros a n' Ha H.
  - destruct (Nat.eq_dec nd a) as [<-|Hne].
    + rewrite (leaf_store_same _ _ _ _ Hnode) in H. inversion H. simpl.
      apply (Hsz nd node Ha Hnode).
    + rewrite leaf_store_other in H by assumption. apply (Hsz a n' Ha H).
  - destruct (get_split_column _ _ _ _ Hsplit) as (vs & Hcol).
    destruct (Hdraws (S (IsolationTree.st_calls s))) as (Hr0 & Hr1).
    destruct (split_sides rnd X _ _ _ _ _ _ _ _ Hr0 Hr1 Hsplit Hcol Hrows)
      as (_ & _ & HnL & HnR & _).
    pose proof (split_store_length nd feature point (length il) (length ir)
                  (IsolationTree.st_nodes s)) as Hlen.
    destruct (nth_error_cases _ nd a n' _ Hlen H) as [->|[->|[->|[Hne Hb]]]].
    + rewrite (split_store_same _ _ _ _ _ _ _ Hnode) in H. inversion H. simpl.
      apply (Hsz nd node Ha Hnode).
    + rewrite split_store_left in H by assumption. inversion H. simpl. lia.
    + rewrite split_store_right in H by assumption. inversion H. simpl. lia.
    + rewrite split_store_other in H by auto. apply (Hsz a n' Ha H).
Qed.

Lemma init_sizes (calls calls' : nat) (n_samples max_depth : Z)
  (tree : IsolationTree.t) :
  IsolationTree.__init__ rnd X calls n_samples max_depth = Return (tree, calls') ->
  sizes_inv (IsolationTree.nodes tree).
Proof.
  intros H.
  destruct (init_inversion _ _ _ _ _ _ _ H)
    as (row0 & idx & s & _ & _ & El & _ & En & _ & _).
  rewrite En.
  apply (loop_induction rnd X
           (fun s => (exists dp, build_inv max_depth dp s) /\
                     sizes_inv (IsolationTree.st_nodes s))
           (length row0) max_depth) in El.
  - apply El.
  - intros s0 s1 ((dp & Hinv) & Hsz) Ht Hit. split.
    + destruct (iteration_preserves rnd X _ max_depth dp s0 s1 Hinv Ht Hit)
        as (dp1 & H1 & _).
      exists dp1. exact H1.
    + apply (sizes_preserved _ _ _ _ _ Hinv Hsz Hit).
  - split; [exists (fun _ => 0%nat); apply initial_inv|].
    intros [|a] node Ha Hn; [congruence|]. simpl in Hn. destruct a; discriminate.
Qed.

End ChildSizes.

(** C9: in exact arithmetic, with draws in [[0, 1)], a split that is found
    sends every row holding the least value of the column below the split
    point, into [idx_left], and every row holding the greatest value at or
    above it, into [idx_right]; so both children of every node of a built
    tree have size at least 1. *)
Theorem split_children_nonempty (rnd : Random) (X : Dataset) :
  (forall t, (0 <= random_draw rnd t)%Q /\ (random_draw rnd t < 1)%Q) ->
  (forall calls0 calls idx feature point vs idx_left idx_right,
     IsolationTree._get_split rnd X calls0 idx feature = Return (Some point, calls) ->
     IsolationTree.column X idx feature = Return vs ->
     IsolationTree.split_rows X feature point (rev idx) [] []
     = Return (idx_left, idx_right) ->
     (forall i x, In i idx -> cell X i feature = Return x -> is_least x vs ->
        (x < point)%Q /\ In i idx_left) /\
     (forall i x, In i idx -> cell X i feature = Return x -> is_greatest x vs ->
        (point <= x)%Q /\ In i idx_right) /\
     (1 <= length idx_left)%nat /\ (1 <= length idx_right)%nat) /\
  (forall calls calls' n_samples max_depth tree,
     IsolationTree.__init__ rnd X calls n_samples max_depth = Return (tree, calls') ->
     forall a node l r,
       nth_error (IsolationTree.nodes tree) a = Some node ->
       left node = Some l -> right node = Some r ->
       exists node_l node_r,
         nth_error (IsolationTree.nodes tree) l = Some node_l /\
         nth_error (IsolationTree.nodes tree) r = Some node_r /\
         (1 <= size node_l)%Z /\ (1 <= size node_r)%Z).
Proof.
  intros Hdraws. split.
  - intros calls0 calls idx feature point vs il ir Hsplit Hcol Hrows.
    destruct (Hdraws calls0) as (Hr0 & Hr1).
    destruct (split_sides rnd X _ _ _ _ _ _ _ _ Hr0 Hr1 Hsplit Hcol Hrows)
      as (HL & HR & HnL & HnR & _).
    auto.
  - intros calls calls' n_samples max_depth tree Hinit a node l r Hn Hl Hr.
    pose proof (init_sizes rnd X Hdraws _ _ _ _ _ Hinit) as Hsz.
    destruct (init_shaped _ _ _ _ _ _ _ Hinit) as (_ & dp & Hsh & _ & _).
    destruct (shaped_child _ _ _ Hsh a node l Hn (or_introl Hl)) as (Hal & _).
    destruct (shaped_child _ _ _ Hsh a node r Hn (or_intror Hr)) as (Har & _).
    destruct (nth_error (IsolationTree.nodes tree) l) as [nl|] eqn:El;
      [|apply nth_error_None in El; lia].
    destruct (nth_error (IsolationTree.nodes tree) r) as [nr|] eqn:Er;
      [|apply nth_error_None in Er; lia].
    exists nl, nr. repeat split.
    + apply (Hsz l nl ltac:(lia) El).
    + apply (Hsz r nr ltac:(lia) Er).
Qed.

Lemma split_children_nonempty_witness :
  exists node_l node_r,
    nth_error (IsolationTree.nodes demo_tree) 1 = Some node_l /\
    nth_error (IsolationTree.nodes demo_tree) 2 = Some node_r /\
    (1 <= size node_l)%Z /\ (1 <= size node_r)%Z.
Proof.
  refine (proj2 (split_children_nonempty demo_random demo_X
                   (random_range demo_random demo_random_ok))
            0%nat 8%nat 100%Z 10%Z demo_tree _ 0%nat
            (mkNode 4 (Some 1%nat) (Some (28 # 4)%Q) (Some 1%nat) (Some 2%nat))
            1%nat 2%nat _ _ _).
  - vm_compute. reflexivity.
  - reflexivity.
  - reflexivity.
  - reflexivity.
Defined.

(** ** The constructor succeeds on well-formed input

    This holds in the exact arithmetic of the model, where a split point
    lies strictly above the least value of its column; a split point
    rounded to a double may fall on that value and leave a child without
    rows. *)

Section Success.

Variable rnd : Random.
Variable X : Dataset.
Variable m : nat.
Hypothesis Hrnd : random_ok rnd.
Hypothesis Hm : (0 < m)%nat.
Hypothesis Hrows : rows_ok X m.

Lemma cell_defined (i feature : nat) :
  (i < length X)%nat -> (feature < m)%nat -> exists x, cell X i feature = Return x.
Proof.
  intros Hi Hf. unfold cell, getitem.
  destruct (nth_error X i) as [row|] eqn:Er; [|apply nth_error_None in Er; lia].
  simpl. pose proof (Hrows row (nth_error_In _ _ Er)) as Hlen.
  destruct (nth_error row feature) as [x|] eqn:Ex; [|apply nth_error_None in Ex; lia].
  exists x. reflexivity.
Qed.

Lemma body_returns (max_depth : Z) (s : IsolationTree.build_state) :
  que_ok X s -> IsolationTree.loop_test max_depth s = true ->
  exists s', IsolationTree.loop_body rnd X m s = Return s'.
Proof.
  intros Hq Ht.
  destruct (loop_test_head _ _ Ht) as (d & nd & idx & que & Eq & _).
  destruct (Hq d nd idx ltac:(rewrite Eq; left; reflexivity)) as (Hne & Hidx).
  unfold IsolationTree.loop_body. rewrite Eq.
  unfold choice. destruct (Nat.eqb_spec m 0) as [E|_]; [lia|]. cbn [bind].
  set (feature := choice_draw rnd (IsolationTree.st_calls s) m).
  assert (Hf : (feature < m)%nat) by (apply (choice_range rnd Hrnd); exact Hm).
  assert (Hcells : forall i, In i idx -> exists x, cell X i feature = Return x).
  { intros i Hi. apply cell_defined; [apply Hidx; exact Hi|exact Hf]. }
  destruct (column_total X idx feature Hcells) as (vs & Hcol).
  assert (Hvs : vs <> []).
  { intros ->. apply column_length in Hcol. destruct idx; [congruence|discriminate]. }
  destruct (all_equal_dec vs) as [Hall|Hnall].
  - rewrite (get_split_none rnd X _ _ _ _ Hcol Hvs Hall). cbn [bind].
    eexists. reflexivity.
  - destruct (get_split_some rnd X (S (IsolationTree.st_calls s)) _ _ _ Hcol Hnall)
      as (lo & lower & upper & _ & _ & _ & E).
    rewrite E. cbn [bind].
    destruct (split_rows_total X feature
                (random_draw rnd (S (IsolationTree.st_calls s)) * (upper - lower) + lower)%Q
                (rev idx)
                ltac:(intros i Hi; apply Hcells; apply in_rev; exact Hi) [] [])
      as (l' & r' & Er).
    rewrite Er. cbn [bind]. eexists. reflexivity.
Qed.

Lemma que_ok_preserved (s s' : IsolationTree.build_state) :
  que_ok X s -> iteration rnd X m s s' -> que_ok X s'.
Proof.
  intros Hq Hit.
  destruct Hit as [depth nd idx que feature calls Eq _ _ ->
                  |depth nd idx que feature calls point il ir Eq _ Hsplit Hsr ->];
    unfold que_ok in *; rewrite Eq in Hq; simpl; intros d a idx' Hin.
  - apply (Hq d a idx'). right. exact Hin.
  - apply in_app_or in Hin. destruct Hin as [Hin|Hin];
      [apply (Hq d a idx'); right; exact Hin|].
    destruct (Hq depth nd idx (or_introl eq_refl)) as (_ & Hidx).
    destruct (get_split_column _ _ _ _ _ _ Hsplit) as (vs & Hcol).
    destruct (random_range rnd Hrnd (S (IsolationTree.st_calls s))) as (Hr0 & Hr1).
    destruct (split_sides rnd X _ _ _ _ _ _ _ _ Hr0 Hr1 Hsplit Hcol Hsr)
      as (_ & _ & HnL & HnR & Hsub).
    simpl in Hin. destruct Hin as [Hin|[Hin|[]]]; inversion Hin; subst; split.
    + destruct idx'; [simpl in HnL; lia|discriminate].
    + intros i Hi. apply Hidx. apply Hsub. left. exact Hi.
    + destruct idx'; [simpl in HnR; lia|discriminate].
    + intros i Hi. apply Hidx. apply Hsub. right. exact Hi.
Qed.

Lemma loop_returns (max_depth : Z) (budget : nat) :
  forall s, que_ok X s ->
    (remaining_work max_depth (IsolationTree.st_que s) <= budget)%nat ->
    exists s', IsolationTree.loop rnd X budget m max_depth s = Return s'.
Proof.
  induction budget as [|budget IH]; intros s Hq Hw.
  - pose proof (loop_no_diverge rnd X m max_depth 0 s Hw) as Hnd.
    simpl in *. destruct (IsolationTree.loop_test max_depth s); [congruence|].
    exists s. reflexivity.
  - simpl. destruct (IsolationTree.loop_test max_depth s) eqn:Ht;
      [|exists s; reflexivity].
    destruct (body_returns max_depth s Hq Ht) as (s1 & Eb).
    rewrite Eb. cbn [bind].
    pose proof (loop_body_iteration _ _ _ _ _ Eb) as Hit.
    apply IH; [apply (que_ok_preserved s s1 Hq Hit)|].
    pose proof (iteration_decreases _ _ _ _ _ _ Ht Hit). lia.
Qed.

(** After one iteration the variable [depth] is bound. *)
Lemma loop_binds_depth (max_depth : Z) (budget : nat) (s s' : IsolationTree.build_state) :
  IsolationTree.loop_test max_depth s = true ->
  IsolationTree.loop rnd X budget m max_depth s = Return s' ->
  IsolationTree.st_depth s' <> None.
Proof.
  intros Ht H. destruct budget as [|budget]; simpl in H; rewrite Ht in H;
    [discriminate|].
  destruct (IsolationTree.loop_body rnd X m s) as [s1| |] eqn:Eb; simpl in H;
    try discriminate.
  apply (loop_induction rnd X (fun s => IsolationTree.st_depth s <> None)
           m max_depth) in H; [exact H| |].
  - intros s2 s3 _ _ Hit. destruct Hit; subst; simpl; discriminate.
  - apply loop_body_iteration in Eb. destruct Eb; subst; simpl; discriminate.
Qed.

End Success.

Section InitSuccess.

Variable rnd : Random.
Variable X : Dataset.
Variable row0 : list Q.
Hypothesis Hrnd : random_ok rnd.
Hypothesis Hrow0 : getitem X 0 = Return row0.
Hypothesis Hcols : (0 < length row0)%nat.
Hypothesis Hrows : rows_ok X (length row0).

Lemma dataset_nonempty : (1 <= length X)%nat.
Proof.
  unfold getitem in Hrow0. destruct X; simpl in *; [discriminate|lia].
Qed.

Lemma clamped_range (n_samples : Z) :
  (1 <= n_samples)%Z ->
  (1 <= clamped X n_samples <= Z.of_nat (length X))%Z.
Proof.
  intros Hn. pose proof dataset_nonempty. unfold clamped.
  destruct (Z.gtb_spec n_samples (Z.of_nat (length X))); lia.
Qed.

(** On a non-empty dataset whose rows all have the columns of the first row,
    with at least one sample and a non-negative depth limit, the
    constructor returns a tree. *)
Lemma init_returns (calls : nat) (n_samples max_depth : Z) :
  (1 <= n_samples)%Z -> (0 <= max_depth)%Z ->
  exists tree calls',
    IsolationTree.__init__ rnd X calls n_samples max_depth = Return (tree, calls').
Proof.
  intros Hn Hmd.
  pose proof (clamped_range n_samples Hn) as Hc.
  unfold IsolationTree.__init__, IsolationTree._build_tree, alloc. simpl.
  fold (clamped X n_samples). set (ns := clamped X n_samples) in *.
  rewrite Hrow0. cbn [bind].
  unfold sample.
  destruct (Z.ltb_spec ns 0) as [?|_]; [lia|].
  destruct (Z.ltb_spec (Z.of_nat (length X)) ns) as [?|_]; [lia|].
  cbn [orb bind].
  set (idx := sample_draw rnd calls (length X) (Z.to_nat ns)).
  assert (Hk : (Z.to_nat ns <= length X)%nat) by lia.
  set (s0 := IsolationTree.mkState [new_Node ns] [(0%nat, 0%nat, idx)] None (S calls)).
  assert (Hq : que_ok X s0).
  { intros d nd idx' [H|[]]. inversion H. subst idx'. split.
    - intros E. pose proof (sample_length rnd Hrnd calls _ _ Hk) as Hl.
      fold idx in Hl. rewrite E in Hl. simpl in Hl. lia.
    - intros i Hi. apply (sample_range rnd Hrnd calls _ _ i Hk Hi). }
  assert (Hw : (remaining_work max_depth (IsolationTree.st_que s0)
                <= IsolationTree.loop_budget max_depth)%nat).
  { unfold remaining_work, weight, IsolationTree.loop_budget. simpl. lia. }
  destruct (loop_returns rnd X (length row0) Hrnd Hcols Hrows max_depth _ s0 Hq Hw)
    as (s & El).
  rewrite El. cbn [bind].
  pose proof (loop_binds_depth rnd X (length row0) max_depth
                (IsolationTree.loop_budget max_depth) s0 s) as Hd.
  destruct (IsolationTree.st_depth s) as [depth|].
  - eexists. eexists. reflexivity.
  - exfalso. apply Hd; [|exact El|reflexivity].
    unfold IsolationTree.loop_test. simpl. apply Z.leb_le. lia.
Qed.

End InitSuccess.

(** The root keeps the size it was created with. *)
Lemma init_root_size (rnd : Random) (X : Dataset) (calls calls' : nat)
  (n_samples max_depth : Z) (tree : IsolationTree.t) :
  IsolationTree.__init__ rnd X calls n_samples max_depth = Return (tree, calls') ->
  root_size tree (clamped X n_samples).
Proof.
  intros H.
  destruct (init_inversion _ _ _ _ _ _ _ H)
    as (row0 & idx & s & _ & _ & El & _ & En & Er & _).
  unfold root_size. rewrite En, Er. fold (clamped X n_samples) in El.
  apply (loop_induction rnd X
           (fun s => (exists dp, build_inv max_depth dp s) /\
                     exists node, nth_error (IsolationTree.st_nodes s) 0 = Some node /\
                                  size node = clamped X n_samples)
           (length row0) max_depth) in El.
  - apply El.
  - intros s0 s1 ((dp & Hinv) & (node & Hnode & Hsz)) Ht Hit. split.
    + destruct (iteration_preserves rnd X _ max_depth dp s0 s1 Hinv Ht Hit)
        as (dp1 & H1 & _).
      exists dp1. exact H1.
    + destruct Hinv as [_ [_ Hlen] Hque _].
      destruct Hit as [depth nd idx' que feature c Hq _ _ ->
                      |depth nd idx' que feature c point il ir Hq _ _ _ ->];
        rewrite Hq in Hque;
        destruct (Hque depth nd idx' (or_introl eq_refl)) as (_ & node' & Hnode' & _);
        cbn [IsolationTree.st_nodes]; destruct (Nat.eq_dec nd 0) as [->|Hne].
      * eexists. split; [apply (leaf_store_same _ _ _ _ Hnode')|].
        simpl. congruence.
      * exists node. rewrite leaf_store_other by assumption. auto.
      * eexists. split; [apply (split_store_same _ _ _ _ _ _ _ Hnode')|].
        simpl. congruence.
      * exists node. rewrite split_store_other by auto. auto.
  - split; [exists (fun _ => 0%nat); apply initial_inv|].
    eexists. split; reflexivity.
Qed.

(** ** [fit] *)

Section Fit.

Variable rnd : Random.
Variable X : Dataset.

Lemma build_trees_inversion (n_samples max_depth : Z) (count : nat) :
  forall calls calls' trees,
    IsolationForest.build_trees rnd X calls n_samples max_depth count
    = Return (trees, calls') ->
    length trees = count /\ Forall (built rnd X n_samples max_depth) trees.
Proof.
  induction count as [|count IH]; intros calls calls' trees H; simpl in H.
  - inversion H. subst. split; [reflexivity|constructor].
  - destruct (IsolationTree.__init__ rnd X calls n_samples max_depth)
      as [[tree c1]| |] eqn:Et; simpl in H; try discriminate.
    destruct (IsolationForest.build_trees rnd X c1 n_samples max_depth count)
      as [[rest c2]| |] eqn:Er; simpl in H; try discriminate.
    inversion H. subst. destruct (IH _ _ _ Er) as (Hlen & Hall).
    split; [simpl; congruence|].
    constructor; [exists calls, c1; exact Et|exact Hall].
Qed.

Lemma fit_trees (calls calls' : nat) (n_samples max_depth n_trees : Z)
  (trees : list IsolationTree.t) :
  IsolationForest.build_trees rnd X calls n_samples max_depth (Z.to_nat n_trees)
  = Return (trees, calls') ->
  IsolationForest.fit rnd X calls n_samples max_depth n_trees
  = Return (IsolationForest.mkForest trees (IsolationForest._get_adjustment n_samples),
            calls').
Proof. intros H. unfold IsolationForest.fit. rewrite H. reflexivity. Qed.

Lemma fit_inversion (calls calls' : nat) (n_samples max_depth n_trees : Z)
  (forest : IsolationForest.t) :
  IsolationForest.fit rnd X calls n_samples max_depth n_trees = Return (forest, calls') ->
  IsolationForest.adjustment forest = IsolationForest._get_adjustment n_samples /\
  length (IsolationForest.trees forest) = Z.to_nat n_trees /\
  Forall (built rnd X n_samples max_depth) (IsolationForest.trees forest).
Proof.
  unfold IsolationForest.fit. intros H.
  destruct (IsolationForest.build_trees rnd X calls n_samples max_depth
              (Z.to_nat n_trees)) as [[trees c]| |] eqn:Eb; simpl in H;
    try discriminate.
  inversion H. subst. simpl. split; [reflexivity|].
  apply (build_trees_inversion _ _ _ _ _ _ Eb).
Qed.

(** [fit] returns a forest or raises an exception. *)
Lemma fit_no_diverge (calls : nat) (n_samples max_depth n_trees : Z) :
  IsolationForest.fit rnd X calls n_samples max_depth n_trees <> Diverge.
Proof.
  unfold IsolationForest.fit.
  assert (H : forall count c,
             IsolationForest.build_trees rnd X c n_samples max_depth count <> Diverge).
  { induction count as [|count IH]; intros c; simpl; [discriminate|].
    pose proof (init_no_diverge rnd X c n_samples max_depth) as Hi.
    destruct (IsolationTree.__init__ rnd X c n_samples max_depth) as [[tree c1]| |];
      cbn [bind]; [|discriminate|congruence].
    pose proof (IH c1) as Hr.
    destruct (IsolationForest.build_trees rnd X c1 n_samples max_depth count)
      as [[rest c2]| |]; cbn [bind]; [discriminate|discriminate|congruence]. }
  pose proof (H (Z.to_nat n_trees) calls) as Hb.
  destruct (IsolationForest.build_trees rnd X calls n_samples max_depth
              (Z.to_nat n_trees)) as [[trees c]| |]; cbn [bind];
    [discriminate|discriminate|congruence].
Qed.


Lemma build_trees_returns (row0 : list Q) (n_samples max_depth : Z) (count : nat) :
  random_ok rnd -> getitem X 0 = Return row0 -> (0 < length row0)%nat ->
  rows_ok X (length row0) -> (1 <= n_samples)%Z -> (0 <= max_depth)%Z ->
  forall calls, exists trees calls',
    IsolationForest.build_trees rnd X calls n_samples max_depth count
    = Return (trees, calls').
Proof.
  intros Hrnd Hrow0 Hcols Hrows Hn Hmd.
  induction count as [|count IH]; intros calls; simpl.
  - eexists. eexists. reflexivity.
  - destruct (init_returns rnd X row0 Hrnd Hrow0 Hcols Hrows calls _ _ Hn Hmd)
      as (tree & c1 & Et).
    rewrite Et. cbn [bind]. destruct (IH c1) as (rest & c2 & Er).
    rewrite Er. cbn [bind]. eexists. eexists. reflexivity.
Qed.

(** In the exact arithmetic of the model, [fit] returns a forest on every
    non-empty dataset whose rows all have the columns of the first row. *)
Lemma fit_returns (row0 : list Q) (calls : nat) (n_samples max_depth n_trees : Z) :
  random_ok rnd -> getitem X 0 = Return row0 -> (0 < length row0)%nat ->
  rows_ok X (length row0) -> (1 <= n_samples)%Z -> (0 <= max_depth)%Z ->
  exists forest calls',
    IsolationForest.fit rnd X calls n_samples max_depth n_trees
    = Return (forest, calls').
Proof.
  intros Hrnd Hrow0 Hcols Hrows Hn Hmd.
  destruct (build_trees_returns row0 n_samples max_depth (Z.to_nat n_trees)
              Hrnd Hrow0 Hcols Hrows Hn Hmd calls) as (trees & c & Eb).
  eexists. eexists. apply fit_trees. exact Eb.
Qed.

End Fit.

(** ** Columns beyond the first row

    [_build_tree] takes the number of columns from [X[0]] and draws every
    split feature below it: no other column of any row is read. *)

Section FirstColumns.

Variable rnd : Random.
Variable X : Dataset.
Variable m : nat.

Open Scope py_scope.






Hypothesis Hchoice : forall t, (0 < m)%nat -> (choice_draw rnd t m < m)%nat.



Variable row0 : list Q.
Hypothesis Hrow0 : getitem X 0 = Return row0.
Hypothesis Hm : m = length row0.







End FirstColumns.




(** With the whole population requested, the sample lists every row. *)
Lemma full_sample (rnd : Random) (calls n : nat) (idx : list nat) :
  random_ok rnd ->
  sample rnd calls n (Z.of_nat n) = Return idx ->
  forall i, (i < n)%nat -> In i idx.
Proof.
  intros Hrnd H i Hi. unfold sample in H.
  destruct ((Z.of_nat n <? 0)%Z || (Z.of_nat n <? Z.of_nat n)%Z); [discriminate|].
  inversion H as [E]. rewrite Nat2Z.id in *. clear H.
  assert (Hincl : incl (seq 0 n) (sample_draw rnd calls n n)).
  { apply NoDup_length_incl.
    - apply (sample_nodup rnd Hrnd). lia.
    - rewrite length_seq, (sample_length rnd Hrnd) by lia. lia.
    - intros j Hj. apply in_seq.
      pose proof (sample_range rnd Hrnd calls n n j (Nat.le_refl n) Hj). lia. }
  apply Hincl. apply in_seq. lia.
Qed.

(** C7: with a subsample size above the row count, every tree of the forest
    has a root of the size of the whole dataset, while the stored adjustment
    is that of the requested size, which is larger than that of the size the
    trees were built with. *)
Theorem fit_adjustment_not_clamped (rnd : Random) (X : Dataset) (calls calls' : nat)
  (n_samples max_depth n_trees : Z) (forest : IsolationForest.t) :
  (1 <= length X)%nat -> (Z.of_nat (length X) < n_samples)%Z ->
  IsolationForest.fit rnd X calls n_samples max_depth n_trees = Return (forest, calls') ->
  Forall (fun tree => root_size tree (Z.of_nat (length X))) (IsolationForest.trees forest) /\
  IsolationForest.adjustment forest = IsolationForest._get_adjustment n_samples /\
  (IsolationForest._get_adjustment (Z.of_nat (length X))
   < IsolationForest.adjustment forest)%R.
Proof.
  intros Hn Hlt Hfit.
  destruct (fit_inversion _ _ _ _ _ _ _ _ Hfit) as (Hadj & _ & Hall).
  split; [|split].
  - apply (Forall_impl _ (P := built rnd X n_samples max_depth)); [|exact Hall].
    intros tree (c & c' & Hinit).
    pose proof (init_root_size _ _ _ _ _ _ _ Hinit) as Hroot.
    unfold clamped in Hroot.
    destruct (Z.gtb_spec n_samples (Z.of_nat (length X))); [exact Hroot|lia].
  - exact Hadj.
  - rewrite Hadj. apply adjustment_strict; lia.
Qed.

Lemma fit_adjustment_not_clamped_witness :
  Forall (fun tree => root_size tree 4) (IsolationForest.trees demo_forest) /\
  IsolationForest.adjustment demo_forest = IsolationForest._get_adjustment 100 /\
  (IsolationForest._get_adjustment 4 < IsolationForest.adjustment demo_forest)%R.
Proof.
  apply (fit_adjustment_not_clamped demo_random demo_X 0 8 100 10 1 demo_forest).
  - simpl. lia.
  - simpl. lia.
  - apply fit_trees. vm_compute. reflexivity.
Defined.

(** ** The score of a row *)

Section Score.

Open Scope R_scope.

Lemma true_div_Return (a b q : R) :
  IsolationForest.true_div a b = Return q <-> b <> 0 /\ q = a / b.
Proof.
  unfold IsolationForest.true_div. destruct (Req_EM_T b 0) as [E|Hne]; split.
  - discriminate.
  - intros [H _]. contradiction.
  - intros H. inversion H. auto.
  - intros [_ ->]. reflexivity.
Qed.

Lemma true_div_zero (a : R) : IsolationForest.true_div a 0 = Raise ZeroDivisionError.
Proof.
  unfold IsolationForest.true_div. destruct (Req_EM_T 0 0) as [_|H];
    [reflexivity|contradiction].
Qed.

Lemma true_div_outcome (a b : R) :
  IsolationForest.true_div a b = Raise ZeroDivisionError \/
  exists q, IsolationForest.true_div a b = Return q.
Proof.
  unfold IsolationForest.true_div. destruct (Req_EM_T b 0); [left|right; eexists];
    reflexivity.
Qed.

(** The loop over the trees adds up the adjusted depths. *)
Lemma accumulate_spec (row : list Q) (trees : list IsolationTree.t) :
  forall acc total,
    IsolationForest.accumulate trees row acc = Return total <->
    exists results,
      tree_results trees row results /\
      total = acc + fold_right Rplus 0 (map adjusted results).
Proof.
  induction trees as [|tree rest IH]; intros acc total; simpl.
  - split.
    + intros H. inversion H. exists []. split; [constructor|simpl; lra].
    + intros (results & Hres & ->). inversion Hres. simpl. f_equal. lra.
  - split.
    + intros H.
      destruct (fst (IsolationTree._predict tree row)) as [[d sz]| |] eqn:Eq;
        simpl in H; try discriminate.
      apply IH in H. destruct H as (results & Hres & ->).
      exists ((d, sz) :: results). split; [constructor; assumption|].
      simpl.
      change (adjusted (d, sz)) with (INR d + IsolationForest._get_adjustment sz).
      lra.
    + intros (results & Hres & ->).
      inversion Hres as [|t [d sz] ts rs Hq Hrest]; subst.
      rewrite Hq. simpl. apply IH. exists rs. split; [exact Hrest|].
      simpl.
      change (adjusted (d, sz)) with (INR d + IsolationForest._get_adjustment sz).
      lra.
Qed.

Lemma INR_length_nonzero (A : Type) (l : list A) : INR (length l) <> 0 <-> l <> [].
Proof.
  destruct l as [|x l]; simpl length.
  - simpl. split; intros H; contradiction.
  - split; [discriminate|]. intros _. apply not_0_INR. discriminate.
Qed.

Lemma forest_predict_Return (forest : IsolationForest.t) (row : list Q) (s : R) :
  IsolationForest._predict forest row = Return s <->
  exists results,
    tree_results (IsolationForest.trees forest) row results /\
    IsolationForest.trees forest <> [] /\
    IsolationForest.adjustment forest <> 0 /\
    s = score_spec results (IsolationForest.adjustment forest).
Proof.
  unfold IsolationForest._predict. split.
  - intros H.
    destruct (IsolationForest.accumulate (IsolationForest.trees forest) row 0)
      as [total| |] eqn:Ea; simpl in H; try discriminate.
    apply accumulate_spec in Ea. destruct Ea as (results & Hres & ->).
    destruct (IsolationForest.true_div _ (INR (length (IsolationForest.trees forest))))
      as [mean| |] eqn:E1; simpl in H; try discriminate.
    apply true_div_Return in E1. destruct E1 as (Hn & ->).
    destruct (IsolationForest.true_div _ (IsolationForest.adjustment forest))
      as [q| |] eqn:E2; simpl in H; try discriminate.
    apply true_div_Return in E2. destruct E2 as (Hadj & ->).
    inversion H. exists results. split; [exact Hres|].
    split; [apply INR_length_nonzero; exact Hn|]. split; [exact Hadj|].
    unfold score_spec, mean_score.
    rewrite <- (Forall2_length Hres). repeat f_equal. lra.
  - intros (results & Hres & Hne & Hadj & ->).
    assert (Ea : IsolationForest.accumulate (IsolationForest.trees forest) row 0
                 = Return (0 + fold_right Rplus 0 (map adjusted results))).
    { apply accumulate_spec. exists results. auto. }
    rewrite Ea. cbn [bind].
    assert (E1 : IsolationForest.true_div (0 + fold_right Rplus 0 (map adjusted results))
                   (INR (length (IsolationForest.trees forest)))
                 = Return (mean_score results)).
    { apply true_div_Return. split; [apply INR_length_nonzero; exact Hne|].
      unfold mean_score. rewrite <- (Forall2_length Hres). f_equal. lra. }
    rewrite E1. cbn [bind].
    assert (E2 : IsolationForest.true_div (mean_score results)
                   (IsolationForest.adjustment forest)
                 = Return (mean_score results / IsolationForest.adjustment forest)).
    { apply true_div_Return. auto. }
    rewrite E2. reflexivity.
Qed.

Lemma forest_predict_rows (forest : IsolationForest.t) (X : Dataset) :
  forall ys,
    IsolationForest.predict forest X = Return ys <->
    Forall2 (fun row y => IsolationForest._predict forest row = Return y) X ys.
Proof.
  induction X as [|row rest IH]; intros ys; simpl.
  - split.
    + intros H. inversion H. constructor.
    + intros H. inversion H. reflexivity.
  - split.
    + intros H.
      destruct (IsolationForest._predict forest row) as [y| |] eqn:Ey; simpl in H;
        try discriminate.
      destruct (IsolationForest.predict forest rest) as [ys'| |] eqn:Er; simpl in H;
        try discriminate.
      inversion H. constructor; [exact Ey|]. apply IH. reflexivity.
    + intros H. inversion H as [|r y rs ys' Hy Hrest]; subst.
      rewrite Hy. simpl. apply IH in Hrest. rewrite Hrest. reflexivity.
Qed.

(** A zero adjustment: the second division raises, if the first did not. *)
Lemma predict_zero_adjustment (forest : IsolationForest.t) (row : list Q)
  (results : list (nat * Z)) :
  tree_results (IsolationForest.trees forest) row results ->
  IsolationForest.adjustment forest = 0 ->
  IsolationForest._predict forest row = Raise ZeroDivisionError.
Proof.
  intros Hres Hadj. unfold IsolationForest._predict.
  assert (Ea : IsolationForest.accumulate (IsolationForest.trees forest) row 0
               = Return (0 + fold_right Rplus 0 (map adjusted results))).
  { apply accumulate_spec. exists results. auto. }
  rewrite Ea. cbn [bind].
  destruct (true_div_outcome (0 + fold_right Rplus 0 (map adjusted results))
              (INR (length (IsolationForest.trees forest)))) as [E|(q & E)];
    rewrite E; cbn [bind]; [reflexivity|].
  rewrite Hadj, true_div_zero. reflexivity.
Qed.

Lemma adjusted_nonneg (result : nat * Z) : 0 <= adjusted result.
Proof.
  unfold adjusted. pose proof (pos_INR (fst result)).
  pose proof (adjustment_nonneg (snd result)). lra.
Qed.

Lemma sum_adjusted_nonneg (results : list (nat * Z)) :
  0 <= fold_right Rplus 0 (map adjusted results).
Proof.
  induction results as [|r rs IH]; simpl; [lra|].
  pose proof (adjusted_nonneg r). lra.
Qed.

(** With a positive adjustment the score lies in [(0, 1]]. *)
Lemma score_range (results : list (nat * Z)) (adjustment : R) :
  results <> [] -> 0 < adjustment ->
  0 < score_spec results adjustment <= 1.
Proof.
  intros Hne Hadj. unfold score_spec.
  assert (Hmean : 0 <= mean_score results).
  { unfold mean_score. apply Rmult_le_pos; [apply sum_adjusted_nonneg|].
    apply Rlt_le. apply Rinv_0_lt_compat.
    destruct results; [congruence|]. apply lt_0_INR. simpl. lia. }
  assert (Hq : 0 <= mean_score results / adjustment).
  { apply Rmult_le_pos; [exact Hmean|]. apply Rlt_le. apply Rinv_0_lt_compat. exact Hadj. }
  split.
  - unfold Rpower. apply exp_pos.
  - rewrite <- (Rpower_O 2) by lra. apply Rle_Rpower; lra.
Qed.

End Score.

(** ** Statements about the forest *)

(** C1: the score returned for a row is [2 ^ -(mean_score / adjustment)],
    where [mean_score] is the average over the trees of
    [depth_i + _get_adjustment leaf_size_i] and [(depth_i, leaf_size_i)] is
    what tree [i] returns for the row; it is returned whenever every tree
    returns a pair, there is at least one tree and the adjustment is not
    zero.  [predict] returns the scores of the rows, one per row and in the
    order of the rows. *)
Theorem forest_predict_spec (forest : IsolationForest.t) :
  (forall row s,
     IsolationForest._predict forest row = Return s <->
     exists results,
       tree_results (IsolationForest.trees forest) row results /\
       IsolationForest.trees forest <> [] /\
       IsolationForest.adjustment forest <> 0%R /\
       s = score_spec results (IsolationForest.adjustment forest)) /\
  (forall X ys,
     IsolationForest.predict forest X = Return ys <->
     Forall2 (fun row y => IsolationForest._predict forest row = Return y) X ys) /\
  (forall X ys,
     IsolationForest.predict forest X = Return ys -> length ys = length X).
Proof.
  split; [|split].
  - intros row s. apply forest_predict_Return.
  - intros X ys. apply forest_predict_rows.
  - intros X ys H. apply forest_predict_rows in H.
    symmetry. apply (Forall2_length H).
Qed.

Lemma forest_predict_spec_witness :
  IsolationForest._predict demo_forest [10;7]%Q
  = Return (score_spec [(2%nat, 1%Z)] (IsolationForest._get_adjustment 100)).
Proof.
  apply (proj1 (forest_predict_spec demo_forest)).
  exists [(2%nat, 1%Z)]. split; [|split; [|split]].
  - constructor; [vm_compute; reflexivity|constructor].
  - discriminate.
  - simpl. pose proof (adjustment_ge1 100 ltac:(lia)). lra.
  - reflexivity.
Defined.

(** Scores of a forest fitted with a subsample size of at least 2. *)
Lemma fit_predict_range (rnd : Random) (X : Dataset) (calls calls' : nat)
  (n_samples max_depth n_trees : Z) (forest : IsolationForest.t)
  (row : list Q) (s : R) :
  (2 <= n_samples)%Z ->
  IsolationForest.fit rnd X calls n_samples max_depth n_trees = Return (forest, calls') ->
  IsolationForest._predict forest row = Return s ->
  (0 < s <= 1)%R.
Proof.
  intros Hn Hfit Hs.
  destruct (fit_inversion _ _ _ _ _ _ _ _ Hfit) as (Hadj & _ & _).
  apply forest_predict_Return in Hs.
  destruct Hs as (results & Hres & Hne & _ & ->).
  apply score_range.
  - intros ->. inversion Hres. congruence.
  - rewrite Hadj. pose proof (adjustment_ge1 n_samples Hn). lra.
Qed.

(** C5: a forest fitted with a subsample size of 1 has adjustment 0, and
    scoring a row then ends in a division by zero although every tree
    answers the query. *)
Theorem predict_zero_division (rnd : Random) (X : Dataset) (calls calls' : nat)
  (max_depth n_trees : Z) (forest : IsolationForest.t) (row : list Q)
  (results : list (nat * Z)) :
  IsolationForest.fit rnd X calls 1 max_depth n_trees = Return (forest, calls') ->
  tree_results (IsolationForest.trees forest) row results ->
  IsolationForest._predict forest row = Raise ZeroDivisionError /\
  IsolationForest.predict forest [row] = Raise ZeroDivisionError.
Proof.
  intros Hfit Hres.
  destruct (fit_inversion _ _ _ _ _ _ _ _ Hfit) as (Hadj & _ & _).
  assert (H : IsolationForest._predict forest row = Raise ZeroDivisionError).
  { apply (predict_zero_adjustment forest row results Hres).
    rewrite Hadj. apply adjustment_le1. lia. }
  split; [exact H|]. simpl. rewrite H. reflexivity.
Qed.

Lemma predict_zero_division_witness :
  IsolationForest._predict single_forest [1;5]%Q = Raise ZeroDivisionError /\
  IsolationForest.predict single_forest [[1;5]%Q] = Raise ZeroDivisionError.
Proof.
  apply (predict_zero_division demo_random demo_X 0 2 10 1 single_forest [1;5]%Q
           [(0%nat, 1%Z)]).
  - apply fit_trees. vm_compute. reflexivity.
  - constructor; [vm_compute; reflexivity|constructor].
Defined.

(** * Further properties *)

(** ** The recorded height *)

Section Height.

Variable rnd : Random.
Variable X : Dataset.
Variable max_depth : Z.

Lemma frontier_head (low d nd : nat) (idx : list nat) que :
  frontier low ((d, nd, idx) :: que) ->
  (low <= d)%nat /\
  frontier d que /\
  frontier d (que ++ [(S d, nd, idx); (S d, nd, idx)]) /\
  forall a b i j, map entry_depth (que ++ [(S d, a, i); (S d, b, j)])
                  = map entry_depth (que ++ [(S d, nd, idx); (S d, nd, idx)]).
Proof.
  intros (j & k & E).
  change (map entry_depth ((d, nd, idx) :: que)) with (d :: map entry_depth que) in E.
  assert (Hmap : forall a b i i',
             map entry_depth (que ++ [(S d, a, i); (S d, b, i')])
             = map entry_depth que ++ repeat (S d) 2).
  { intros. rewrite map_app. reflexivity. }
  destruct j as [|j]; simpl in E.
  - destruct k as [|k]; simpl in E; [discriminate|].
    injection E as Ed Eq. subst d. split; [lia|]. split.
    + exists k, 0%nat. rewrite Eq, app_nil_r. reflexivity.
    + split; [|intros; rewrite !Hmap; reflexivity].
      exists k, 2%nat. rewrite Hmap, Eq. reflexivity.
  - injection E as Ed Eq. subst d. split; [lia|]. split.
    + exists j, k. exact Eq.
    + split; [|intros; rewrite !Hmap; reflexivity].
      exists j, (k + 2)%nat. rewrite Hmap, Eq, repeat_app, app_assoc. reflexivity.
Qed.

Lemma height_preserved (m : nat) (dp dp' : nat -> nat)
  (s s' : IsolationTree.build_state) :
  build_inv max_depth dp s -> height_inv max_depth dp s ->
  IsolationTree.loop_test max_depth s = true ->
  iteration rnd X m s s' ->
  (forall a, (a < length (IsolationTree.st_nodes s))%nat -> dp' a = dp a) ->
  height_inv max_depth dp' s'.
Proof.
  intros [_ _ Hque _] [(low & Hfr & Hlow) Hint _] Ht Hit Hdp.
  destruct (loop_test_head _ _ Ht) as (d0 & a0 & i0 & q0 & Eq & Hd).
  destruct Hit as [depth nd idx que feature calls Hq _ _ ->
                  |depth nd idx que feature calls point il ir Hq _ _ _ ->];
    rewrite Hq in Eq; inversion Eq; subst d0 a0 i0 q0; clear Eq;
    rewrite Hq in Hque, Hfr;
    destruct (Hque depth nd idx (or_introl eq_refl)) as (Hdnd & node & Hnode & Hl & Hr);
    assert (Hlt : (nd < length (IsolationTree.st_nodes s))%nat)
      by (apply nth_error_Some; congruence);
    destruct (frontier_head _ _ _ _ _ Hfr) as (Hlowd & Hfr1 & Hfr2 & Hmap);
    constructor; simpl.
  - exists depth. split; [exact Hfr1|]. intros h E. inversion E. lia.
  - intros a n' Hn' Hleft. exists depth. split; [reflexivity|].
    destruct (Nat.eq_dec nd a) as [<-|Hne].
    + rewrite (leaf_store_same _ _ _ _ Hnode) in Hn'. inversion Hn'. subst n'.
      simpl in Hleft. congruence.
    + rewrite leaf_store_other in Hn' by assumption.
      assert (Ha : (a < length (IsolationTree.st_nodes s))%nat)
        by (apply nth_error_Some; congruence).
      destruct (Hint a n' Hn' Hleft) as (h & Eh & Hah).
      rewrite (Hdp a Ha). pose proof (Hlow h Eh). lia.
  - intros h E. inversion E. subst h. exact Hd.
  - exists depth. split; [|intros h E; inversion E; lia].
    destruct Hfr2 as (j & k & E). exists j, k. rewrite <- E. apply Hmap.
  - intros a n' Hn' Hleft. exists depth. split; [reflexivity|].
    pose proof (split_store_length nd feature point (length il) (length ir)
                  (IsolationTree.st_nodes s)) as Hlen.
    destruct (nth_error_cases _ nd a n' _ Hlen Hn') as [->|[->|[->|[Hne Ha]]]].
    + rewrite (Hdp nd Hlt). lia.
    + rewrite split_store_left in Hn' by assumption. inversion Hn'. subst n'.
      simpl in Hleft. congruence.
    + rewrite split_store_right in Hn' by assumption. inversion Hn'. subst n'.
      simpl in Hleft. congruence.
    + rewrite split_store_other in Hn' by auto.
      destruct (Hint a n' Hn' Hleft) as (h & Eh & Hah).
      rewrite (Hdp a Ha). pose proof (Hlow h Eh). lia.
  - intros h E. inversion E. subst h. exact Hd.
Qed.

Lemma init_height (calls calls' : nat) (n_samples : Z) (tree : IsolationTree.t) :
  IsolationTree.__init__ rnd X calls n_samples max_depth = Return (tree, calls') ->
  exists dp,
    shaped (Z.of_nat (IsolationTree.height tree)) dp (IsolationTree.nodes tree) /\
    dp 0%nat = 0%nat /\
    (Z.of_nat (IsolationTree.height tree) <= max_depth)%Z.
Proof.
  intros H.
  destruct (init_inversion _ _ _ _ _ _ _ H)
    as (row0 & idx & s & _ & _ & El & Ed & En & _ & _).
  apply (loop_induction rnd X
           (fun s => exists dp, build_inv max_depth dp s /\ height_inv max_depth dp s)
           (length row0) max_depth) in El.
  - destruct El as (dp & [[Hpair Hchild] [Hroot _] _ _] & [_ Hint Hb]).
    exists dp. rewrite En. split; [|split; [exact Hroot|apply Hb; exact Ed]].
    constructor; [exact Hpair|].
    intros a node c Hn Hc. destruct (Hchild a node c Hn Hc) as (Hord & Hdc & _).
    split; [exact Hord|]. split; [exact Hdc|].
    assert (Hleft : left node <> None).
    { destruct Hc as [Hc|Hc]; [congruence|].
      intros Hl. apply (Hpair a node Hn) in Hl. congruence. }
    destruct (Hint a node Hn Hleft) as (h & Eh & Hah).
    rewrite Ed in Eh. inversion Eh. lia.
  - intros s0 s1 (dp & Hinv & Hh) Ht Hit.
    destruct (iteration_preserves rnd X _ max_depth dp s0 s1 Hinv Ht Hit)
      as (dp1 & H1 & Hagree).
    exists dp1. split; [exact H1|].
    apply (height_preserved (length row0) dp dp1 s0 s1 Hinv Hh Ht); [|exact Hagree].
    exact Hit.
  - exists (fun _ => 0%nat). split; [apply initial_inv|].
    constructor; simpl.
    + exists 0%nat. split; [exists 1%nat, 0%nat; reflexivity|discriminate].
    + intros [|a] node Hn Hleft; simpl in Hn.
      * inversion Hn. subst node. simpl in Hleft. congruence.
      * destruct a; discriminate.
    + discriminate.
Qed.

End Height.

(** X1: the height a tree records is at most [max_depth], and no query goes
    deeper than one level below it. *)
Theorem tree_height_bounds (rnd : Random) (X : Dataset) (calls calls' : nat)
  (n_samples max_depth : Z) (tree : IsolationTree.t) :
  IsolationTree.__init__ rnd X calls n_samples max_depth = Return (tree, calls') ->
  (Z.of_nat (IsolationTree.height tree) <= max_depth)%Z /\
  forall row d sz,
    fst (IsolationTree._predict tree row) = Return (d, sz) ->
    (d <= S (IsolationTree.height tree))%nat.
Proof.
  intros Hinit.
  destruct (init_height _ _ _ _ _ _ _ Hinit) as (dp & Hsh & Hdp & Hmd).
  destruct (init_shaped _ _ _ _ _ _ _ Hinit) as (Hroot & _).
  split; [exact Hmd|].
  intros row d sz Hq. unfold IsolationTree._predict in Hq. rewrite Hroot in Hq.
  rewrite <- Hdp in Hq at 2.
  pose proof (descend_depth _ _ _ _ Hsh _ _ _ _ ltac:(rewrite Hdp; lia) Hq). lia.
Qed.

Lemma tree_height_bounds_witness :
  (Z.of_nat (IsolationTree.height demo_tree) <= 10)%Z /\
  forall row d sz,
    fst (IsolationTree._predict demo_tree row) = Return (d, sz) ->
    (d <= S (IsolationTree.height demo_tree))%nat.
Proof.
  apply (tree_height_bounds demo_random demo_X 0 8 100 10 demo_tree).
  vm_compute. reflexivity.
Defined.

(** ** Sizes along a path *)

Section Conservation.

Variable rnd : Random.
Variable X : Dataset.
Hypothesis Hrnd : random_ok rnd.

Lemma split_rows_lengths (feature : nat) (point : Q) (pending : list nat) :
  forall l r l' r',
    IsolationTree.split_rows X feature point pending l r = Return (l', r') ->
    (length l' + length r' = length l + length r + length pending)%nat.
Proof.
  induction pending as [|i pending IH]; intros l r l' r' H; simpl in H.
  - inversion H. subst. simpl. lia.
  - destruct (getitem X i) as [row| |]; simpl in H; try discriminate.
    destruct (getitem row feature) as [x| |]; simpl in H; try discriminate.
    destruct (Qltb x point); apply IH in H; rewrite length_app in H; simpl in *; lia.
Qed.

Lemma conserve_preserved (m : nat) (max_depth : Z) (dp : nat -> nat)
  (s s' : IsolationTree.build_state) :
  build_inv max_depth dp s -> conserve_inv s ->
  iteration rnd X m s s' -> conserve_inv s'.
Proof.
  intros [[_ Hchild] _ Hque Hnd] [Hcq Hsum] Hit.
  destruct Hit as [depth nd idx que feature calls Hq _ _ ->
                  |depth nd idx que feature calls point il ir Hq _ _ Hsr ->];
    rewrite Hq in Hque, Hnd, Hcq;
    destruct (Hque depth nd idx (or_introl eq_refl)) as (_ & node & Hnode & Hl & Hr);
    destruct (Hcq depth nd idx (or_introl eq_refl)) as (node0 & Hnode0 & Hsize);
    rewrite Hnode in Hnode0; inversion Hnode0; subst node0; clear Hnode0;
    assert (Hlt : (nd < length (IsolationTree.st_nodes s))%nat)
      by (apply nth_error_Some; congruence);
    simpl in Hnd; inversion Hnd as [|? ? Hnotin Hnd']; subst;
    set (st := IsolationTree.st_nodes s) in *.
  - (* no split *)
    assert (Hget : forall b n', nth_error (leaf_store nd feature st) b = Some n' ->
               exists n, nth_error st b = Some n /\ size n' = size n /\
                         left n' = left n /\ right n' = right n).
    { intros b n' H. destruct (Nat.eq_dec nd b) as [<-|Hne].
      - rewrite (leaf_store_same _ _ _ _ Hnode) in H. inversion H. exists node. auto.
      - rewrite leaf_store_other in H by assumption. exists n'. auto. }
    constructor; simpl.
    + intros d a idx' Hin.
      destruct (Hcq d a idx' (or_intror Hin)) as (n & Hn & Hs).
      assert (Hne : nd <> a).
      { intros <-. apply Hnotin.
        apply (in_map (fun entry => snd (fst entry))) in Hin. exact Hin. }
      exists n. rewrite leaf_store_other by assumption. auto.
    + intros a n' l r nl nr Ha Hal Har Hnl Hnr.
      destruct (Hget _ _ Ha) as (n & Hn & Es & El & Er).
      destruct (Hget _ _ Hnl) as (nl0 & Hnl0 & Esl & _).
      destruct (Hget _ _ Hnr) as (nr0 & Hnr0 & Esr & _).
      rewrite Es, Esl, Esr. rewrite El in Hal. rewrite Er in Har.
      apply (Hsum a n l r nl0 nr0); assumption.
  - (* split *)
    set (n := length st) in *.
    set (st' := split_store nd feature point (length il) (length ir) st).
    assert (Hlen' : length st' = S (S n)) by apply split_store_length.
    assert (Hsame : nth_error st' nd
                    = Some (mkNode (size node) (Some feature) (Some point)
                              (Some n) (Some (S n))))
      by (apply split_store_same; exact Hnode).
    assert (Hleft : nth_error st' n = Some (new_Node (Z.of_nat (length il))))
      by (apply split_store_left; exact Hlt).
    assert (Hright : nth_error st' (S n) = Some (new_Node (Z.of_nat (length ir))))
      by (apply split_store_right; exact Hlt).
    assert (Hother : forall a, a <> nd -> (a < n)%nat -> nth_error st' a = nth_error st a).
    { intros a Hne Ha. apply split_store_other; auto. }
    assert (Hold : forall b n', (b < n)%nat -> nth_error st' b = Some n' ->
               exists n0, nth_error st b = Some n0 /\ size n' = size n0).
    { intros b n' Hb H. destruct (Nat.eq_dec b nd) as [->|Hne].
      - rewrite Hsame in H. inversion H. exists node. auto.
      - rewrite Hother in H by assumption. exists n'. auto. }
    pose proof (split_rows_lengths _ _ _ _ _ _ _ Hsr) as Hsplit.
    rewrite length_rev in Hsplit. simpl in Hsplit.
    constructor; simpl; fold st; fold n; fold st'.
    + intros d a idx' Hin. apply in_app_or in Hin. destruct Hin as [Hin|Hin].
      * destruct (Hcq d a idx' (or_intror Hin)) as (n0 & Hn0 & Hs).
        assert (Ha : (a < n)%nat) by (apply nth_error_Some; fold st in Hn0; congruence).
        assert (Hne : a <> nd).
        { intros ->. apply Hnotin.
          apply (in_map (fun entry => snd (fst entry))) in Hin. exact Hin. }
        exists n0. rewrite Hother by assumption. auto.
      * simpl in Hin. destruct Hin as [Hin|[Hin|[]]]; inversion Hin; subst.
        -- eexists. split; [exact Hleft|reflexivity].
        -- eexists. split; [exact Hright|reflexivity].
    + intros a n' l r nl nr Ha Hal Har Hnl Hnr.
      destruct (nth_error_cases st nd a n' st' Hlen' Ha) as [->|[->|[->|[Hne Hb]]]].
      * rewrite Hsame in Ha. inversion Ha. subst n'. simpl in Hal, Har.
        inversion Hal. inversion Har. subst l r.
        rewrite Hleft in Hnl. rewrite Hright in Hnr.
        inversion Hnl. inversion Hnr. simpl. lia.
      * fold n in Ha. rewrite Hleft in Ha. inversion Ha. subst n'. discriminate.
      * fold n in Ha. rewrite Hright in Ha. inversion Ha. subst n'. discriminate.
      * rewrite Hother in Ha by assumption.
        destruct (Hchild a n' l Ha (or_introl Hal)) as (Hl' & _).
        destruct (Hchild a n' r Ha (or_intror Har)) as (Hr' & _).
        fold st in Hl', Hr'. fold n in Hl', Hr'.
        destruct (Hold l nl ltac:(lia) Hnl) as (nl0 & Hnl0 & ->).
        destruct (Hold r nr ltac:(lia) Hnr) as (nr0 & Hnr0 & ->).
        apply (Hsum a n' l r nl0 nr0); assumption.
Qed.

Lemma features_preserved (m : nat) (max_depth : Z) (dp : nat -> nat)
  (s s' : IsolationTree.build_state) :
  build_inv max_depth dp s -> features_ok m (IsolationTree.st_nodes s) ->
  iteration rnd X m s s' -> features_ok m (IsolationTree.st_nodes s').
Proof.
  intros [_ _ Hque _] Hf Hit.
  destruct Hit as [depth nd idx que feature calls Hq _ _ ->
                  |depth nd idx que feature calls point il ir Hq Hc _ _ ->];
    rewrite Hq in Hque;
    destruct (Hque depth nd idx (or_introl eq_refl)) as (_ & node & Hnode & Hl & Hr);
    assert (Hlt : (nd < length (IsolationTree.st_nodes s))%nat)
      by (apply nth_error_Some; congruence);
    simpl; intros a n' Ha Hleft.
  - destruct (Nat.eq_dec nd a) as [<-|Hne].
    + rewrite (leaf_store_same _ _ _ _ Hnode) in Ha. inversion Ha. subst n'.
      simpl in Hleft. congruence.
    + rewrite leaf_store_other in Ha by assumption. apply (Hf a n' Ha Hleft).
  - pose proof (split_store_length nd feature point (length il) (length ir)
                  (IsolationTree.st_nodes s)) as Hlen.
    destruct (nth_error_cases _ nd a n' _ Hlen Ha) as [->|[->|[->|[Hne Hb]]]].
    + rewrite (split_store_same _ _ _ _ _ _ _ Hnode) in Ha. inversion Ha. simpl.
      exists feature, point. split; [reflexivity|]. split; [|reflexivity].
      unfold choice in Hc. destruct (Nat.eqb_spec m 0) as [?|Hm]; [discriminate|].
      inversion Hc. apply (choice_range rnd Hrnd). lia.
    + rewrite split_store_left in Ha by assumption. inversion Ha. subst n'.
      simpl in Hleft. congruence.
    + rewrite split_store_right in Ha by assumption. inversion Ha. subst n'.
      simpl in Hleft. congruence.
    + rewrite split_store_other in Ha by auto. apply (Hf a n' Ha Hleft).
Qed.

(** What a built tree keeps of the loop's bookkeeping. *)
Lemma init_conserving (calls calls' : nat) (n_samples max_depth : Z)
  (tree : IsolationTree.t) (row0 : list Q) :
  getitem X 0 = Return row0 ->
  IsolationTree.__init__ rnd X calls n_samples max_depth = Return (tree, calls') ->
  conserving (IsolationTree.nodes tree) /\
  features_ok (length row0) (IsolationTree.nodes tree).
Proof.
  intros Hrow0 H.
  destruct (init_inversion _ _ _ _ _ _ _ H)
    as (row0' & idx & s & Hr & Hs & El & _ & En & _ & _).
  rewrite Hrow0 in Hr. inversion Hr. subst row0'. clear Hr.
  fold (clamped X n_samples) in Hs, El. set (ns := clamped X n_samples) in *.
  rewrite En.
  apply (loop_induction rnd X
           (fun s => (exists dp, build_inv max_depth dp s) /\ conserve_inv s /\
                     features_ok (length row0) (IsolationTree.st_nodes s))
           (length row0) max_depth) in El.
  - destruct El as (_ & [_ Hsum] & Hf). auto.
  - intros s0 s1 ((dp & Hinv) & Hc & Hf) Ht Hit. split; [|split].
    + destruct (iteration_preserves rnd X _ max_depth dp s0 s1 Hinv Ht Hit)
        as (dp1 & H1 & _).
      exists dp1. exact H1.
    + apply (conserve_preserved _ _ _ _ _ Hinv Hc Hit).
    + apply (features_preserved _ _ _ _ _ Hinv Hf Hit).
  - split; [exists (fun _ => 0%nat); apply initial_inv|]. split.
    + constructor; simpl.
      * intros d nd idx' [E|[]]. inversion E. subst.
        exists (new_Node ns). split; [reflexivity|]. simpl.
        unfold sample in Hs.
        destruct (Z.ltb_spec ns 0) as [?|Hns]; [discriminate|].
        destruct (Z.ltb_spec (Z.of_nat (length X)) ns) as [?|Hn]; [discriminate|].
        simpl in Hs. inversion Hs.
        rewrite (sample_length rnd Hrnd) by lia. lia.
      * intros [|a] node l r nl nr Ha Hl; simpl in Ha.
        -- inversion Ha. subst node. discriminate.
        -- destruct a; discriminate.
    + intros [|a] node Ha Hleft; simpl in Ha.
      * inversion Ha. subst node. simpl in Hleft. congruence.
      * destruct a; discriminate.
Qed.

End Conservation.

Section DescendSizes.

Variable st : Store.
Variable row : list Q.
Variable max_depth : Z.
Variable dp : nat -> nat.
Hypothesis Hshaped : shaped max_depth dp st.

(** Every edge of a path leaves at least one row behind. *)
Lemma descend_sizes (budget : nat) :
  conserving st -> sizes_inv st ->
  forall nd depth d sz node,
    nth_error st nd = Some node -> (1 <= size node)%Z ->
    fst (IsolationTree.descend budget st row nd depth) = Return (d, sz) ->
    (1 <= sz)%Z /\ (Z.of_nat d + sz <= Z.of_nat depth + size node)%Z.
Proof.
  intros Hsum Hsz.
  induction budget as [|budget IH]; intros nd depth d sz node Hn Hpos; simpl;
    rewrite (proj2 (deref_Return st nd node) Hn);
    destruct (left node) as [l|] eqn:El; destruct (right node) as [r|] eqn:Er;
    simpl; try discriminate;
    try (intros H; inversion H; subst; split; [exact Hpos|lia]).
  destruct (shaped_child _ _ _ Hshaped nd node l Hn (or_introl El)) as (Hl & _).
  destruct (shaped_child _ _ _ Hshaped nd node r Hn (or_intror Er)) as (Hr & _).
  destruct (nth_error st l) as [nl|] eqn:Enl; [|apply nth_error_None in Enl; lia].
  destruct (nth_error st r) as [nr|] eqn:Enr; [|apply nth_error_None in Enr; lia].
  pose proof (Hsum nd node l r nl nr Hn El Er Enl Enr) as Hadd.
  pose proof (Hsz l nl ltac:(lia) Enl) as Hpl.
  pose proof (Hsz r nr ltac:(lia) Enr) as Hpr.
  destruct (split_feature node) as [feature|]; simpl; try discriminate.
  destruct (getitem row feature) as [x| |]; simpl; try discriminate.
  destruct (split_point node) as [point|]; simpl; try discriminate.
  destruct (Qltb x point); intros H.
  - destruct (IH l (S depth) d sz nl Enl Hpl H) as (H1 & H2). split; [exact H1|lia].
  - destruct (IH r (S depth) d sz nr Enr Hpr H) as (H1 & H2). split; [exact H1|lia].
Qed.

(** A row with a value for every column is carried down to a leaf. *)
Lemma descend_returns (m : nat) (budget : nat) :
  features_ok m st -> (m <= length row)%nat ->
  forall nd depth,
    (nd < length st)%nat -> (length st - nd <= budget)%nat ->
    exists d sz, fst (IsolationTree.descend budget st row nd depth) = Return (d, sz).
Proof.
  intros Hf Hrow.
  induction budget as [|budget IH]; intros nd depth Hnd Hb; [lia|].
  destruct (nth_error st nd) as [node|] eqn:Hn; [|apply nth_error_None in Hn; lia].
  simpl. rewrite (proj2 (deref_Return st nd node) Hn).
  destruct (left node) as [l|] eqn:El; destruct (right node) as [r|] eqn:Er;
    simpl; try (eexists; eexists; reflexivity).
  destruct (shaped_child _ _ _ Hshaped nd node l Hn (or_introl El)) as (Hl & _).
  destruct (shaped_child _ _ _ Hshaped nd node r Hn (or_intror Er)) as (Hr & _).
  destruct (Hf nd node Hn ltac:(congruence)) as (feature & point & Ef & Hlt & Ep).
  rewrite Ef. unfold getitem.
  destruct (nth_error row feature) as [x|] eqn:Ex; [|apply nth_error_None in Ex; lia].
  rewrite Ep.
  destruct (Qltb x point); apply IH; lia.
Qed.

End DescendSizes.

(** X2: in a built tree the size of every node with children is the sum of
    the sizes of its two children. *)
Theorem tree_sizes_add_up (rnd : Random) (X : Dataset) (calls calls' : nat)
  (n_samples max_depth : Z) (tree : IsolationTree.t) :
  random_ok rnd ->
  IsolationTree.__init__ rnd X calls n_samples max_depth = Return (tree, calls') ->
  forall a node l r node_l node_r,
    nth_error (IsolationTree.nodes tree) a = Some node ->
    left node = Some l -> right node = Some r ->
    nth_error (IsolationTree.nodes tree) l = Some node_l ->
    nth_error (IsolationTree.nodes tree) r = Some node_r ->
    size node = (size node_l + size node_r)%Z.
Proof.
  intros Hrnd Hinit.
  destruct (init_inversion _ _ _ _ _ _ _ Hinit) as (row0 & _ & _ & Hrow0 & _).
  destruct (init_conserving rnd X Hrnd _ _ _ _ _ _ Hrow0 Hinit) as (Hsum & _).
  exact Hsum.
Qed.

Lemma tree_sizes_add_up_witness :
  size (mkNode 4 (Some 1%nat) (Some (28 # 4)%Q) (Some 1%nat) (Some 2%nat))
  = (size (mkNode 2 (Some 1%nat) None None None)
     + size (mkNode 2 (Some 0%nat) (Some (40 # 4)%Q) (Some 3%nat) (Some 4%nat)))%Z.
Proof.
  apply (tree_sizes_add_up demo_random demo_X 0 8 100 10 demo_tree
           demo_random_ok ltac:(vm_compute; reflexivity) 0%nat _ 1%nat 2%nat);
    reflexivity.
Defined.

(** X3: a query on a built tree returns a leaf size of at least 1, and the
    depth and the leaf size together do not exceed the subsample size the
    tree was built with. *)
Theorem tree_predict_size_bounds (rnd : Random) (X : Dataset) (calls calls' : nat)
  (n_samples max_depth : Z) (tree : IsolationTree.t) (row : list Q)
  (d : nat) (sz : Z) :
  random_ok rnd -> (1 <= n_samples)%Z ->
  IsolationTree.__init__ rnd X calls n_samples max_depth = Return (tree, calls') ->
  fst (IsolationTree._predict tree row) = Return (d, sz) ->
  (1 <= sz)%Z /\ (Z.of_nat d + sz <= clamped X n_samples)%Z.
Proof.
  intros Hrnd Hn Hinit Hq.
  destruct (init_inversion _ _ _ _ _ _ _ Hinit) as (row0 & _ & _ & Hrow0 & _).
  destruct (init_conserving rnd X Hrnd _ _ _ _ _ _ Hrow0 Hinit) as (Hsum & _).
  pose proof (init_sizes rnd X (random_range rnd Hrnd) _ _ _ _ _ Hinit) as Hsz.
  destruct (init_shaped _ _ _ _ _ _ _ Hinit) as (Hroot & dp & Hsh & _ & _).
  destruct (init_root_size _ _ _ _ _ _ _ Hinit) as (node & Hnode & Hsize).
  assert (Hpos : (1 <= clamped X n_samples)%Z).
  { unfold clamped. unfold getitem in Hrow0.
    destruct X as [|r0 X']; [discriminate|].
    destruct (Z.gtb_spec n_samples (Z.of_nat (length (r0 :: X')))); simpl length; lia. }
  unfold IsolationTree._predict in Hq.
  destruct (descend_sizes _ row _ _ Hsh _ Hsum Hsz _ _ _ _ node Hnode
              ltac:(rewrite Hsize; exact Hpos) Hq) as (H1 & H2).
  split; [exact H1|]. rewrite Hsize in H2. lia.
Qed.

Lemma tree_predict_size_bounds_witness :
  (1 <= 1)%Z /\ (Z.of_nat 2 + 1 <= clamped demo_X 100)%Z.
Proof.
  apply (tree_predict_size_bounds demo_random demo_X 0 8 100 10 demo_tree
           [10;7]%Q 2 1).
  - exact demo_random_ok.
  - lia.
  - vm_compute. reflexivity.
  - vm_compute. reflexivity.
Defined.

(** X4: a query on a built tree returns a pair for every row that has at
    least as many columns as the first row of the training dataset. *)
Theorem tree_predict_total (rnd : Random) (X : Dataset) (calls calls' : nat)
  (n_samples max_depth : Z) (tree : IsolationTree.t) (row0 row : list Q) :
  random_ok rnd -> getitem X 0 = Return row0 ->
  IsolationTree.__init__ rnd X calls n_samples max_depth = Return (tree, calls') ->
  (length row0 <= length row)%nat ->
  exists d sz, fst (IsolationTree._predict tree row) = Return (d, sz).
Proof.
  intros Hrnd Hrow0 Hinit Hlen.
  destruct (init_conserving rnd X Hrnd _ _ _ _ _ _ Hrow0 Hinit) as (_ & Hf).
  destruct (init_shaped _ _ _ _ _ _ _ Hinit) as (Hroot & dp & Hsh & _ & Hpos).
  unfold IsolationTree._predict. rewrite Hroot.
  apply (descend_returns _ row _ _ Hsh _ _ Hf Hlen); lia.
Qed.

Lemma tree_predict_total_witness :
  exists d sz, fst (IsolationTree._predict demo_tree [0;0;0]%Q) = Return (d, sz).
Proof.
  apply (tree_predict_total demo_random demo_X 0 8 100 10 demo_tree [1;5]%Q [0;0;0]%Q).
  - exact demo_random_ok.
  - reflexivity.
  - vm_compute. reflexivity.
  - simpl. lia.
Defined.

(** ** Scores of a fitted forest *)






(** ** A dataset of identical rows *)

Section Identical.

Variable rnd : Random.
Variable X : Dataset.
Variable row0 : list Q.
Hypothesis Hsame : identical_rows X row0.

Lemma Forall2_nth_error (row : list Q) :
  forall row' f x,
    Forall2 Qeq row row' -> nth_error row f = Some x ->
    exists x', nth_error row' f = Some x' /\ (x == x')%Q.
Proof.
  induction row as [|y row IH]; intros row' f x H Hx.
  - destruct f; discriminate.
  - inversion H as [|? y' ? rest Hy Hrest]; subst. destruct f as [|f]; simpl in *.
    + inversion Hx. subst. exists y'. auto.
    + apply (IH rest f x Hrest Hx).
Qed.

Lemma constant_column (idx : list nat) (feature : nat) (vs : list Q) :
  IsolationTree.column X idx feature = Return vs -> all_equal vs.
Proof.
  intros Hcol.
  assert (H : forall v, In v vs ->
            exists x0, nth_error row0 feature = Some x0 /\ (v == x0)%Q).
  { intros v Hv. destruct (column_value X _ _ _ _ Hcol Hv) as (i & _ & Hc).
    unfold cell, getitem in Hc.
    destruct (nth_error X i) as [row|] eqn:Er; simpl in Hc; [|discriminate].
    destruct (nth_error row feature) as [x|] eqn:Ex; [|discriminate].
    inversion Hc. subst x.
    apply (Forall2_nth_error row row0 feature v (Hsame row (nth_error_In _ _ Er)) Ex). }
  intros x y Hx Hy.
  destruct (H x Hx) as (x0 & E0 & Ex). destruct (H y Hy) as (y0 & E1 & Ey).
  rewrite E0 in E1. inversion E1. subst y0. rewrite Ex, Ey. reflexivity.
Qed.

(** No node is ever split: the tree is its root. *)
Lemma init_single_leaf (calls calls' : nat) (n_samples max_depth : Z)
  (tree : IsolationTree.t) :
  IsolationTree.__init__ rnd X calls n_samples max_depth = Return (tree, calls') ->
  exists node,
    IsolationTree.nodes tree = [node] /\ IsolationTree.root tree = 0%nat /\
    left node = None /\ size node = clamped X n_samples.
Proof.
  intros H.
  destruct (init_inversion _ _ _ _ _ _ _ H)
    as (r0 & idx & s & _ & _ & El & _ & En & Er & _).
  fold (clamped X n_samples) in El. rewrite En, Er.
  apply (loop_induction rnd X
           (fun s => (exists node,
                        IsolationTree.st_nodes s = [node] /\ left node = None /\
                        size node = clamped X n_samples) /\
                     (IsolationTree.st_que s = [] \/
                      exists idx, IsolationTree.st_que s = [(0%nat, 0%nat, idx)]))
           (length r0) max_depth) in El.
  - destruct El as ((node & E & Hl & Hs) & _). exists node. auto.
  - intros s0 s1 ((node & E & Hl & Hs) & Hq) Ht Hit.
    destruct (loop_test_head _ _ Ht) as (d & a & i & q & Eq & _).
    destruct Hq as [Hq|(idx0 & Hq)]; rewrite Hq in Eq; [discriminate|].
    inversion Eq. subst d a i q. clear Eq.
    destruct Hit as [depth nd idx' que feature c Hq' _ _ ->
                    |depth nd idx' que feature c point il ir Hq' _ Hsplit _ ->];
      rewrite Hq in Hq'; inversion Hq'; subst depth nd idx' que; clear Hq'.
    + simpl. rewrite E. split; [|left; reflexivity].
      eexists. split; [reflexivity|]. simpl. auto.
    + exfalso.
      destruct (get_split_column _ _ _ _ _ _ Hsplit) as (vs & Hcol).
      pose proof (constant_column _ _ _ Hcol) as Hall.
      destruct vs as [|v vs].
      * apply column_length in Hcol. destruct idx0; [|discriminate].
        rewrite get_split_empty in Hsplit. discriminate.
      * rewrite (get_split_none rnd X _ _ _ _ Hcol ltac:(discriminate) Hall) in Hsplit.
        discriminate.
  - simpl. split; [|right; exists idx; reflexivity].
    eexists. split; [reflexivity|]. simpl. auto.
Qed.

Lemma single_leaf_query (tree : IsolationTree.t) (node : Node) (row : list Q) :
  IsolationTree.nodes tree = [node] -> IsolationTree.root tree = 0%nat ->
  left node = None ->
  fst (IsolationTree._predict tree row) = Return (0%nat, size node).
Proof.
  intros En Er Hl. unfold IsolationTree._predict. rewrite En, Er. simpl.
  rewrite Hl. reflexivity.
Qed.

End Identical.

Lemma sum_repeat (result : nat * Z) (k : nat) :
  fold_right Rplus 0%R (map adjusted (repeat result k)) = (INR k * adjusted result)%R.
Proof.
  induction k as [|k IH].
  - simpl. lra.
  - change (repeat result (S k)) with (result :: repeat result k).
    rewrite S_INR. simpl. rewrite IH. lra.
Qed.

(** On identical rows every tree of a fitted forest is its root alone, and
    answers every query at depth 0 with the clamped subsample size. *)
Lemma identical_rows_trees (rnd : Random) (X : Dataset) (row0 : list Q)
  (calls calls' : nat) (n_samples max_depth n_trees : Z)
  (forest : IsolationForest.t) :
  identical_rows X row0 ->
  IsolationForest.fit rnd X calls n_samples max_depth n_trees = Return (forest, calls') ->
  Forall (fun tree => length (IsolationTree.nodes tree) = 1%nat /\
                      forall row, fst (IsolationTree._predict tree row)
                                  = Return (0%nat, clamped X n_samples))
    (IsolationForest.trees forest).
Proof.
  intros Hsame Hfit.
  destruct (fit_inversion _ _ _ _ _ _ _ _ Hfit) as (_ & _ & Hbuilt).
  apply (Forall_impl _ (P := built rnd X n_samples max_depth)); [|exact Hbuilt].
  intros tree (c & c' & Hinit).
  destruct (init_single_leaf rnd X row0 Hsame _ _ _ _ _ Hinit)
    as (node & En & Er & Hl & Hs).
  split; [rewrite En; reflexivity|].
  intros row. rewrite <- Hs. apply (single_leaf_query tree node row En Er Hl).
Qed.

(** X6: on a dataset whose rows are all equal no tree of a fitted forest
    splits its root: every tree has one node, and answers every query, for
    any row, with depth 0 and the clamped subsample size. *)
Theorem identical_rows_single_leaf (rnd : Random) (X : Dataset) (row0 : list Q)
  (calls calls' : nat) (n_samples max_depth n_trees : Z)
  (forest : IsolationForest.t) :
  identical_rows X row0 ->
  IsolationForest.fit rnd X calls n_samples max_depth n_trees = Return (forest, calls') ->
  Forall (fun tree => length (IsolationTree.nodes tree) = 1%nat /\
                      forall row, fst (IsolationTree._predict tree row)
                                  = Return (0%nat, clamped X n_samples))
    (IsolationForest.trees forest).
Proof. apply identical_rows_trees. Qed.

Lemma identical_rows_single_leaf_witness :
  Forall (fun tree => length (IsolationTree.nodes tree) = 1%nat /\
                      forall row, fst (IsolationTree._predict tree row)
                                  = Return (0%nat, clamped flat_X 2))
    (IsolationForest.trees flat_forest).
Proof.
  apply (identical_rows_single_leaf demo_random flat_X [3;4]%Q 0 2 2 10 1 flat_forest).
  - intros row Hin. simpl in Hin.
    destruct Hin as [<-|[<-|[<-|[]]]]; repeat constructor.
  - apply fit_trees. vm_compute. reflexivity.
Defined.

(** X17: in exact real arithmetic, a forest fitted on identical rows with a
    subsample size of at least 2 and at least one tree gives every row the
    score [2 ^ -(c(size) / c(n_samples))], where [size] is the clamped
    subsample size: one half when the subsample size does not exceed the
    row count. *)
Theorem identical_rows_score (rnd : Random) (X : Dataset) (row0 : list Q)
  (calls calls' : nat) (n_samples max_depth n_trees : Z)
  (forest : IsolationForest.t) (row : list Q) :
  identical_rows X row0 -> (2 <= n_samples)%Z -> (1 <= n_trees)%Z ->
  IsolationForest.fit rnd X calls n_samples max_depth n_trees = Return (forest, calls') ->
  IsolationForest._predict forest row
  = Return (Rpower 2 (- (IsolationForest._get_adjustment (clamped X n_samples)
                         / IsolationForest._get_adjustment n_samples))) /\
  ((n_samples <= Z.of_nat (length X))%Z ->
   IsolationForest._predict forest row = Return (/ 2)%R).
Proof.
  intros Hsame Hn Ht Hfit.
  destruct (fit_inversion _ _ _ _ _ _ _ _ Hfit) as (Hadj & Hlen & _).
  assert (Hall : Forall (fun tree => fst (IsolationTree._predict tree row)
                                     = Return (0%nat, clamped X n_samples))
                   (IsolationForest.trees forest)).
  { pose proof (identical_rows_trees _ _ _ _ _ _ _ _ _ Hsame Hfit) as Htrees.
    revert Htrees. apply Forall_impl. intros tree (_ & Hq). apply Hq. }
  set (cl := clamped X n_samples) in *.
  set (k := length (IsolationForest.trees forest)) in *.
  assert (Hres : tree_results (IsolationForest.trees forest) row (repeat (0%nat, cl) k)).
  { unfold tree_results, k. clear -Hall.
    induction Hall as [|tree rest Hq _ IH]; simpl; constructor; assumption. }
  assert (Hne : IsolationForest.trees forest <> []).
  { intros E. unfold k in Hlen. rewrite E in Hlen. simpl in Hlen. lia. }
  assert (Hpos : (1 <= IsolationForest._get_adjustment n_samples)%R)
    by (apply adjustment_ge1; exact Hn).
  assert (Hk : INR k <> 0%R) by (apply INR_length_nonzero; exact Hne).
  assert (Hscore : IsolationForest._predict forest row
                   = Return (Rpower 2 (- (IsolationForest._get_adjustment cl
                                          / IsolationForest._get_adjustment n_samples)))).
  { apply forest_predict_Return. exists (repeat (0%nat, cl) k).
    split; [exact Hres|]. split; [exact Hne|]. split; [rewrite Hadj; lra|].
    unfold score_spec, mean_score. rewrite sum_repeat, repeat_length, Hadj.
    unfold adjusted. simpl fst. simpl snd. simpl INR.
    f_equal. f_equal. f_equal. field. exact Hk. }
  split; [exact Hscore|].
  intros Hle. rewrite Hscore. f_equal.
  assert (Ecl : cl = n_samples).
  { unfold cl, clamped. destruct (Z.gtb_spec n_samples (Z.of_nat (length X))); lia. }
  rewrite Ecl.
  replace (IsolationForest._get_adjustment n_samples
           / IsolationForest._get_adjustment n_samples)%R with 1%R by (field; lra).
  rewrite Rpower_Ropp, Rpower_1 by lra. reflexivity.
Qed.

Lemma identical_rows_score_witness :
  IsolationForest._predict flat_forest [3;4]%Q
  = Return (Rpower 2 (- (IsolationForest._get_adjustment (clamped flat_X 2)
                         / IsolationForest._get_adjustment 2))) /\
  ((2 <= Z.of_nat (length flat_X))%Z ->
   IsolationForest._predict flat_forest [3;4]%Q = Return (/ 2)%R).
Proof.
  apply (identical_rows_score demo_random flat_X [3;4]%Q 0 2 2 10 1 flat_forest).
  - intros row Hin. simpl in Hin.
    destruct Hin as [<-|[<-|[<-|[]]]]; repeat constructor.
  - lia.
  - lia.
  - apply fit_trees. vm_compute. reflexivity.
Defined.

(** ** Arguments the code does not guard against *)

Section Unguarded.

Variable rnd : Random.
Variable X : Dataset.

Lemma loop_exit (budget m : nat) (max_depth : Z) (s : IsolationTree.build_state) :
  IsolationTree.loop_test max_depth s = false ->
  IsolationTree.loop rnd X budget m max_depth s = Return s.
Proof. intros H. destruct budget; simpl; rewrite H; reflexivity. Qed.

Lemma loop_budget_pos (max_depth : Z) :
  exists budget, IsolationTree.loop_budget max_depth = S budget.
Proof.
  unfold IsolationTree.loop_budget.
  destruct (2 ^ S (Z.to_nat max_depth))%nat as [|b] eqn:E.
  - exfalso. apply (Nat.pow_nonzero 2 (S (Z.to_nat max_depth))); [lia|exact E].
  - exists b. reflexivity.
Qed.

Lemma loop_first_raise (m : nat) (max_depth : Z) (s : IsolationTree.build_state)
  (e : exn) :
  IsolationTree.loop_test max_depth s = true ->
  IsolationTree.loop_body rnd X m s = Raise e ->
  IsolationTree.loop rnd X (IsolationTree.loop_budget max_depth) m max_depth s = Raise e.
Proof.
  intros Ht Hb. destruct (loop_budget_pos max_depth) as (b & ->).
  simpl. rewrite Ht, Hb. reflexivity.
Qed.

Lemma fit_first_raise (calls : nat) (n_samples max_depth n_trees : Z) (e : exn) :
  IsolationTree.__init__ rnd X calls n_samples max_depth = Raise e ->
  (1 <= n_trees)%Z ->
  IsolationForest.fit rnd X calls n_samples max_depth n_trees = Raise e.
Proof.
  intros H Hn. unfold IsolationForest.fit.
  destruct (Z.to_nat n_trees) as [|count] eqn:E; [lia|].
  simpl. rewrite H. reflexivity.
Qed.

Lemma sample_returns (calls : nat) (n_samples : Z) :
  (0 <= n_samples)%Z ->
  sample rnd calls (length X) (clamped X n_samples)
  = Return (sample_draw rnd calls (length X) (Z.to_nat (clamped X n_samples))).
Proof.
  intros Hn. unfold sample, clamped.
  destruct (Z.gtb_spec n_samples (Z.of_nat (length X))) as [Hgt|Hle].
  - destruct (Z.ltb_spec (Z.of_nat (length X)) 0); [lia|].
    rewrite Z.ltb_irrefl. reflexivity.
  - destruct (Z.ltb_spec n_samples 0); [lia|].
    destruct (Z.ltb_spec (Z.of_nat (length X)) n_samples); [lia|]. reflexivity.
Qed.

Lemma init_unfold (calls : nat) (n_samples max_depth : Z) (row0 : list Q) :
  getitem X 0 = Return row0 ->
  IsolationTree.__init__ rnd X calls n_samples max_depth
  = bind (sample rnd calls (length X) (clamped X n_samples))
      (fun idx =>
         bind (IsolationTree.loop rnd X (IsolationTree.loop_budget max_depth)
                 (length row0) max_depth
                 (IsolationTree.mkState [new_Node (clamped X n_samples)]
                    [(0%nat, 0%nat, idx)] None (S calls)))
           (fun s =>
              bind match IsolationTree.st_depth s with
                   | None => Raise UnboundLocalError
                   | Some depth =>
                       Return (depth, IsolationTree.st_nodes s, IsolationTree.st_calls s)
                   end
                (fun r => let '(h, st, calls') := r in
                          Return (IsolationTree.mkTree h 0 st, calls')))).
Proof.
  intros H. unfold IsolationTree.__init__, IsolationTree._build_tree, alloc, clamped.
  simpl. rewrite H. simpl.
  destruct (sample rnd calls (length X) _) as [idx| |]; simpl; try reflexivity.
  destruct (IsolationTree.loop _ _ _ _ _ _) as [s| |]; simpl; reflexivity.
Qed.

End Unguarded.

(** X7: a negative [max_depth] is not rejected: on a non-empty dataset with
    a non-negative subsample size the loop of [_build_tree] is never
    entered, [depth] stays unbound, and the constructor, hence [fit] with at
    least one tree, raises [UnboundLocalError]. *)
Theorem fit_negative_max_depth (rnd : Random) (X : Dataset) (row0 : list Q)
  (calls : nat) (n_samples max_depth n_trees : Z) :
  getitem X 0 = Return row0 -> (0 <= n_samples)%Z -> (max_depth < 0)%Z ->
  IsolationTree.__init__ rnd X calls n_samples max_depth = Raise UnboundLocalError /\
  ((1 <= n_trees)%Z ->
   IsolationForest.fit rnd X calls n_samples max_depth n_trees
   = Raise UnboundLocalError).
Proof.
  intros Hrow0 Hn Hmd.
  assert (H : IsolationTree.__init__ rnd X calls n_samples max_depth
              = Raise UnboundLocalError).
  { rewrite (init_unfold rnd X calls n_samples max_depth row0 Hrow0).
    rewrite (sample_returns rnd X calls n_samples Hn). cbn [bind].
    rewrite loop_exit; [reflexivity|].
    unfold IsolationTree.loop_test. simpl. apply Z.leb_gt. lia. }
  split; [exact H|]. apply fit_first_raise. exact H.
Qed.

Lemma fit_negative_max_depth_witness :
  IsolationTree.__init__ demo_random demo_X 0 100 (-1) = Raise UnboundLocalError /\
  ((1 <= 256)%Z ->
   IsolationForest.fit demo_random demo_X 0 100 (-1) 256 = Raise UnboundLocalError).
Proof.
  apply (fit_negative_max_depth demo_random demo_X [1;5]%Q 0 100 (-1) 256).
  - reflexivity.
  - lia.
  - lia.
Defined.

(** X8: a subsample size of zero or less is not rejected either: on a
    non-empty dataset with at least one column and a non-negative depth
    limit the constructor, hence [fit] with at least one tree, raises
    [ValueError], from [sample] when the size is negative and from [min] of
    an empty set when it is zero. *)
Theorem fit_no_samples (rnd : Random) (X : Dataset) (row0 : list Q)
  (calls : nat) (n_samples max_depth n_trees : Z) :
  random_ok rnd -> getitem X 0 = Return row0 -> (0 < length row0)%nat ->
  (n_samples <= 0)%Z -> (0 <= max_depth)%Z ->
  IsolationTree.__init__ rnd X calls n_samples max_depth = Raise ValueError /\
  ((1 <= n_trees)%Z ->
   IsolationForest.fit rnd X calls n_samples max_depth n_trees = Raise ValueError).
Proof.
  intros Hrnd Hrow0 Hcols Hn Hmd.
  assert (H : IsolationTree.__init__ rnd X calls n_samples max_depth = Raise ValueError).
  { rewrite (init_unfold rnd X calls n_samples max_depth row0 Hrow0).
    destruct (Z.eq_dec n_samples 0) as [->|Hneg].
    - rewrite (sample_returns rnd X calls 0 ltac:(lia)).
      assert (Ecl : clamped X 0 = 0%Z).
      { unfold clamped. destruct (Z.gtb_spec 0 (Z.of_nat (length X))); [lia|reflexivity]. }
      rewrite Ecl. simpl Z.to_nat.
      pose proof (sample_length rnd Hrnd calls (length X) 0 ltac:(lia)) as Hlen.
      destruct (sample_draw rnd calls (length X) 0) as [|i idx]; [|discriminate].
      cbn [bind]. rewrite (loop_first_raise rnd X _ _ _ ValueError); [reflexivity| |].
      + unfold IsolationTree.loop_test. simpl. apply Z.leb_le. lia.
      + unfold IsolationTree.loop_body. simpl IsolationTree.st_que. cbv iota beta.
        unfold choice. destruct (Nat.eqb_spec (length row0) 0); [lia|].
        cbn [bind]. rewrite get_split_empty. reflexivity.
    - unfold sample, clamped.
      destruct (Z.gtb_spec n_samples (Z.of_nat (length X))); [lia|].
      destruct (Z.ltb_spec n_samples 0); [|lia]. reflexivity. }
  split; [exact H|]. apply fit_first_raise. exact H.
Qed.

Lemma fit_no_samples_witness :
  IsolationTree.__init__ demo_random demo_X 0 0 10 = Raise ValueError /\
  ((1 <= 256)%Z ->
   IsolationForest.fit demo_random demo_X 0 0 10 256 = Raise ValueError).
Proof.
  apply (fit_no_samples demo_random demo_X [1;5]%Q 0 0 10 256).
  - exact demo_random_ok.
  - reflexivity.
  - simpl. lia.
  - lia.
  - lia.
Defined.

(** X9: a dataset whose first row has no column is not rejected: with a
    non-negative subsample size and depth limit the first iteration of the
    loop chooses from an empty range, and the constructor, hence [fit] with
    at least one tree, raises [IndexError]. *)
Theorem fit_no_columns (rnd : Random) (X : Dataset)
  (calls : nat) (n_samples max_depth n_trees : Z) :
  getitem X 0 = Return [] -> (0 <= n_samples)%Z -> (0 <= max_depth)%Z ->
  IsolationTree.__init__ rnd X calls n_samples max_depth = Raise IndexError /\
  ((1 <= n_trees)%Z ->
   IsolationForest.fit rnd X calls n_samples max_depth n_trees = Raise IndexError).
Proof.
  intros Hrow0 Hn Hmd.
  assert (H : IsolationTree.__init__ rnd X calls n_samples max_depth = Raise IndexError).
  { rewrite (init_unfold rnd X calls n_samples max_depth [] Hrow0).
    rewrite (sample_returns rnd X calls n_samples Hn). cbn [bind].
    rewrite (loop_first_raise rnd X _ _ _ IndexError); [reflexivity| |reflexivity].
    unfold IsolationTree.loop_test. simpl. apply Z.leb_le. lia. }
  split; [exact H|]. apply fit_first_raise. exact H.
Qed.

Lemma fit_no_columns_witness :
  IsolationTree.__init__ demo_random [[];[]] 0 100 10 = Raise IndexError /\
  ((1 <= 256)%Z ->
   IsolationForest.fit demo_random [[];[]] 0 100 10 256 = Raise IndexError).
Proof.
  apply (fit_no_columns demo_random [[];[]] 0 100 10 256).
  - reflexivity.
  - lia.
  - lia.
Defined.

(** X10: a tree count of zero or less is not rejected: [fit] then returns a
    forest without trees on every dataset, the empty one included, consuming
    no random draw, and scoring any row with it divides by zero. *)
Theorem fit_no_trees (rnd : Random) (X : Dataset) (calls : nat)
  (n_samples max_depth n_trees : Z) :
  (n_trees <= 0)%Z ->
  exists forest,
    IsolationForest.fit rnd X calls n_samples max_depth n_trees = Return (forest, calls) /\
    IsolationForest.trees forest = [] /\
    forall row rest,
      IsolationForest._predict forest row = Raise ZeroDivisionError /\
      IsolationForest.predict forest (row :: rest) = Raise ZeroDivisionError.
Proof.
  intros Hn.
  exists (IsolationForest.mkForest [] (IsolationForest._get_adjustment n_samples)).
  split; [|split; [reflexivity|]].
  - unfold IsolationForest.fit. replace (Z.to_nat n_trees) with 0%nat by lia.
    reflexivity.
  - intros row rest.
    assert (H : IsolationForest._predict
                  (IsolationForest.mkForest [] (IsolationForest._get_adjustment n_samples))
                  row = Raise ZeroDivisionError).
    { unfold IsolationForest._predict. simpl. rewrite true_div_zero. reflexivity. }
    split; [exact H|]. simpl IsolationForest.predict. rewrite H. reflexivity.
Qed.

Lemma fit_no_trees_witness :
  exists forest,
    IsolationForest.fit demo_random [] 0 100 10 0 = Return (forest, 0%nat) /\
    IsolationForest.trees forest = [] /\
    forall row rest,
      IsolationForest._predict forest row = Raise ZeroDivisionError /\
      IsolationForest.predict forest (row :: rest) = Raise ZeroDivisionError.
Proof.
  apply (fit_no_trees demo_random [] 0 100 10 0). lia.
Defined.

(** ** Errors of split-point selection, and the partition of the rows *)

Section SplitErrors.

Variable rnd : Random.
Variable X : Dataset.

Lemma cell_outcome (i feature : nat) :
  (exists x, cell X i feature = Return x) \/ cell X i feature = Raise IndexError.
Proof.
  unfold cell, getitem.
  destruct (nth_error X i) as [row|]; simpl; [|right; reflexivity].
  destruct (nth_error row feature) as [x|]; [left; exists x|right]; reflexivity.
Qed.

Lemma column_raise (idx : list nat) (feature : nat) (e : exn) :
  IsolationTree.column X idx feature = Raise e <->
  e = IndexError /\ exists i, In i idx /\ cell X i feature = Raise IndexError.
Proof.
  induction idx as [|i idx IH]; simpl.
  - split; [discriminate|]. intros (_ & j & [] & _).
  - unfold cell, getitem in *.
    destruct (nth_error X i) as [row|] eqn:Er; simpl.
    + destruct (nth_error row feature) as [x|] eqn:Ex; simpl.
      * split.
        -- intros H.
           destruct (IsolationTree.column X idx feature) as [xs| |] eqn:Ec;
             simpl in H; try discriminate.
           inversion H. subst. destruct (proj1 IH eq_refl) as (He & j & Hj & Hc).
           split; [exact He|]. exists j. auto.
        -- intros (-> & j & [<-|Hj] & Hc).
           ++ rewrite Er in Hc. simpl in Hc. rewrite Ex in Hc. discriminate.
           ++ rewrite (proj2 IH (conj eq_refl (ex_intro _ j (conj Hj Hc)))).
              reflexivity.
      * split.
        -- intros H. inversion H. split; [reflexivity|]. exists i.
           split; [left; reflexivity|]. rewrite Er. simpl. rewrite Ex. reflexivity.
        -- intros (-> & _). reflexivity.
    + split.
      * intros H. inversion H. split; [reflexivity|]. exists i.
        split; [left; reflexivity|]. rewrite Er. reflexivity.
      * intros (-> & _). reflexivity.
Qed.

Lemma split_rows_permutation (feature : nat) (point : Q) (pending : list nat) :
  forall l r l' r',
    IsolationTree.split_rows X feature point pending l r = Return (l', r') ->
    Permutation (pending ++ l ++ r) (l' ++ r').
Proof.
  induction pending as [|i pending IH]; intros l r l' r' H; simpl in H.
  - inversion H. subst. apply Permutation_refl.
  - destruct (getitem X i) as [row| |]; simpl in H; try discriminate.
    destruct (getitem row feature) as [x| |]; simpl in H; try discriminate.
    destruct (Qltb x point); apply IH in H;
      (eapply Permutation_trans; [|exact H]); simpl.
    + rewrite <- !app_assoc. simpl.
      rewrite (app_assoc pending l (i :: r)), (app_assoc pending l r).
      apply Permutation_middle.
    + rewrite !app_assoc. apply Permutation_cons_append.
Qed.

End SplitErrors.

(** X11: the two exceptions of split-point selection.  It raises
    [IndexError] exactly when some indexed row is missing or lacks the chosen
    column, and [ValueError] exactly when the index list is empty. *)
Theorem get_split_errors (rnd : Random) (X : Dataset) (calls : nat)
  (idx : list nat) (feature : nat) :
  (IsolationTree._get_split rnd X calls idx feature = Raise IndexError <->
   exists i, In i idx /\ cell X i feature = Raise IndexError) /\
  (IsolationTree._get_split rnd X calls idx feature = Raise ValueError <->
   idx = []).
Proof.
  destruct (IsolationTree.column X idx feature) as [vs|e0|] eqn:Ec.
  - (* every cell is there *)
    assert (Hnone : ~ exists i, In i idx /\ cell X i feature = Raise IndexError).
    { intros Hex.
      rewrite (proj2 (column_raise X idx feature IndexError) (conj eq_refl Hex)) in Ec.
      discriminate. }
    destruct vs as [|v vs].
    + apply column_length in Ec. destruct idx; [|discriminate].
      rewrite get_split_empty. split.
      * split; [discriminate|]. intros (i & [] & _).
      * split; reflexivity.
    + assert (Hidx : idx <> []).
      { intros ->. simpl in Ec. discriminate. }
      assert (Hret : exists r, IsolationTree._get_split rnd X calls idx feature = Return r).
      { destruct (all_equal_dec (v :: vs)) as [Hall|Hnall].
        - eexists. apply (get_split_none rnd X calls _ _ _ Ec ltac:(discriminate) Hall).
        - destruct (get_split_some rnd X calls _ _ _ Ec Hnall)
            as (lo & lower & upper & _ & _ & _ & E).
          eexists. exact E. }
      destruct Hret as (r & Hret). rewrite Hret. split.
      * split; [discriminate|]. intros Hex. contradiction.
      * split; [discriminate|]. intros E. contradiction.
  - (* a cell is missing *)
    destruct (proj1 (column_raise X idx feature e0) Ec) as (-> & Hex).
    assert (Hraise : IsolationTree._get_split rnd X calls idx feature = Raise IndexError).
    { unfold IsolationTree._get_split. rewrite Ec. reflexivity. }
    rewrite Hraise. split.
    + split; auto.
    + split; [discriminate|]. intros ->. destruct Hex as (i & [] & _).
  - exfalso. apply (column_no_diverge X idx feature Ec).
Qed.

(** X12: the inner loop of [_build_tree] partitions the index list: the two
    lists it returns hold the indices of the list between them, each as often
    as the list does, the rows below the split point on the left and the
    others on the right. *)
Theorem split_rows_partition (X : Dataset) (feature : nat) (point : Q)
  (idx idx_left idx_right : list nat) :
  IsolationTree.split_rows X feature point (rev idx) [] [] = Return (idx_left, idx_right) ->
  Permutation idx (idx_left ++ idx_right) /\
  Forall (fun i => exists x, cell X i feature = Return x /\ (x < point)%Q) idx_left /\
  Forall (fun i => exists x, cell X i feature = Return x /\ (point <= x)%Q) idx_right.
Proof.
  intros H. split; [|split].
  - apply Permutation_trans with (rev idx); [apply Permutation_rev|].
    pose proof (split_rows_permutation X _ _ _ _ _ _ _ H) as Hp.
    simpl in Hp. rewrite app_nil_r in Hp. exact Hp.
  - destruct (split_rows_spec X _ _ _ _ _ _ _ H) as (HL & _).
    apply Forall_forall. intros i Hi. apply HL in Hi.
    destruct Hi as [[]|(_ & Hx)]. exact Hx.
  - destruct (split_rows_spec X _ _ _ _ _ _ _ H) as (_ & HR).
    apply Forall_forall. intros i Hi. apply HR in Hi.
    destruct Hi as [[]|(_ & Hx)]. exact Hx.
Qed.

Lemma split_rows_partition_witness :
  Permutation [0;1;2;3]%nat ([1;0] ++ [3;2])%nat /\
  Forall (fun i => exists x, cell demo_X i 1 = Return x /\ (x < 7)%Q) [1;0]%nat /\
  Forall (fun i => exists x, cell demo_X i 1 = Return x /\ (7 <= x)%Q) [3;2]%nat.
Proof.
  apply (split_rows_partition demo_X 1 7%Q [0;1;2;3]%nat [1;0]%nat [3;2]%nat).
  vm_compute. reflexivity.
Defined.

(** X13: scoring has no cross-row effect: when the rows of a dataset are
    permuted, [predict] returns the same scores permuted, each row still
    with the score [_predict] gives it. *)
Theorem predict_permutation (forest : IsolationForest.t) (X X' : Dataset)
  (ys : list R) :
  Permutation X X' ->
  IsolationForest.predict forest X = Return ys ->
  exists ys',
    Permutation ys ys' /\
    IsolationForest.predict forest X' = Return ys' /\
    Forall2 (fun row y => IsolationForest._predict forest row = Return y) X' ys'.
Proof.
  intros Hperm H. apply forest_predict_rows in H.
  destruct (Permutation_Forall2 Hperm H) as (ys' & Hp & Hf).
  exists ys'. split; [exact Hp|]. split; [|exact Hf].
  apply forest_predict_rows. exact Hf.
Qed.

Lemma predict_permutation_witness :
  exists ys',
    Permutation [score_spec [(1%nat, 2%Z)] (IsolationForest._get_adjustment 100);
                 score_spec [(2%nat, 1%Z)] (IsolationForest._get_adjustment 100)] ys' /\
    IsolationForest.predict demo_forest [[10;7];[1;5]]%Q = Return ys' /\
    Forall2 (fun row y => IsolationForest._predict demo_forest row = Return y)
      [[10;7];[1;5]]%Q ys'.
Proof.
  assert (Hadj : IsolationForest.adjustment demo_forest <> 0%R).
  { simpl. pose proof (adjustment_ge1 100 ltac:(lia)). lra. }
  apply (predict_permutation demo_forest [[1;5];[10;7]]%Q [[10;7];[1;5]]%Q).
  - apply perm_swap.
  - apply forest_predict_rows. constructor; [|constructor; [|constructor]].
    + apply forest_predict_Return. exists [(1%nat, 2%Z)].
      split; [constructor; [vm_compute; reflexivity|constructor]|].
      split; [discriminate|]. split; [exact Hadj|reflexivity].
    + apply forest_predict_Return. exists [(2%nat, 1%Z)].
      split; [constructor; [vm_compute; reflexivity|constructor]|].
      split; [discriminate|]. split; [exact Hadj|reflexivity].
Defined.

(** ** The number of nodes of a tree *)

Section NodeCount.

Variable rnd : Random.
Variable X : Dataset.
Hypothesis Hrnd : random_ok rnd.

Lemma que_potential_cons (d nd : nat) (idx : list nat)
  (que : list (nat * nat * list nat)) :
  que_potential ((d, nd, idx) :: que)
  = (2 * Z.of_nat (length idx) - 2 + que_potential que)%Z.
Proof. reflexivity. Qed.

Lemma que_potential_app (q1 q2 : list (nat * nat * list nat)) :
  que_potential (q1 ++ q2) = (que_potential q1 + que_potential q2)%Z.
Proof.
  induction q1 as [|[[d nd] idx] q1 IH]; [reflexivity|].
  rewrite <- app_comm_cons, !que_potential_cons, IH. lia.
Qed.

Lemma que_potential_nonneg (que : list (nat * nat * list nat)) :
  (forall entry, In entry que -> (1 <= length (snd entry))%nat) ->
  (0 <= que_potential que)%Z.
Proof.
  induction que as [|[[d nd] idx] que IH]; intros H; [simpl; lia|].
  rewrite que_potential_cons.
  pose proof (H _ (or_introl eq_refl)) as Hidx. simpl in Hidx.
  pose proof (IH (fun entry Hin => H entry (or_intror Hin))). lia.
Qed.

Lemma node_budget_preserved (m : nat) (n_samples : Z)
  (s s' : IsolationTree.build_state) :
  node_budget n_samples s -> iteration rnd X m s s' -> node_budget n_samples s'.
Proof.
  intros [Hsum Hpos] Hit.
  destruct Hit as [depth nd idx que feature calls Hq _ _ ->
                  |depth nd idx que feature calls point il ir Hq _ Hsplit Hsr ->];
    rewrite Hq in Hsum, Hpos; rewrite que_potential_cons in Hsum;
    pose proof (Hpos _ (or_introl eq_refl)) as Hidx; simpl in Hidx;
    split; cbn [IsolationTree.st_nodes IsolationTree.st_que].
  - rewrite leaf_store_length. lia.
  - intros entry Hin. apply Hpos. right. exact Hin.
  - rewrite split_store_length, que_potential_app, !que_potential_cons.
    change (que_potential []) with 0%Z.
    pose proof (split_rows_lengths X _ _ _ _ _ _ _ Hsr) as Hlen.
    rewrite length_rev in Hlen. simpl in Hlen. lia.
  - intros entry Hin. apply in_app_or in Hin. destruct Hin as [Hin|Hin];
      [apply Hpos; right; exact Hin|].
    destruct (get_split_column _ _ _ _ _ _ Hsplit) as (vs & Hcol).
    destruct (random_range rnd Hrnd (S (IsolationTree.st_calls s))) as (Hr0 & Hr1).
    destruct (split_sides rnd X _ _ _ _ _ _ _ _ Hr0 Hr1 Hsplit Hcol Hsr)
      as (_ & _ & HnL & HnR & _).
    simpl in Hin. destruct Hin as [<-|[<-|[]]]; simpl; assumption.
Qed.

End NodeCount.

(** X14: a tree built on a subsample of [k >= 1] rows has at most
    [2 * k - 1] nodes (and at least its root). *)
Theorem tree_node_count (rnd : Random) (X : Dataset) (calls calls' : nat)
  (n_samples max_depth : Z) (tree : IsolationTree.t) :
  random_ok rnd -> (1 <= n_samples)%Z ->
  IsolationTree.__init__ rnd X calls n_samples max_depth = Return (tree, calls') ->
  (1 <= length (IsolationTree.nodes tree))%nat /\
  (Z.of_nat (length (IsolationTree.nodes tree)) <= 2 * clamped X n_samples - 1)%Z.
Proof.
  intros Hrnd Hn Hinit.
  destruct (init_shaped _ _ _ _ _ _ _ Hinit) as (_ & dp & _ & _ & Hlen).
  split; [lia|].
  destruct (init_inversion _ _ _ _ _ _ _ Hinit)
    as (row0 & idx & s & Hrow0 & Hs & El & _ & En & _ & _).
  fold (clamped X n_samples) in Hs, El. set (ns := clamped X n_samples) in *.
  assert (Hns : (1 <= ns <= Z.of_nat (length X))%Z).
  { unfold sample in Hs.
    destruct (Z.ltb_spec ns 0) as [?|H0]; [discriminate|].
    destruct (Z.ltb_spec (Z.of_nat (length X)) ns) as [?|H1]; [discriminate|].
    unfold ns, clamped in *. unfold getitem in Hrow0.
    destruct X as [|r0 X0]; [discriminate|]. simpl length in *.
    destruct (Z.gtb_spec n_samples (Z.of_nat (S (length X0)))); lia. }
  assert (Hidx : length idx = Z.to_nat ns).
  { unfold sample in Hs. destruct (_ || _)%bool; [discriminate|].
    inversion Hs. apply (sample_length rnd Hrnd). lia. }
  rewrite En.
  apply (loop_induction rnd X (node_budget ns) (length row0) max_depth) in El.
  - destruct El as (Hsum & Hpos).
    pose proof (que_potential_nonneg _ Hpos). lia.
  - intros s0 s1 H0 _ Hit. apply (node_budget_preserved rnd X Hrnd _ _ _ _ H0 Hit).
  - split; cbn [IsolationTree.st_nodes IsolationTree.st_que].
    + rewrite que_potential_cons, Hidx. change (que_potential []) with 0%Z.
      simpl length. lia.
    + intros entry [<-|[]]. simpl. lia.
Qed.

Lemma tree_node_count_witness :
  (1 <= length (IsolationTree.nodes demo_tree))%nat /\
  (Z.of_nat (length (IsolationTree.nodes demo_tree)) <= 2 * clamped demo_X 100 - 1)%Z.
Proof.
  apply (tree_node_count demo_random demo_X 0 8 100 10 demo_tree).
  - exact demo_random_ok.
  - lia.
  - vm_compute. reflexivity.
Defined.

(** ** The order of scores *)

Lemma tree_results_unique (trees : list IsolationTree.t) (row : list Q)
  (results1 results2 : list (nat * Z)) :
  tree_results trees row results1 -> tree_results trees row results2 ->
  results1 = results2.
Proof.
  intros H1. revert results2.
  induction H1 as [|tree r1 rest rs1 Hq _ IH]; intros results2 H2;
    inversion H2 as [|? r2 ? rs2 Hq2 Hrest]; subst; [reflexivity|].
  rewrite Hq in Hq2. inversion Hq2. f_equal. apply IH. exact Hrest.
Qed.

Lemma half_power : Rpower 2 (Ropp 1) = (/ 2)%R.
Proof. rewrite Rpower_Ropp, Rpower_1 by lra. reflexivity. Qed.

(** X15: in exact real arithmetic the score falls as the mean adjusted depth
    grows: of two rows scored by the same forest, the one the trees isolate
    sooner on average gets the larger score, and a score is above one half
    exactly when the mean adjusted depth is below the adjustment of the
    forest.  (The sum, the two divisions and the power are those of the real
    numbers; the rounding of the doubles is left out.) *)
Theorem score_order (forest : IsolationForest.t) (row1 row2 : list Q)
  (results1 results2 : list (nat * Z)) (y1 y2 : R) :
  (0 < IsolationForest.adjustment forest)%R ->
  tree_results (IsolationForest.trees forest) row1 results1 ->
  tree_results (IsolationForest.trees forest) row2 results2 ->
  IsolationForest._predict forest row1 = Return y1 ->
  IsolationForest._predict forest row2 = Return y2 ->
  ((mean_score results1 <= mean_score results2)%R -> (y2 <= y1)%R) /\
  ((mean_score results1 < mean_score results2)%R -> (y2 < y1)%R) /\
  ((/ 2 < y1)%R <-> (mean_score results1 < IsolationForest.adjustment forest)%R).
Proof.
  intros Hadj Hr1 Hr2 Hy1 Hy2.
  apply forest_predict_Return in Hy1. destruct Hy1 as (r1 & Hr1' & _ & _ & ->).
  apply forest_predict_Return in Hy2. destruct Hy2 as (r2 & Hr2' & _ & _ & ->).
  rewrite (tree_results_unique _ _ _ _ Hr1' Hr1).
  rewrite (tree_results_unique _ _ _ _ Hr2' Hr2).
  clear r1 r2 Hr1' Hr2'. unfold score_spec.
  set (a := IsolationForest.adjustment forest) in *.
  set (m1 := mean_score results1). set (m2 := mean_score results2).
  assert (Hinv : (0 < / a)%R) by (apply Rinv_0_lt_compat; exact Hadj).
  split; [|split].
  - intros Hle. apply Rle_Rpower; [lra|]. unfold Rdiv. nra.
  - intros Hlt. apply Rpower_lt; [lra|]. unfold Rdiv. nra.
  - rewrite <- half_power. split.
    + intros Hlt. destruct (Rlt_le_dec m1 a) as [H|H]; [exact H|]. exfalso.
      assert (Hq : (1 <= m1 / a)%R).
      { unfold Rdiv. replace 1%R with (a * / a)%R by (field; lra). nra. }
      pose proof (Rle_Rpower 2 (- (m1 / a)) (Ropp 1) ltac:(lra) ltac:(lra)). lra.
    + intros Hlt. apply Rpower_lt; [lra|].
      assert (Hq : (m1 / a < 1)%R).
      { unfold Rdiv. replace 1%R with (a * / a)%R by (field; lra). nra. }
      lra.
Qed.

Lemma score_order_witness :
  ((mean_score [(1%nat, 2%Z)] <= mean_score [(2%nat, 1%Z)])%R ->
   (score_spec [(2%nat, 1%Z)] (IsolationForest._get_adjustment 100)
    <= score_spec [(1%nat, 2%Z)] (IsolationForest._get_adjustment 100))%R) /\
  ((mean_score [(1%nat, 2%Z)] < mean_score [(2%nat, 1%Z)])%R ->
   (score_spec [(2%nat, 1%Z)] (IsolationForest._get_adjustment 100)
    < score_spec [(1%nat, 2%Z)] (IsolationForest._get_adjustment 100))%R) /\
  ((/ 2 < score_spec [(1%nat, 2%Z)] (IsolationForest._get_adjustment 100))%R <->
   (mean_score [(1%nat, 2%Z)] < IsolationForest.adjustment demo_forest)%R).
Proof.
  assert (Hadj : (0 < IsolationForest.adjustment demo_forest)%R).
  { simpl. pose proof (adjustment_ge1 100 ltac:(lia)). lra. }
  assert (H1 : tree_results (IsolationForest.trees demo_forest) [1;5]%Q [(1%nat, 2%Z)])
    by (constructor; [vm_compute; reflexivity|constructor]).
  assert (H2 : tree_results (IsolationForest.trees demo_forest) [10;7]%Q [(2%nat, 1%Z)])
    by (constructor; [vm_compute; reflexivity|constructor]).
  apply (score_order demo_forest [1;5]%Q [10;7]%Q [(1%nat, 2%Z)] [(2%nat, 1%Z)]).
  - exact Hadj.
  - exact H1.
  - exact H2.
  - apply forest_predict_Return. exists [(1%nat, 2%Z)].
    split; [exact H1|]. split; [discriminate|]. split; [lra|reflexivity].
  - apply forest_predict_Return. exists [(2%nat, 1%Z)].
    split; [exact H2|]. split; [discriminate|]. split; [lra|reflexivity].
Defined.

(** ** The forest that [fit] returns *)

(** X16: [fit] returns as many trees as asked for (none for a negative
    count), each with a root whose size is the smaller of the subsample size
    and the row count, and the adjustment of the subsample size as given. *)
Theorem fit_forest_shape (rnd : Random) (X : Dataset) (calls calls' : nat)
  (n_samples max_depth n_trees : Z) (forest : IsolationForest.t) :
  IsolationForest.fit rnd X calls n_samples max_depth n_trees = Return (forest, calls') ->
  Z.of_nat (length (IsolationForest.trees forest)) = Z.max 0 n_trees /\
  Forall (fun tree => root_size tree (Z.min n_samples (Z.of_nat (length X))))
    (IsolationForest.trees forest) /\
  IsolationForest.adjustment forest = IsolationForest._get_adjustment n_samples.
Proof.
  intros Hfit.
  destruct (fit_inversion _ _ _ _ _ _ _ _ Hfit) as (Hadj & Hlen & Hbuilt).
  split; [rewrite Hlen; lia|]. split; [|exact Hadj].
  apply (Forall_impl _ (P := built rnd X n_samples max_depth)); [|exact Hbuilt].
  intros tree (c & c' & Hinit).
  pose proof (init_root_size _ _ _ _ _ _ _ Hinit) as Hroot.
  replace (Z.min n_samples (Z.of_nat (length X))) with (clamped X n_samples);
    [exact Hroot|].
  unfold clamped. destruct (Z.gtb_spec n_samples (Z.of_nat (length X))); lia.
Qed.

Lemma fit_forest_shape_witness :
  Z.of_nat (length (IsolationForest.trees flat_forest)) = Z.max 0 1 /\
  Forall (fun tree => root_size tree (Z.min 2 (Z.of_nat (length flat_X))))
    (IsolationForest.trees flat_forest) /\
  IsolationForest.adjustment flat_forest = IsolationForest._get_adjustment 2.
Proof.
  apply (fit_forest_shape demo_random flat_X 0 2 2 10 1 flat_forest).
  apply fit_trees. vm_compute. reflexivity.
Defined.
